(** * Shen-Castan edge detection (ShenCastan.ipynb): a shallow embedding

    The notebook works on numpy arrays of floats indexed as [a[row][col]],
    with module-level configuration constants and one module-level mutable
    array ([edges]) written by the recursive tracer.

    Modelling choices.
    - A 2D array is a list of rows, [list (list Q)].  Floating-point samples
      are idealised as exact rationals; every comparison the code makes
      ([== 0.0], [> 0.0], [> low_thresh] ...) is the corresponding decidable
      test on [Q].  Rounding is not modelled: what is proved is the
      arithmetic of the code carried out exactly, and the structure of the
      computation (the cells read and written, the tests made and their
      order), not the order or the range of computed binary64 values.
    - Indexing follows numpy: an index [i] into an axis of length [n] is
      valid when [-n <= i < n], a negative index counts from the end, and
      anything else raises [IndexError].
    - Code that can raise runs in the error monad [res].  The recursion of
      [mark_connected] runs on a call stack of a given [depth], the number
      of nested calls the stack admits; exhausting it is the outcome
      [DepthExceeded], Python's [RecursionError].
    - The module-level constants are the fields of [Config]; the global
      [edges] array is threaded through [mark_connected] explicitly. *)

From Stdlib Require Import ZArith QArith Lia Lqa.
From stdpp Require Import base tactics option list list_numbers sets.

Local Open Scope Z_scope.

(** ** Outcomes of a computation *)

Inductive exn : Type :=
  | IndexError
  | ZeroDivisionError
  | DepthExceeded.

Inductive res (A : Type) : Type :=
  | Ok (a : A)
  | Raise (e : exn).
Arguments Ok {A} a.
Arguments Raise {A} e.

#[global] Instance res_ret : MRet res := λ A a, Ok a.
#[global] Instance res_bind : MBind res := λ A B f m,
  match m with
  | Ok a => f a
  | Raise e => Raise e
  end.

(** [for x in xs: body], the loop state threaded through the iterations. *)
Fixpoint for_each {A S : Type} (xs : list A) (body : A → S → res S) (s : S) : res S :=
  match xs with
  | [] => Ok s
  | x :: xs' => s' ← body x s; for_each xs' body s'
  end.

(** [range (a, b)] and [range (a, b, -1)]. *)
Definition range (a b : Z) : list Z := seqZ a (b - a).
Definition range_down (a b : Z) : list Z := reverse (seqZ (b + 1) (a - b)).

(** ** Arrays with numpy indexing *)

Abbreviation grid := (list (list Q)).

Definition py_index (n : nat) (i : Z) : option nat :=
  if bool_decide (0 ≤ i < Z.of_nat n) then Some (Z.to_nat i)
  else if bool_decide (- Z.of_nat n ≤ i < 0) then Some (Z.to_nat (Z.of_nat n + i))
  else None.

Definition getitem {A : Type} (l : list A) (i : Z) : res A :=
  match py_index (length l) i with
  | Some k => match l !! k with Some x => Ok x | None => Raise IndexError end
  | None => Raise IndexError
  end.

Definition setitem {A : Type} (l : list A) (i : Z) (x : A) : res (list A) :=
  match py_index (length l) i with
  | Some k => Ok (<[k := x]> l)
  | None => Raise IndexError
  end.

(** [g[r][c]] *)
Definition get2 (g : grid) (r c : Z) : res Q :=
  line ← getitem g r; getitem line c.

(** [g[r][c] = v] *)
Definition set2 (g : grid) (r c : Z) (v : Q) : res grid :=
  line ← getitem g r; line' ← setitem line c v; setitem g r line'.

(** [rows, columns = g.shape] *)
Definition shape (g : grid) : Z * Z :=
  (Z.of_nat (length g), Z.of_nat (length (hd [] g))).

(** [np.zeros_like (g)] *)
Definition zeros_like (g : grid) : grid := map (map (λ _, 0%Q)) g.

(** A numpy array is rectangular. *)
Definition rect (g : grid) : Prop :=
  Forall (λ line, length line = length (hd [] g)) g.

(** ** Numeric tests and checked division *)

Definition Qltb (x y : Q) : bool := negb (Qle_bool y x).

Definition checked_div (x y : Q) : res Q :=
  if Qeq_bool y 0 then Raise ZeroDivisionError else Ok (x / y)%Q.

(** ** Configuration: the notebook's module-level constants *)

Record Config : Type := {
  s_factor : Q;
  window_size : Z;
  outline : Z;
  low_thresh : Q;
  high_thresh : Q;
  do_hysteresis : bool;
  thinFactor : Z
}.

Definition notebook_config : Config := {|
  s_factor := 9 # 10;
  window_size := 6;
  outline := 25;
  low_thresh := 2;
  high_thresh := 2;
  do_hysteresis := false;
  thinFactor := 0
|}.

(** The eight neighbour offsets [(d_row, d_col)] in the order in which
    [mark_connected] visits them. *)
Definition neighbours : list (Z * Z) :=
  [(0, 1); (0, -1); (1, 1); (1, 0); (1, -1); (-1, -1); (-1, 0); (-1, 1)].

Section Pipeline.
Context (cfg : Config).

Definition isEdge (row col rows columns : Z) : bool :=
  bool_decide (row < outline cfg) || bool_decide (rows - outline cfg ≤ row)
  || bool_decide (col < outline cfg) || bool_decide (columns - outline cfg ≤ col).

(** *** Step 1: ISEF *)

Definition getISEF (img : grid) : res grid :=
  let casual := zeros_like img in
  let anti_casual := zeros_like img in
  let first_pass := zeros_like img in
  let '(rows, columns) := shape img in
  b1 ← checked_div (1 - s_factor cfg) (1 + s_factor cfg);
  let b2 := (s_factor cfg * b1)%Q in
  (* boundaries for the first and last row *)
  '(casual, anti_casual) ← for_each (range 0 columns) (λ col '(casual, anti_casual),
      x ← get2 img 0 col;
      casual ← set2 casual 0 col (b1 * x)%Q;
      y ← get2 img (rows - 1) col;
      anti_casual ← set2 anti_casual (rows - 1) col (b2 * y)%Q;
      mret (casual, anti_casual)) (casual, anti_casual);
  (* the casual component *)
  casual ← for_each (range 1 rows) (λ row,
    for_each (range 0 columns) (λ col casual,
      x ← get2 img row col;
      p ← get2 casual (row - 1) col;
      set2 casual row col (b1 * x + s_factor cfg * p)%Q)) casual;
  (* the anti-casual component *)
  anti_casual ← for_each (range_down (rows - 2) (-1)) (λ row,
    for_each (range 0 columns) (λ col anti_casual,
      x ← get2 img row col;
      n ← get2 anti_casual (row + 1) col;
      set2 anti_casual row col (b2 * x + s_factor cfg * n)%Q)) anti_casual;
  (* boundary case *)
  first_pass ← for_each (range 0 (columns - 1)) (λ col first_pass,
      a ← get2 casual (rows - 1) col;
      set2 first_pass (rows - 1) col a) first_pass;
  (* sum of the casual and anti-casual components *)
  first_pass ← for_each (range 0 (rows - 2)) (λ row,
    for_each (range 0 (columns - 1)) (λ col first_pass,
      a ← get2 casual row col;
      b ← get2 anti_casual (row + 1) col;
      set2 first_pass row col (a + b)%Q)) first_pass;
  (* second pass, along the columns index *)
  let result := first_pass in
  '(casual, anti_casual) ← for_each (range 0 rows) (λ row '(casual, anti_casual),
      x ← get2 first_pass row 0;
      casual ← set2 casual row 0 (b1 * x)%Q;
      y ← get2 first_pass row (columns - 1);
      anti_casual ← set2 anti_casual row (columns - 1) (b2 * y)%Q;
      mret (casual, anti_casual)) (casual, anti_casual);
  casual ← for_each (range 1 columns) (λ col,
    for_each (range 0 rows) (λ row casual,
      x ← get2 first_pass row col;
      p ← get2 casual row (col - 1);
      set2 casual row col (b1 * x + s_factor cfg * p)%Q)) casual;
  anti_casual ← for_each (range_down (columns - 2) (-1)) (λ col,
    for_each (range 0 rows) (λ row anti_casual,
      x ← get2 first_pass row col;
      n ← get2 anti_casual row (col + 1);
      set2 anti_casual row col (b2 * x + s_factor cfg * n)%Q)) anti_casual;
  result ← for_each (range 0 rows) (λ row result,
      a ← get2 casual row (columns - 1);
      set2 result row (columns - 1) a) result;
  for_each (range 0 rows) (λ row,
    for_each (range 0 (columns - 1)) (λ col result,
      a ← get2 casual row col;
      b ← get2 anti_casual row (col + 1);
      set2 result row col (a + b)%Q)) result.

(** *** Step 2: the binary Laplacian image *)

Definition getBLI (img imgISEF : grid) : res grid :=
  let '(rows, columns) := shape img in
  let result := zeros_like img in
  for_each (range 0 rows) (λ row,
    for_each (range 0 columns) (λ col result,
      a ← get2 imgISEF row col;
      b ← get2 img row col;
      set2 result row col (if Qltb 0 (a - b) then 1 else 0)%Q)) result.

(** *** Step 3: zero crossings *)

Definition isEdgeCandidate (imgBLI imgISEF : grid) (row col : Z) : res bool :=
  (* [imgBLI[row][col] == 1.0 and imgBLI[r'][c'] == 0.0], short-circuit *)
  let transition (r' c' : Z) : res bool :=
    a ← get2 imgBLI row col;
    if Qeq_bool a 1 then b ← get2 imgBLI r' c'; mret (Qeq_bool b 0)
    else mret false in
  t ← transition (row + 1) col;
  if t : bool then
    x ← get2 imgISEF (row + 1) col; y ← get2 imgISEF (row - 1) col;
    mret (Qltb 0 (x - y))
  else
  t ← transition row (col + 1);
  if t : bool then
    x ← get2 imgISEF row (col + 1); y ← get2 imgISEF row (col - 1);
    mret (Qltb 0 (x - y))
  else
  t ← transition (row - 1) col;
  if t : bool then
    x ← get2 imgISEF (row + 1) col; y ← get2 imgISEF (row - 1) col;
    mret (Qltb (x - y) 0)
  else
  t ← transition row (col - 1);
  if t : bool then
    x ← get2 imgISEF row (col + 1); y ← get2 imgISEF row (col - 1);
    mret (Qltb (x - y) 0)
  else mret false.

(** [int (-window_size/2)] and [int (window_size/2)]: [int] truncates
    towards zero. *)
Definition window_start : Z := (- window_size cfg) ÷ 2.
Definition window_end : Z := window_size cfg ÷ 2.

(** The accumulators of [adaptiveGradient]. *)
Record sums : Type := Sums { sum_on : Q; num_on : Z; sum_off : Q; num_off : Z }.

Definition accumulate (imgBLI imgISEF : grid) (row col : Z) : res sums :=
  for_each (range window_start window_end) (λ i,
    for_each (range window_start window_end) (λ j acc,
      b ← get2 imgBLI (row + i) (col + j);
      x ← get2 imgISEF (row + i) (col + j);
      if Qltb 0 b
      then mret (Sums (sum_on acc + x) (num_on acc + 1) (sum_off acc) (num_off acc))
      else mret (Sums (sum_on acc) (num_on acc) (sum_off acc + x) (num_off acc + 1))))
    (Sums 0 0 0 0).

Definition adaptiveGradient (imgBLI imgISEF : grid) (row col : Z) : res Q :=
  acc ← accumulate imgBLI imgISEF row col;
  avg_off ← (if Qltb 0 (sum_off acc)
             then checked_div (sum_off acc) (inject_Z (num_off acc)) else mret 0%Q);
  avg_on ← (if Qltb 0 (sum_on acc)
            then checked_div (sum_on acc) (inject_Z (num_on acc)) else mret 0%Q);
  mret (avg_off - avg_on)%Q.

Definition locateZc (imgISEF imgBLI : grid) : res grid :=
  let '(rows, columns) := shape imgISEF in
  let result := zeros_like imgISEF in
  for_each (range 0 rows) (λ row,
    for_each (range 0 columns) (λ col result,
      if isEdge row col rows columns then mret result
      else
        cand ← isEdgeCandidate imgBLI imgISEF row col;
        v ← (if cand : bool then adaptiveGradient imgBLI imgISEF row col else mret 0%Q);
        set2 result row col v)) result.

(** *** Step 4: threshold edges *)

(** [mark_connected]; the global [edges] is passed in and returned.
    [depth] bounds the nesting of calls.  The eight recursive calls
    [notChainEnd |= mark_connected (...)] are the loop over [neighbours]. *)
Fixpoint mark_connected (depth : nat) (row col level : Z) (img edges : grid)
    : res (grid * Z) :=
  match depth with
  | O => Raise DepthExceeded
  | S depth' =>
    e ← get2 edges row col;
    if negb (Qeq_bool e 0) then mret (edges, 0) else
    v ← get2 img row col;
    if Qeq_bool v 0 then mret (edges, 0) else
    edges ← set2 edges row col (if Qltb (low_thresh cfg) v then 1 else 255)%Q;
    '(edges, notChainEnd) ←
      for_each neighbours (λ '(dr, dc) '(edges, notChainEnd),
        '(edges, r) ← mark_connected depth' (row + dr) (col + dc) (level + 1) img edges;
        mret (edges, Z.lor notChainEnd r)) (edges, 0);
    edges ←
      (if bool_decide (notChainEnd ≠ 0) && bool_decide (0 < level) then
         if bool_decide (0 < thinFactor cfg) then
           if bool_decide (level `mod` thinFactor cfg ≠ 0)
           then set2 edges row col 255%Q
           else mret edges
         else mret edges
       else mret edges);
    mret (edges, 1)
  end.

(** [threshold_edges] with an explicit bound on the recursion depth of
    the traversals it starts.  The assignment [low_thresh = high_thresh]
    binds a name local to [threshold_edges] (there is no [global
    low_thresh] declaration), so [mark_connected] keeps reading the
    module-level [low_thresh]: the local is bound here and never used. *)
Definition threshold_edges_within (depth : nat) (img : grid) : res grid :=
  let '(rows, columns) := shape img in
  let result := zeros_like img in
  let edges := result in
  let low_thresh_local :=
    if negb (do_hysteresis cfg) then Some (high_thresh cfg) else None in
  edges ← for_each (range 0 rows) (λ row,
    for_each (range 0 columns) (λ col edges,
      if isEdge row col rows columns then mret edges
      else
        v ← get2 img row col;
        if Qltb (high_thresh cfg) v
        then '(edges, _) ← mark_connected depth row col 0 img edges; mret edges
        else mret edges)) edges;
  for_each (range 0 rows) (λ row,
    for_each (range 0 columns) (λ col edges,
      e ← get2 edges row col;
      if Qeq_bool e 255 then set2 edges row col 0%Q else mret edges)) edges.

(** One traversal marks a fresh pixel at every level, so its nesting never
    exceeds the number of pixels plus one (theorem [tracer_terminates]).
    Python bounds the nesting by the recursion limit of its call stack,
    which this budget does not model: [threshold_edges] is the run of the
    function on a call stack that is deep enough for the image, and
    [threshold_edges_within] at a smaller [depth] is the run on a stack
    that admits [depth] nested calls, where [DepthExceeded] stands for
    [RecursionError]. *)
Definition depth_budget (img : grid) : nat :=
  S (length img * length (hd [] img)).

Definition threshold_edges (img : grid) : res grid :=
  threshold_edges_within (depth_budget img) img.

(** *** Step 5: the driver *)

Definition shenCastan (img : grid) : res grid :=
  imgISEF ← getISEF img;
  imgBLI ← getBLI img imgISEF;
  imgZC ← locateZc imgISEF imgBLI;
  imgEdges ← threshold_edges imgZC;
  let '(rows, columns) := shape imgEdges in
  for_each (range 0 rows) (λ row,
    for_each (range 0 columns) (λ col imgEdges,
      e ← get2 imgEdges row col;
      set2 imgEdges row col (if Qltb 0 e then 255 else 0)%Q)) imgEdges.

End Pipeline.


(** * Cells

    What an index pair denotes depends only on the lengths of the rows
    ([dims]): [locate] resolves [g[r][c]] to the position of a cell, or to
    nothing when numpy would raise [IndexError]. *)

Definition dims (g : grid) : list nat := length <$> g.

Definition locate (ds : list nat) (r c : Z) : option (nat * nat) :=
  i ← py_index (length ds) r; n ← ds !! i; j ← py_index n c; Some (i, j).

Definition cell (g : grid) (p : nat * nat) : Q :=
  default 0%Q (g !! p.1 ≫= (.!! p.2)).

Definition upd (g : grid) (p : nat * nat) (v : Q) : grid :=
  alter (<[p.2 := v]>) p.1 g.

Definition valid (ds : list nat) (p : nat * nat) : Prop :=
  ∃ n, ds !! p.1 = Some n ∧ (p.2 < n)%nat.

(** The cell at non-negative coordinates. *)
Definition at_ (r c : Z) : nat * nat := (Z.to_nat r, Z.to_nat c).

Definition pairs {A B : Type} (xs : list A) (ys : list B) : list (A * B) :=
  x ← xs; (λ y, (x, y)) <$> ys.

(** The pixels of a [rows] by [columns] array in row-major order: the
    iteration space of [for row in range (rows): for col in range (columns)]. *)
Definition pixels (rows columns : Z) : list (Z * Z) :=
  pairs (range 0 rows) (range 0 columns).

(** * The zero-crossing locator, with the reads of the code

    The patterns, the sides of the window and the guarded averages, stated
    over the samples that the subscripts of the code resolve to:
    [value g r c] is what [g[r][c]] reads under numpy's indexing, where a
    negative index counts from the end.  [isEdgeCandidate],
    [adaptiveGradient] and [locateZc] are compared with these definitions
    below; the specification's own reading, over the pixels of the image
    alone, is [is_candidate] and [window_strength] further down. *)

Definition value (g : grid) (r c : Z) : Q :=
  match get2 g r c with Ok v => v | Raise _ => 0%Q end.

(** A directional pattern: the neighbour that must be off, and the sign test
    on the smoothed grid that decides candidacy once the pattern fires. *)
Record pattern : Type := Pattern {
  off_neighbour : Z * Z;      (* offset of the BLI neighbour that must be 0 *)
  along_rows : bool;          (* difference taken along rows or along columns *)
  positive : bool             (* required sign of the difference *)
}.

(** Priority order: downward row, downward column, upward row, upward column. *)
Definition patterns : list pattern :=
  [ Pattern (1, 0) true true; Pattern (0, 1) false true;
    Pattern (-1, 0) true false; Pattern (0, -1) false false ].

Definition fires (imgBLI : grid) (row col : Z) (pat : pattern) : bool :=
  Qeq_bool (value imgBLI row col) 1
  && Qeq_bool (value imgBLI (row + (off_neighbour pat).1) (col + (off_neighbour pat).2)) 0.

Definition sign_test (imgISEF : grid) (row col : Z) (pat : pattern) : bool :=
  let d := (if along_rows pat
            then value imgISEF (row + 1) col - value imgISEF (row - 1) col
            else value imgISEF row (col + 1) - value imgISEF row (col - 1))%Q in
  if positive pat then Qltb 0 d else Qltb d 0.

(** First match wins: the first pattern that fires decides. *)
Definition candidate_spec (imgBLI imgISEF : grid) (row col : Z) : bool :=
  match List.find (fires imgBLI row col) patterns with
  | Some pat => sign_test imgISEF row col pat
  | None => false
  end.

Section LocatorSpec.
Context (cfg : Config).

(** The coordinates that the two loops of [adaptiveGradient] subscript
    the grids with, in the order of the loops. *)
Definition window (row col : Z) : list (Z * Z) :=
  (λ d, (row + d.1, col + d.2))
    <$> pairs (range (window_start cfg) (window_end cfg))
              (range (window_start cfg) (window_end cfg)).

Definition side_sum (imgISEF : grid) (side : list (Z * Z)) : Q :=
  foldl Qplus 0%Q ((λ p, value imgISEF p.1 p.2) <$> side).

(** [avg = sum/num], guarded: 0 when the sum is not positive. *)
Definition side_avg (imgISEF : grid) (side : list (Z * Z)) : Q :=
  if Qltb 0 (side_sum imgISEF side)
  then (side_sum imgISEF side / inject_Z (Z.of_nat (length side)))%Q
  else 0%Q.

Definition is_on (imgBLI : grid) (p : Z * Z) : bool :=
  Qltb 0 (value imgBLI p.1 p.2).

Definition gradient_spec (imgBLI imgISEF : grid) (row col : Z) : Q :=
  (side_avg imgISEF (filter (λ p, negb (is_on imgBLI p)) (window row col))
   - side_avg imgISEF (filter (λ p, is_on imgBLI p) (window row col)))%Q.

Definition strength_spec (imgISEF imgBLI : grid) (row col : Z) : Q :=
  let '(rows, columns) := shape imgISEF in
  if isEdge cfg row col rows columns then 0%Q
  else if candidate_spec imgBLI imgISEF row col
       then gradient_spec imgBLI imgISEF row col
       else 0%Q.
End LocatorSpec.

Definition is_Ok {A : Type} (m : res A) : Prop := ∃ a, m = Ok a.

(** One iteration of the accumulation loop of [adaptiveGradient], at the
    window pixel [p]. *)
Definition accumulate_step (imgBLI imgISEF : grid) (p : Z * Z) (acc : sums) : res sums :=
  b ← get2 imgBLI p.1 p.2;
  x ← get2 imgISEF p.1 p.2;
  if Qltb 0 b
  then mret (Sums (sum_on acc + x) (num_on acc + 1) (sum_off acc) (num_off acc))
  else mret (Sums (sum_on acc) (num_on acc) (sum_off acc + x) (num_off acc + 1)).

(** * The tracer: marks, and what a traversal may change *)

(** A cell of [edges] is visited once it holds a mark. *)
Definition visited (edges : grid) (p : nat * nat) : bool :=
  negb (Qeq_bool (cell edges p) 0).

(** A cell of the strength grid that the traversal does not stop at. *)
Definition nonzero (img : grid) (p : nat * nat) : bool :=
  negb (Qeq_bool (cell img p) 0).

Section TracerSpec.
Context (cfg : Config).

(** The mark a pixel of strength [v] receives when it is first visited. *)
Definition initial_mark (v : Q) : Q :=
  (if Qltb (low_thresh cfg) v then 1 else 255)%Q.

(** The value of a cell that a traversal has marked: its initial mark or,
    when thinning is on, the provisional 255. *)
Definition marked_value (img : grid) (q : nat * nat) (v : Q) : Prop :=
  v = initial_mark (cell img q) ∨ (0 < thinFactor cfg ∧ v = 255%Q).

(** [grows img e e']: every cell of [e'] is as in [e], or was unvisited in
    [e], has non-zero strength and now holds a mark. *)
Definition grows (img e e' : grid) : Prop :=
  dims e' = dims e
  ∧ ∀ q, cell e' q = cell e q
         ∨ (visited e q = false ∧ valid (dims e) q ∧ nonzero img q = true
            ∧ marked_value img q (cell e' q)).

(** One of the eight recursive calls, with its [notChainEnd |= ...]. *)
Definition neighbour_step (depth : nat) (row col level : Z) (img : grid)
    (d : Z * Z) (st : grid * Z) : res (grid * Z) :=
  '(edges, r) ← mark_connected cfg depth (row + d.1) (col + d.2) (level + 1) img st.1;
  mret (edges, Z.lor st.2 r).

(** The test guarding the re-mark [edges[row][col] = 255]. *)
Definition demote (level notChainEnd : Z) : bool :=
  bool_decide (notChainEnd ≠ 0) && bool_decide (0 < level)
  && bool_decide (0 < thinFactor cfg)
  && bool_decide (level `mod` thinFactor cfg ≠ 0).

(** The recursive calls made for the neighbours [ns] of [(row, col)], in
    order: the state before, the values they return, the state after. *)
Inductive neighbour_calls (depth : nat) (row col level : Z) (img : grid)
    : list (Z * Z) → grid → list Z → grid → Prop :=
  | calls_nil (e : grid) :
      neighbour_calls depth row col level img [] e [] e
  | calls_cons (d : Z * Z) (ns : list (Z * Z)) (e e1 e' : grid) (r : Z) (rs : list Z) :
      mark_connected cfg depth (row + d.1) (col + d.2) (level + 1) img e = Ok (e1, r) →
      neighbour_calls depth row col level img ns e1 rs e' →
      neighbour_calls depth row col level img (d :: ns) e (r :: rs) e'.

(** What is known of a call once it has returned: the state grew, and the
    call either changed nothing and returned 0, or marked its own pixel
    and returned 1. *)
Definition call_ok (img : grid) (row col : Z) (e e' : grid) (r : Z) : Prop :=
  grows img e e'
  ∧ ((r = 0 ∧ e' = e)
     ∨ (r = 1 ∧ ∃ p, locate (dims e) row col = Some p
                 ∧ visited e p = false ∧ visited e' p = true)).

(** The two loops of [threshold_edges]: tracing from the seeds, then
    clearing the provisional marks. *)
Definition trace_seeds (depth : nat) (img edges : grid) : res grid :=
  let '(rows, columns) := shape img in
  for_each (range 0 rows) (λ row,
    for_each (range 0 columns) (λ col edges,
      if isEdge cfg row col rows columns then mret edges
      else
        v ← get2 img row col;
        if Qltb (high_thresh cfg) v
        then '(edges, _) ← mark_connected cfg depth row col 0 img edges; mret edges
        else mret edges)) edges.

(** One iteration of the seed loop, at the pixel [p]. *)
Definition seed_step (depth : nat) (img : grid) (p : Z * Z) (edges : grid)
    : res grid :=
  if isEdge cfg p.1 p.2 (shape img).1 (shape img).2 then mret edges
  else
    v ← get2 img p.1 p.2;
    if Qltb (high_thresh cfg) v
    then '(edges, _) ← mark_connected cfg depth p.1 p.2 0 img edges; mret edges
    else mret edges.

Definition clear_provisional (img edges : grid) : res grid :=
  let '(rows, columns) := shape img in
  for_each (range 0 rows) (λ row,
    for_each (range 0 columns) (λ col edges,
      e ← get2 edges row col;
      if Qeq_bool e 255 then set2 edges row col 0%Q else mret edges)) edges.

(** The normalisation loop of [shenCastan]. *)
Definition normalise (imgEdges : grid) : res grid :=
  let '(rows, columns) := shape imgEdges in
  for_each (range 0 rows) (λ row,
    for_each (range 0 columns) (λ col imgEdges,
      e ← get2 imgEdges row col;
      set2 imgEdges row col (if Qltb 0 e then 255 else 0)%Q)) imgEdges.
End TracerSpec.

(** The number of cells of [l] not yet visited. *)
Definition unvisited (edges : grid) (l : list (nat * nat)) : nat :=
  length (filter (λ p, negb (visited edges p)) l).

(** * Regions of the strength grid *)

(** The cell that the coordinates [p] denote has non-zero strength. *)
Definition strong (img : grid) (p : Z * Z) : Prop :=
  ∃ c, locate (dims img) p.1 p.2 = Some c ∧ nonzero img c = true.

Definition shift (p d : Z * Z) : Z * Z := (p.1 + d.1, p.2 + d.2).

(** [connected img p q]: [q] is reached from [p] along 8-neighbour steps
    through pixels of non-zero strength; the pixels [q] with
    [connected img p q] are the 8-connected region of non-zero strength
    that contains [p]. *)
Inductive connected (img : grid) : Z * Z → Z * Z → Prop :=
  | connected_here (p : Z * Z) :
      strong img p → connected img p p
  | connected_step (p d q : Z * Z) :
      strong img p → d ∈ neighbours → connected img (shift p d) q →
      connected img p q.

(** All the cells of an [R] by [C] array. *)
Definition all_cells (R C : nat) : list (nat * nat) := pairs (seq 0 R) (seq 0 C).

(** A strength grid that is 0 on the border margin, as [locateZc] leaves it. *)
Definition zero_border (cfg : Config) (img : grid) : Prop :=
  ∀ row col, 0 ≤ row < (shape img).1 → 0 ≤ col < (shape img).2 →
    isEdge cfg row col (shape img).1 (shape img).2 = true →
    get2 img row col = Ok 0%Q.

(** * Counting the calls that recurse

    [mark_connected_calls] is [mark_connected] with one more result: the
    number of calls, in the whole tree of calls, that got past the two
    guards and recursed.  The counter is a ghost: erasing it gives
    [mark_connected] back (lemma [mark_connected_calls_erase]). *)

Fixpoint mark_connected_calls (cfg : Config) (depth : nat) (row col level : Z)
    (img edges : grid) : res (grid * Z * nat) :=
  match depth with
  | O => Raise DepthExceeded
  | S depth' =>
    e ← get2 edges row col;
    if negb (Qeq_bool e 0) then mret (edges, 0, 0%nat) else
    v ← get2 img row col;
    if Qeq_bool v 0 then mret (edges, 0, 0%nat) else
    edges ← set2 edges row col (initial_mark cfg v);
    st ← for_each neighbours (λ d (st : grid * Z * nat),
            '(edges, r, k) ← mark_connected_calls cfg depth' (row + d.1) (col + d.2)
                               (level + 1) img st.1.1;
            mret (edges, Z.lor st.1.2 r, (st.2 + k)%nat)) (edges, 0, 0%nat);
    edges ← (if demote cfg level st.1.2 then set2 st.1.1 row col 255%Q
             else mret st.1.1);
    mret (edges, 1, S st.2)
  end.

(** * Sample inputs *)

(** A configuration for the tracer alone: border of width 1. *)
Definition tracer_config (low high : Q) (hysteresis : bool) (thin : Z) : Config := {|
  s_factor := 9 # 10;
  window_size := 2;
  outline := 1;
  low_thresh := low;
  high_thresh := high;
  do_hysteresis := hysteresis;
  thinFactor := thin
|}.

(** A chain of three candidates, the strongest in the middle. *)
Definition chain : grid :=
  [ [0; 0; 0; 0; 0];
    [0; 3; 5; 3; 0];
    [0; 0; 0; 0; 0] ]%Q.

(** A strong candidate with a weak neighbour. *)
Definition weak_neighbour : grid :=
  [ [0; 0; 0; 0];
    [0; 3; 1; 0];
    [0; 0; 0; 0] ]%Q.




(** A 6 by 6 image with a vertical step, and a configuration under which
    the step is detected. *)
Definition step_image : grid :=
  replicate 6 [0; 0; 0; 255; 255; 255]%Q.

Definition step_config : Config := {|
  s_factor := 1 # 2;
  window_size := 2;
  outline := 1;
  low_thresh := - 50;
  high_thresh := - 36;
  do_hysteresis := false;
  thinFactor := 0
|}.

(** Small smoothed and binary Laplacian grids for the locator. *)
Definition small_ISEF : grid := [ [1; 2; 3]; [4; 5; 6]; [7; 8; 9] ]%Q.
Definition small_BLI : grid := [ [1; 1; 1]; [1; 1; 0]; [1; 1; 1] ]%Q.

(** * The ISEF as the specification words it

    These definitions follow the specification (section 4.1), not the code;
    [getISEF] is compared with them below. *)

Section ISEFSpec.
Context (s : Q).

Definition spec_b1 : Q := ((1 - s) / (1 + s))%Q.
Definition spec_b2 : Q := (s * spec_b1)%Q.

(** [causal[0] = b1*input[0]], [causal[i] = b1*input[i] + s*causal[i-1]]. *)
Fixpoint causal_after (prev : Q) (input : list Q) : list Q :=
  match input with
  | [] => []
  | x :: rest => let c := (spec_b1 * x + s * prev)%Q in c :: causal_after c rest
  end.

Definition causal (input : list Q) : list Q :=
  match input with
  | [] => []
  | x :: rest => (spec_b1 * x)%Q :: causal_after (spec_b1 * x)%Q rest
  end.

(** [anticausal[n-1] = b2*input[n-1]],
    [anticausal[i] = b2*input[i] + s*anticausal[i+1]]. *)
Fixpoint anticausal (input : list Q) : list Q :=
  match input with
  | [] => []
  | x :: rest =>
      match anticausal rest with
      | [] => [(spec_b2 * x)%Q]
      | (a :: _) as tail => (spec_b2 * x + s * a)%Q :: tail
      end
  end.

(** [output[i] = causal[i] + anticausal[i+1]] for [i] in [0..n-2], and
    [output[n-1] = causal[n-1]] alone. *)
Definition filter_line (input : list Q) : list Q :=
  imap (λ i c, match anticausal input !! S i with
               | Some a => (c + a)%Q
               | None => c
               end) (causal input).

Definition column (g : grid) (j : nat) : list Q :=
  (λ line, default 0%Q (line !! j)) <$> g.

Definition transpose (g : grid) : grid :=
  column g <$> seq 0 (length (hd [] g)).

(** Pass 1 on every row of the intensity grid, pass 2 on every column of
    the intermediate grid. *)
Definition isef_spec (img : grid) : grid :=
  transpose (filter_line <$> transpose (filter_line <$> img)).

(** The same two passes in the other order: first along every column, then
    along every row, the order in which [getISEF] sweeps. *)
Definition isef_spec_columns_first (img : grid) : grid :=
  filter_line <$> transpose (filter_line <$> transpose img).
End ISEFSpec.

Definition ones3 : grid := [ [1; 1; 1]; [1; 1; 1]; [1; 1; 1] ]%Q.

(** * The tracer as a flood fill from the seeds *)

(** The configuration with another high threshold, all else unchanged. *)
Definition with_high (high : Q) (cfg : Config) : Config := {|
  s_factor := s_factor cfg;
  window_size := window_size cfg;
  outline := outline cfg;
  low_thresh := low_thresh cfg;
  high_thresh := high;
  do_hysteresis := do_hysteresis cfg;
  thinFactor := thinFactor cfg
|}.

(** The configuration with another low threshold, all else unchanged. *)
Definition with_low (low : Q) (cfg : Config) : Config := {|
  s_factor := s_factor cfg;
  window_size := window_size cfg;
  outline := outline cfg;
  low_thresh := low;
  high_thresh := high_thresh cfg;
  do_hysteresis := do_hysteresis cfg;
  thinFactor := thinFactor cfg
|}.

(** The configuration with another thinning factor, all else unchanged. *)
Definition with_thin (thin : Z) (cfg : Config) : Config := {|
  s_factor := s_factor cfg;
  window_size := window_size cfg;
  outline := outline cfg;
  low_thresh := low_thresh cfg;
  high_thresh := high_thresh cfg;
  do_hysteresis := do_hysteresis cfg;
  thinFactor := thin
|}.

(** The configuration [cfg] with its border margin replaced by [margin],
    as the scenarios of the specification set it. *)
Definition with_outline (margin : Z) (cfg : Config) : Config := {|
  s_factor := s_factor cfg;
  window_size := window_size cfg;
  outline := margin;
  low_thresh := low_thresh cfg;
  high_thresh := high_thresh cfg;
  do_hysteresis := do_hysteresis cfg;
  thinFactor := thinFactor cfg
|}.

(** The edge grid as the driver hands it out: traced, then normalised. *)
Definition tracer_output (cfg : Config) (img : grid) : res grid :=
  imgEdges ← threshold_edges cfg img; normalise imgEdges.

(** The number of confirmed-edge pixels (value 255) of an output grid. *)
Definition edge_count (out : grid) : nat :=
  length (filter (λ v, Qeq_bool v 255) (concat out)).

Definition in_range (R C : nat) (q : Z * Z) : Prop :=
  0 ≤ q.1 < Z.of_nat R ∧ 0 ≤ q.2 < Z.of_nat C.

(** The cell at the coordinates [q]. *)
Definition at' (q : Z * Z) : nat * nat := at_ q.1 q.2.

Section FloodSpec.
Context (cfg : Config) (img : grid) (R C : nat).

(** A seed: a pixel outside the border whose strength exceeds
    [high_thresh] and at which the traversal does not stop at once. *)
Definition is_seed (s : Z * Z) : Prop :=
  in_range R C s
  ∧ isEdge cfg s.1 s.2 (Z.of_nat R) (Z.of_nat C) = false
  ∧ Qltb (high_thresh cfg) (cell img (at' s)) = true
  ∧ nonzero img (at' s) = true.

(** All the neighbours of [q] that a traversal would enter are visited. *)
Definition closed_at (e : grid) (q : Z * Z) : Prop :=
  ∀ d, d ∈ neighbours → in_range R C (shift q d) →
       nonzero img (at' (shift q d)) = true → visited e (at' (shift q d)) = true.

(** The pixels the tracer confirms when thinning is off: those stronger
    than [low_thresh] in the region of a seed. *)
Definition edge_spec (q : Z * Z) : Prop :=
  Qltb (low_thresh cfg) (cell img (at' q)) = true
  ∧ ∃ s, is_seed s ∧ connected img s q.
End FloodSpec.

(** * Properties of the cells of an array *)

(** An [R] by [C] array all of whose cells satisfy [P]. *)
Definition cells_satisfy (R C : nat) (P : Q → Prop) (g : grid) : Prop :=
  dims g = replicate R C ∧ ∀ p, P (cell g p).

(** The cells of row [r] in the columns selected by [sel] hold 0. *)
Definition zero_in_row (r : Z) (sel : Z → Prop) (g : grid) : Prop :=
  ∀ c, 0 ≤ c → sel c → (cell g (at_ r c) == 0)%Q.

(** * Thinning

    [thinned e0 et]: the state [et] of a run with thinning agrees with the
    state [e0] of the run without, except at marked cells that it holds at
    the provisional 255. *)
Definition thinned (e0 et : grid) : Prop :=
  dims et = dims e0
  ∧ ∀ q, cell et q = cell e0 q ∨ (visited e0 q = true ∧ cell et q = 255%Q).

(** * The zero-crossing locator over the pixels of the image

    The definitions of [value], [fires], [sign_test], [window] and
    [gradient_spec] above read a grid as the code's subscripts do, through
    numpy's indexing, where a negative index counts from the end.  The ones
    below follow the specification's words alone (section 4.3): a grid has a
    sample at each of its pixels and nowhere else, and the window around a
    pixel is the square of the offsets [[-h, h)] in both axes, [h] being
    [window_size/2] truncated to an integer. *)















(** * Reasoning principles *)

(** ** The error monad *)

Lemma bind_Ok {A B : Type} (m : res A) (f : A → res B) (b : B) :
  m ≫= f = Ok b ↔ ∃ a, m = Ok a ∧ f a = Ok b.
Proof.
  destruct m as [a|e]; simpl; split.
  - intros H. by exists a.
  - by intros (a' & [= ->] & H).
  - intros H. discriminate H.
  - by intros (a' & [=] & _).
Qed.

Lemma bind_Raise {A B : Type} (m : res A) (f : A → res B) (e : exn) :
  m ≫= f = Raise e ↔ m = Raise e ∨ ∃ a, m = Ok a ∧ f a = Raise e.
Proof.
  destruct m as [a|e']; simpl; split.
  - intros H. right. by exists a.
  - intros [[=]|(a' & [= ->] & H)]. done.
  - intros [= ->]. by left.
  - intros [[= ->]|(a' & [=] & _)]. done.
Qed.

Lemma mret_Ok {A : Type} (a b : A) : mret (M := res) a = Ok b ↔ a = b.
Proof. split; [by intros [= ->] | by intros ->]. Qed.

(** Decompose hypotheses stating that a monadic computation succeeded. *)
Ltac res_inv :=
  repeat match goal with
  | H : Raise _ = Ok _ |- _ => discriminate H
  | H : Ok _ = Raise _ |- _ => discriminate H
  | H : Ok _ = Ok _ |- _ => injection H as H; try subst
  | H : mret _ = Ok _ |- _ => apply mret_Ok in H; try subst
  | H : (_ ≫= _) = Ok _ |- _ =>
      let a := fresh "a" in let Ha := fresh "Ha" in
      apply bind_Ok in H as (a & Ha & H)
  end.

(** ** Loops *)

Section Loops.
Context {A S : Type}.
Implicit Types (xs : list A) (body : A → S → res S).

Lemma for_each_app xs ys body s :
  for_each (xs ++ ys) body s = s' ← for_each xs body s; for_each ys body s'.
Proof.
  revert s. induction xs as [|x xs IH]; intros s; simpl; [done|].
  destruct (body x s); simpl; [apply IH | done].
Qed.

(** An invariant of the loop state that may mention the elements already
    processed. *)
Lemma for_each_prefix_inv (I : list A → S → Prop) xs body :
  (∀ pre x s s', pre ++ [x] `prefix_of` xs → I pre s → body x s = Ok s' →
                 I (pre ++ [x]) s') →
  ∀ s s', I [] s → for_each xs body s = Ok s' → I xs s'.
Proof.
  intros Hstep.
  cut (∀ ys pre s s', pre ++ ys = xs → I pre s → for_each ys body s = Ok s' → I xs s').
  { intros H s s'. by apply (H xs []). }
  induction ys as [|y ys IH]; intros pre s s' Hxs HI Hrun; simpl in Hrun.
  - res_inv. by rewrite app_nil_r.
  - res_inv. apply (IH (pre ++ [y]) a s'); [by rewrite <- app_assoc | | done].
    apply (Hstep pre y s a); [|done..].
    exists ys. by rewrite <- app_assoc.
Qed.

Lemma for_each_inv (I : S → Prop) xs body :
  (∀ x s s', x ∈ xs → I s → body x s = Ok s' → I s') →
  ∀ s s', I s → for_each xs body s = Ok s' → I s'.
Proof.
  intros Hstep s s' HI Hrun.
  apply (for_each_prefix_inv (λ _, I) xs body) with (s := s); [|done..].
  intros pre x t t' [k Hk] Ht Hb. apply (Hstep x t t'); [|done..].
  rewrite Hk. set_solver.
Qed.

(** Totality: a body that cannot fail on states satisfying an invariant. *)
Lemma for_each_total (I : S → Prop) xs body :
  (∀ x s, x ∈ xs → I s → ∃ s', body x s = Ok s' ∧ I s') →
  ∀ s, I s → ∃ s', for_each xs body s = Ok s' ∧ I s'.
Proof.
  induction xs as [|x xs IH]; intros Hstep s HI; simpl.
  - by exists s.
  - destruct (Hstep x s) as (s1 & -> & HI1); [set_solver | done |]. simpl.
    apply IH; [|done]. intros y t Hy. apply Hstep. set_solver.
Qed.

(** A loop raises [e] only if some iteration does. *)
Lemma for_each_never (e : exn) (I : S → Prop) xs body :
  (∀ x s, x ∈ xs → I s → body x s ≠ Raise e) →
  (∀ x s s', x ∈ xs → I s → body x s = Ok s' → I s') →
  ∀ s, I s → for_each xs body s ≠ Raise e.
Proof.
  induction xs as [|x xs IH]; intros Hne Hstep s HI; simpl; [done|].
  destruct (body x s) as [s1|e1] eqn:Hb; simpl.
  - apply IH.
    + intros y t Hy. apply Hne. set_solver.
    + intros y t t' Hy. apply Hstep. set_solver.
    + apply (Hstep x s); [set_solver | done..].
  - intros [= ->]. apply (Hne x s); [set_solver | done..].
Qed.

Lemma for_each_ext xs body body' s :
  (∀ x t, x ∈ xs → body x t = body' x t) →
  for_each xs body s = for_each xs body' s.
Proof.
  revert s. induction xs as [|x xs IH]; intros s Hext; simpl; [done|].
  rewrite Hext by set_solver. destruct (body' x s); simpl; [|done].
  apply IH. intros y t Hy. apply Hext. set_solver.
Qed.
End Loops.

(** Two nested loops are one loop over the pairs in row-major order. *)
Lemma for_each_fmap {A B S : Type} (f : A → B) (xs : list A)
    (body : B → S → res S) (s : S) :
  for_each (f <$> xs) body s = for_each xs (λ x, body (f x)) s.
Proof.
  revert s. induction xs as [|x xs IH]; intros s; simpl; [done|].
  destruct (body (f x) s); simpl; [apply IH | done].
Qed.

Lemma for_each_nested {A B S : Type} (xs : list A) (ys : list B)
    (body : A → B → S → res S) (s : S) :
  for_each xs (λ x, for_each ys (body x)) s
  = for_each (pairs xs ys) (λ p, body p.1 p.2) s.
Proof.
  revert s. induction xs as [|x xs IH]; intros s; simpl; [done|].
  unfold pairs. simpl. rewrite for_each_app, for_each_fmap. simpl.
  destruct (for_each ys _ s); simpl; [apply IH | done].
Qed.

Lemma elem_of_pairs {A B : Type} (xs : list A) (ys : list B) (p : A * B) :
  p ∈ pairs xs ys ↔ p.1 ∈ xs ∧ p.2 ∈ ys.
Proof.
  unfold pairs. rewrite list_elem_of_bind. destruct p as [a b]. simpl. split.
  - intros (x & Hin & Hx). apply list_elem_of_fmap in Hin as (y & [= -> ->] & Hy). done.
  - intros [Ha Hb]. exists a. split; [|done]. apply list_elem_of_fmap. by exists b.
Qed.

Lemma elem_of_range (a b k : Z) : k ∈ range a b ↔ a ≤ k < b.
Proof. unfold range. rewrite elem_of_seqZ. lia. Qed.

(** ** Indexing *)

Lemma py_index_lt (n : nat) (i : Z) (k : nat) :
  py_index n i = Some k → (k < n)%nat.
Proof. unfold py_index. repeat case_bool_decide; intros [=]; lia. Qed.

Lemma py_index_nonneg (n : nat) (i : Z) :
  0 ≤ i < Z.of_nat n → py_index n i = Some (Z.to_nat i).
Proof. intros H. unfold py_index. by rewrite bool_decide_eq_true_2. Qed.

Lemma py_index_None (n : nat) (i : Z) :
  py_index n i = None ↔ i < - Z.of_nat n ∨ Z.of_nat n ≤ i.
Proof. unfold py_index. repeat case_bool_decide; split; (done || lia). Qed.

Lemma locate_valid (ds : list nat) (r c : Z) (p : nat * nat) :
  locate ds r c = Some p → valid ds p.
Proof.
  unfold locate, valid. intros H.
  destruct (py_index (length ds) r) as [i|]; simpl in H; [|done].
  destruct (ds !! i) as [n|] eqn:Hn; simpl in H; [|done].
  destruct (py_index n c) as [j|] eqn:Hj; simpl in H; [|done].
  injection H as <-. exists n. split; [done|]. by apply py_index_lt in Hj.
Qed.

Lemma locate_at (ds : list nat) (r c : Z) (n : nat) :
  0 ≤ r → ds !! Z.to_nat r = Some n → 0 ≤ c < Z.of_nat n →
  locate ds r c = Some (at_ r c).
Proof.
  intros Hr Hn Hc. unfold locate.
  rewrite py_index_nonneg; simpl.
  - rewrite Hn. simpl. by rewrite py_index_nonneg.
  - apply lookup_lt_Some in Hn. lia.
Qed.

Lemma get2_locate (g : grid) (r c : Z) :
  get2 g r c = match locate (dims g) r c with
               | Some p => Ok (cell g p)
               | None => Raise IndexError
               end.
Proof.
  unfold get2, getitem, locate, dims, cell. rewrite length_fmap.
  destruct (py_index (length g) r) as [i|]; simpl; [|done].
  rewrite list_lookup_fmap. destruct (g !! i) as [line|] eqn:Hline; simpl; [|done].
  destruct (py_index (length line) c) as [j|] eqn:Hj; simpl; [|done].
  rewrite Hline. simpl.
  apply py_index_lt, lookup_lt_is_Some in Hj as [x ->]. done.
Qed.

Lemma set2_locate (g : grid) (r c : Z) (v : Q) :
  set2 g r c v = match locate (dims g) r c with
                 | Some p => Ok (upd g p v)
                 | None => Raise IndexError
                 end.
Proof.
  unfold set2, getitem, setitem, locate, dims, upd. rewrite length_fmap.
  destruct (py_index (length g) r) as [i|] eqn:Hi; simpl; [|done].
  rewrite list_lookup_fmap. destruct (g !! i) as [line|] eqn:Hline; simpl; [|done].
  destruct (py_index (length line) c) as [j|]; simpl; [|done].
  f_equal. apply list_eq. intros k.
  destruct (decide (i = k)) as [<-|Hne].
  - rewrite list_lookup_insert_eq, list_lookup_alter_eq, Hline; [done|].
    by apply lookup_lt_Some in Hline.
  - by rewrite list_lookup_insert_ne, list_lookup_alter_ne.
Qed.

Lemma dims_upd (g : grid) (p : nat * nat) (v : Q) : dims (upd g p v) = dims g.
Proof.
  unfold dims, upd. apply list_eq. intros k. rewrite !list_lookup_fmap.
  destruct (decide (p.1 = k)) as [<-|Hne].
  - rewrite list_lookup_alter_eq. destruct (g !! p.1); simpl; [|done].
    by rewrite length_insert.
  - by rewrite list_lookup_alter_ne.
Qed.

Lemma cell_upd_eq (g : grid) (p : nat * nat) (v : Q) :
  valid (dims g) p → cell (upd g p v) p = v.
Proof.
  intros (n & Hn & Hlt). unfold dims in Hn. rewrite list_lookup_fmap in Hn.
  unfold cell, upd. rewrite list_lookup_alter_eq.
  destruct (g !! p.1) as [line|]; simpl in *; [|done].
  injection Hn as <-. by rewrite list_lookup_insert_eq.
Qed.

Lemma cell_upd_ne (g : grid) (p q : nat * nat) (v : Q) :
  p ≠ q → cell (upd g p v) q = cell g q.
Proof.
  intros Hne. unfold cell, upd.
  destruct (decide (p.1 = q.1)) as [Heq|Hne1].
  - rewrite <- Heq, list_lookup_alter_eq.
    destruct (g !! p.1) as [line|]; simpl; [|done].
    rewrite list_lookup_insert_ne; [done|].
    intros Heq2. apply Hne. destruct p, q; simpl in *; congruence.
  - by rewrite list_lookup_alter_ne.
Qed.

Lemma cell_upd (g : grid) (p q : nat * nat) (v : Q) :
  valid (dims g) p →
  cell (upd g p v) q = if decide (p = q) then v else cell g q.
Proof.
  intros Hp. case_decide as Hpq.
  - subst q. by apply cell_upd_eq.
  - by apply cell_upd_ne.
Qed.

Lemma dims_zeros_like (g : grid) : dims (zeros_like g) = dims g.
Proof.
  unfold dims, zeros_like. rewrite <- list_fmap_compose.
  apply list_fmap_ext. intros i line _. simpl. apply length_map.
Qed.

Lemma cell_zeros_like (g : grid) (p : nat * nat) : cell (zeros_like g) p = 0%Q.
Proof.
  unfold cell, zeros_like. change (map ?f g) with (f <$> g).
  rewrite list_lookup_fmap. destruct (g !! p.1) as [line|]; simpl; [|done].
  change (map ?f line) with (f <$> line). rewrite list_lookup_fmap.
  by destruct (line !! p.2).
Qed.

Lemma cell_invalid (g : grid) (p : nat * nat) : ¬ valid (dims g) p → cell g p = 0%Q.
Proof.
  intros Hp. unfold cell. destruct (g !! p.1) as [line|] eqn:Hl; simpl; [|done].
  destruct (line !! p.2) as [x|] eqn:Hx; simpl; [|done].
  destruct Hp. exists (length line). split.
  - unfold dims. by rewrite list_lookup_fmap, Hl.
  - by apply lookup_lt_Some in Hx.
Qed.

(** Two arrays with the same row lengths and the same cells are equal. *)
Lemma grid_eq (g h : grid) :
  dims g = dims h → (∀ p, valid (dims g) p → cell g p = cell h p) → g = h.
Proof.
  intros Hd Hc. apply list_eq. intros i.
  assert (length <$> g !! i = length <$> h !! i) as Hi.
  { unfold dims in Hd. by rewrite <- !list_lookup_fmap, Hd. }
  destruct (g !! i) as [lg|] eqn:Hg, (h !! i) as [lh|] eqn:Hh; simpl in Hi; try done.
  f_equal. injection Hi as Hlen. apply list_eq. intros j.
  destruct (decide (j < length lg)%nat) as [Hlt|Hge].
  - specialize (Hc (i, j)). unfold cell, valid, dims in Hc. simpl in Hc.
    rewrite list_lookup_fmap, Hg, Hh in Hc. simpl in Hc.
    destruct (lookup_lt_is_Some_2 lg j Hlt) as [x Hx].
    destruct (lookup_lt_is_Some_2 lh j ltac:(lia)) as [y Hy].
    rewrite Hx, Hy in *. simpl in Hc. f_equal. apply Hc. by exists (length lg).
  - rewrite !lookup_ge_None_2; [done | lia..].
Qed.

(** Rectangular arrays. *)
Lemma rect_dims (g : grid) :
  rect g → dims g = replicate (length g) (length (hd [] g)).
Proof.
  unfold rect, dims. generalize (length (hd [] g)). intros n H.
  induction H as [|line g Hl _ IH]; csimpl; [done|]. by rewrite Hl, IH.
Qed.

Lemma dims_rect (g : grid) (R C : nat) : dims g = replicate R C → rect g.
Proof.
  intros Hd. unfold rect.
  assert (length g = R) as HR.
  { apply (f_equal length) in Hd. unfold dims in Hd.
    by rewrite length_fmap, length_replicate in Hd. }
  apply Forall_lookup. intros i line Hline.
  assert (∀ k l, g !! k = Some l → length l = C) as Hall.
  { intros k l Hk. apply (f_equal (λ ds, ds !! k)) in Hd. unfold dims in Hd.
    rewrite list_lookup_fmap, Hk in Hd. simpl in Hd.
    symmetry in Hd. apply lookup_replicate in Hd as [Hd _]. congruence. }
  rewrite (Hall i line Hline). destruct g as [|l0 g']; [done|]. simpl.
  symmetry. by apply (Hall 0%nat l0).
Qed.

Lemma shape_dims (g : grid) (R C : nat) :
  dims g = replicate R C → (0 < R)%nat → shape g = (Z.of_nat R, Z.of_nat C).
Proof.
  intros Hd HR. unfold shape. destruct g as [|l0 g']; simpl in *.
  - destruct R; [lia | done].
  - destruct R as [|R']; [done|]. simpl in Hd. injection Hd as -> Hd.
    do 2 f_equal. apply (f_equal length) in Hd.
    unfold dims in Hd. rewrite length_fmap, length_replicate in Hd. lia.
Qed.

Lemma locate_replicate (R C : nat) (r c : Z) :
  0 ≤ r < Z.of_nat R → 0 ≤ c < Z.of_nat C →
  locate (replicate R C) r c = Some (at_ r c).
Proof.
  intros Hr Hc. apply (locate_at _ _ _ C); [lia | | done].
  apply lookup_replicate. split; [done | lia].
Qed.

Lemma valid_replicate (R C : nat) (p : nat * nat) :
  valid (replicate R C) p ↔ (p.1 < R)%nat ∧ (p.2 < C)%nat.
Proof.
  unfold valid. split.
  - intros (n & Hn & Hlt). apply lookup_replicate in Hn as [-> ?]. done.
  - intros [H1 H2]. exists C. split; [|done]. by apply lookup_replicate.
Qed.

(** ** Scans over the pixels of an array *)

Lemma elem_of_pixels (rows columns : Z) (p : Z * Z) :
  p ∈ pixels rows columns ↔ 0 ≤ p.1 < rows ∧ 0 ≤ p.2 < columns.
Proof. unfold pixels. rewrite elem_of_pairs, !elem_of_range. lia. Qed.

Lemma at_inj (r c r' c' : Z) :
  0 ≤ r → 0 ≤ c → 0 ≤ r' → 0 ≤ c' → at_ r c = at_ r' c' → r = r' ∧ c = c'.
Proof. unfold at_. intros ???? [= H1 H2]. lia. Qed.

Lemma NoDup_range (a b : Z) : NoDup (range a b).
Proof. apply NoDup_seqZ. Qed.

Lemma NoDup_pixels (rows columns : Z) :
  NoDup ((λ p, at_ p.1 p.2) <$> pixels rows columns).
Proof.
  apply NoDup_fmap_2_strong.
  - intros [r c] [r' c'] H H' Heq. apply elem_of_pixels in H, H'. simpl in *.
    apply at_inj in Heq as [-> ->]; [done | lia..].
  - unfold pixels, pairs. apply NoDup_bind; [| |apply NoDup_range].
    + intros x1 x2 [a b] _ _ H1 H2.
      apply list_elem_of_fmap in H1 as (y1 & [= -> ->] & _).
      apply list_elem_of_fmap in H2 as (y2 & [= -> _] & _). done.
    + intros x _. apply NoDup_fmap_2; [|apply NoDup_range].
      intros y1 y2 [=]. done.
Qed.

(** A loop in which iteration [x] writes only the cell [key x]: afterwards
    every cell was written by its own iteration and by no other. *)
Lemma for_each_pointwise {A : Type} (key : A → nat * nat)
    (P : A → Q → Q → Prop) (ds : list nat) (xs : list A) (body : A → grid → res grid) :
  NoDup (key <$> xs) →
  (∀ x g g', x ∈ xs → dims g = ds → body x g = Ok g' →
     dims g' = ds ∧ (∀ q, q ≠ key x → cell g' q = cell g q)
     ∧ P x (cell g (key x)) (cell g' (key x))) →
  ∀ g g', dims g = ds → for_each xs body g = Ok g' →
    dims g' = ds ∧ (∀ q, q ∉ key <$> xs → cell g' q = cell g q)
    ∧ (∀ x, x ∈ xs → P x (cell g (key x)) (cell g' (key x))).
Proof.
  induction xs as [|x xs IH]; intros Hnd Hbody g g' Hd Hrun; simpl in Hrun.
  - res_inv. split_and!; [done.. |]. intros x Hx. by apply elem_of_nil in Hx.
  - res_inv. rename a into g1. rewrite fmap_cons in Hnd. apply NoDup_cons in Hnd as [Hx Hnd].
    destruct (Hbody x g g1) as (Hd1 & Hframe1 & HP1); [apply list_elem_of_here | done.. |].
    destruct (IH Hnd) with (g := g1) (g' := g') as (Hd' & Hframe & HP); [|done..|].
    { intros y h h' Hy. apply Hbody. by apply list_elem_of_further. }
    split_and!; [done | |].
    + intros q Hq. rewrite fmap_cons in Hq. apply not_elem_of_cons in Hq as [Hq1 Hq2].
      by rewrite Hframe, Hframe1.
    + intros y [->|Hy]%elem_of_cons.
      * rewrite (Hframe (key x) Hx). exact HP1.
      * rewrite <- (Hframe1 (key y)); [by apply HP|].
        intros Heq. apply Hx. rewrite <- Heq. by apply list_elem_of_fmap_2.
Qed.

Lemma scan_pointwise (P : Z → Z → Q → Q → Prop) (ds : list nat) (rows columns : Z)
    (body : Z → Z → grid → res grid) :
  (∀ row col g g', 0 ≤ row < rows → 0 ≤ col < columns → dims g = ds →
     body row col g = Ok g' →
     dims g' = ds ∧ (∀ q, q ≠ at_ row col → cell g' q = cell g q)
     ∧ P row col (cell g (at_ row col)) (cell g' (at_ row col))) →
  ∀ g g', dims g = ds →
    for_each (range 0 rows) (λ row, for_each (range 0 columns) (body row)) g = Ok g' →
    dims g' = ds
    ∧ (∀ row col, 0 ≤ row < rows → 0 ≤ col < columns →
         P row col (cell g (at_ row col)) (cell g' (at_ row col)))
    ∧ (∀ q, (∀ row col, 0 ≤ row < rows → 0 ≤ col < columns → q ≠ at_ row col) →
         cell g' q = cell g q).
Proof.
  intros Hbody g g' Hd Hrun. rewrite for_each_nested in Hrun.
  assert (∀ p h h', p ∈ pixels rows columns → dims h = ds →
            body p.1 p.2 h = Ok h' →
            dims h' = ds ∧ (∀ q, q ≠ at_ p.1 p.2 → cell h' q = cell h q)
            ∧ P p.1 p.2 (cell h (at_ p.1 p.2)) (cell h' (at_ p.1 p.2))) as Hbody'.
  { intros [r c] h h' Hin. apply elem_of_pixels in Hin. simpl in *.
    apply Hbody; lia. }
  destruct (for_each_pointwise (λ p, at_ p.1 p.2) (λ p, P p.1 p.2) ds
              (pixels rows columns) (λ p, body p.1 p.2)
              (NoDup_pixels rows columns) Hbody' g g' Hd Hrun)
    as (Hd' & Hframe & HP).
  split_and!; [done | |].
  - intros row col Hr Hc. apply (HP (row, col)). apply elem_of_pixels. simpl. lia.
  - intros q Hq. apply Hframe. intros ([r c] & -> & Hin)%list_elem_of_fmap.
    apply elem_of_pixels in Hin. simpl in *. apply (Hq r c); [lia | lia | done].
Qed.

Lemma scan_total (ds : list nat) (rows columns : Z) (body : Z → Z → grid → res grid) :
  (∀ row col g, 0 ≤ row < rows → 0 ≤ col < columns → dims g = ds →
     ∃ g', body row col g = Ok g' ∧ dims g' = ds) →
  ∀ g, dims g = ds →
    ∃ g', for_each (range 0 rows) (λ row, for_each (range 0 columns) (body row)) g = Ok g'
          ∧ dims g' = ds.
Proof.
  intros Hbody g Hd.
  apply (for_each_total (λ g, dims g = ds)); [|done].
  intros row h Hrow Hh. apply elem_of_range in Hrow.
  apply (for_each_total (λ g, dims g = ds)); [|done].
  intros col k Hcol Hk. apply elem_of_range in Hcol. by apply Hbody.
Qed.

(** ** Reads and writes at coordinates inside a rectangular array *)

Lemma get2_at (g : grid) (R C : nat) (r c : Z) :
  dims g = replicate R C → 0 ≤ r < Z.of_nat R → 0 ≤ c < Z.of_nat C →
  get2 g r c = Ok (cell g (at_ r c)).
Proof. intros Hd Hr Hc. by rewrite get2_locate, Hd, locate_replicate. Qed.

Lemma set2_at (g : grid) (R C : nat) (r c : Z) (v : Q) :
  dims g = replicate R C → 0 ≤ r < Z.of_nat R → 0 ≤ c < Z.of_nat C →
  set2 g r c v = Ok (upd g (at_ r c) v).
Proof. intros Hd Hr Hc. by rewrite set2_locate, Hd, locate_replicate. Qed.

Lemma valid_at (R C : nat) (r c : Z) :
  0 ≤ r < Z.of_nat R → 0 ≤ c < Z.of_nat C → valid (replicate R C) (at_ r c).
Proof. intros Hr Hc. apply valid_replicate. unfold at_. simpl. lia. Qed.

Lemma valid_is_at (R C : nat) (p : nat * nat) :
  valid (replicate R C) p →
  ∃ r c, p = at_ r c ∧ 0 ≤ r < Z.of_nat R ∧ 0 ≤ c < Z.of_nat C.
Proof.
  intros [H1 H2]%valid_replicate. exists (Z.of_nat p.1), (Z.of_nat p.2).
  split; [|lia]. unfold at_. rewrite !Nat2Z.id. by destruct p.
Qed.

(** A successful read returns the value of some valid cell. *)
Lemma get2_Ok (g : grid) (r c : Z) (v : Q) :
  get2 g r c = Ok v ↔ ∃ p, locate (dims g) r c = Some p ∧ cell g p = v.
Proof.
  rewrite get2_locate. destruct (locate (dims g) r c) as [p|]; split.
  - intros [= <-]. by exists p.
  - by intros (q & [= <-] & <-).
  - done.
  - by intros (q & [=] & _).
Qed.

(** A scan that writes [f row col] into every pixel. *)
Lemma scan_fill (f : Z → Z → Q) (R C : nat) (body : Z → Z → grid → res grid) :
  (∀ row col g, 0 ≤ row < Z.of_nat R → 0 ≤ col < Z.of_nat C →
     dims g = replicate R C → body row col g = Ok (upd g (at_ row col) (f row col))) →
  ∀ g, dims g = replicate R C →
    ∃ g', for_each (range 0 (Z.of_nat R))
            (λ row, for_each (range 0 (Z.of_nat C)) (body row)) g = Ok g'
          ∧ dims g' = replicate R C
          ∧ ∀ row col, 0 ≤ row < Z.of_nat R → 0 ≤ col < Z.of_nat C →
              cell g' (at_ row col) = f row col.
Proof.
  intros Hbody g Hd.
  destruct (scan_total (replicate R C) (Z.of_nat R) (Z.of_nat C) body) with (g := g)
    as (g' & Hrun & Hd'); [|done|].
  { intros row col h Hr Hc Hh. rewrite Hbody by done. eexists. split; [done|].
    by rewrite dims_upd. }
  exists g'. split_and!; [done..|].
  destruct (scan_pointwise (λ row col _ new, new = f row col) (replicate R C)
              (Z.of_nat R) (Z.of_nat C) body) with (g := g) (g' := g')
    as (_ & HP & _); [|done..].
  intros row col h h' Hr Hc Hh. rewrite Hbody by done. intros [= <-].
  split_and!.
  - by rewrite dims_upd.
  - intros q Hq. by apply cell_upd_ne.
  - apply cell_upd_eq. rewrite Hh. by apply valid_at.
Qed.

Lemma Qltb_lt (x y : Q) : Qltb x y = true ↔ (x < y)%Q.
Proof.
  unfold Qltb. rewrite negb_true_iff, <- not_true_iff_false, Qle_bool_iff.
  split; [apply Qnot_le_lt | apply Qlt_not_le].
Qed.

Lemma Qltb_ge (x y : Q) : Qltb x y = false ↔ (y <= x)%Q.
Proof. unfold Qltb. rewrite negb_false_iff. apply Qle_bool_iff. Qed.

(** ** The binary Laplacian image *)

Lemma getBLI_spec (img imgISEF : grid) :
  rect img → dims imgISEF = dims img →
  ∃ result, getBLI img imgISEF = Ok result
    ∧ dims result = dims img
    ∧ ∀ row col, 0 ≤ row < Z.of_nat (length img) →
        0 ≤ col < Z.of_nat (length (hd [] img)) →
        cell result (at_ row col)
        = (if Qltb 0 (cell imgISEF (at_ row col) - cell img (at_ row col))
           then 1 else 0)%Q.
Proof.
  intros Hrect%rect_dims Hd. rewrite Hrect in Hd. unfold getBLI, shape.
  set (R := length img) in *. set (C := length (hd [] img)) in *.
  rewrite Hrect.
  apply (scan_fill (λ row col,
    if Qltb 0 (cell imgISEF (at_ row col) - cell img (at_ row col)) then 1 else 0)%Q).
  - intros row col g Hr Hc Hg.
    rewrite (get2_at imgISEF R C), (get2_at img R C) by done. simpl.
    by rewrite (set2_at g R C).
  - by rewrite dims_zeros_like.
Qed.

(** C5.  For an intensity grid and a smoothed grid of the same shape,
    [getBLI] returns a grid of that shape; the cell at every in-range
    [(row, col)] is 1 when [imgISEF[row][col] - img[row][col] > 0] and 0
    otherwise; and whatever index pair is read back from the result, the
    value is exactly 0 or exactly 1. *)
Theorem getBLI_binary (img imgISEF : grid) :
  rect img → dims imgISEF = dims img →
  ∃ result, getBLI img imgISEF = Ok result
    ∧ dims result = dims img
    ∧ (∀ row col, 0 ≤ row < (shape img).1 → 0 ≤ col < (shape img).2 →
         ∃ a b, get2 imgISEF row col = Ok a ∧ get2 img row col = Ok b
           ∧ ((0 < a - b)%Q → get2 result row col = Ok 1%Q)
           ∧ (¬ (0 < a - b)%Q → get2 result row col = Ok 0%Q))
    ∧ (∀ r c v, get2 result r c = Ok v → v = 0%Q ∨ v = 1%Q).
Proof.
  intros Hrect Hd.
  destruct (getBLI_spec img imgISEF Hrect Hd) as (result & Hrun & Hdr & Hcell).
  exists result. split_and!; [done..| |].
  - simpl. intros row col Hr Hc.
    pose proof (rect_dims img Hrect) as Hdi.
    exists (cell imgISEF (at_ row col)), (cell img (at_ row col)).
    set (R := length img) in *. set (C := length (hd [] img)) in *.
    rewrite (get2_at imgISEF R C row col), (get2_at img R C row col),
      (get2_at result R C row col), Hcell by (done || congruence).
    split_and!; [done..| |].
    + intros Hlt%Qltb_lt. by rewrite Hlt.
    + intros Hlt. destruct (Qltb 0 _) eqn:E; [|done]. by apply Qltb_lt in E.
  - intros r c v (p & Hp & <-)%get2_Ok.
    apply locate_valid in Hp. rewrite Hdr, (rect_dims img Hrect) in Hp.
    apply valid_is_at in Hp as (row & col & -> & Hr & Hc).
    rewrite Hcell by done. destruct (Qltb 0 _); auto.
Qed.

Lemma getBLI_binary_witness :
  ∃ result, getBLI [[1; 5]; [3; 2]]%Q [[2; 4]; [3; 7]]%Q = Ok result
    ∧ result = [[1; 0]; [0; 1]]%Q.
Proof.
  destruct (getBLI_binary [[1; 5]; [3; 2]]%Q [[2; 4]; [3; 7]]%Q)
    as (result & Hrun & _); [by repeat constructor | done |].
  exists result. split; [done|]. vm_compute in Hrun. by injection Hrun.
Defined.

(** ** The adaptive gradient *)

Lemma value_Ok (g : grid) (r c : Z) (v : Q) : get2 g r c = Ok v → value g r c = v.
Proof. unfold value. by intros ->. Qed.

Lemma is_Ok_Ok {A : Type} (a : A) : is_Ok (Ok a).
Proof. by exists a. Qed.

Section Gradient.
Context (cfg : Config) (imgBLI imgISEF : grid).

Lemma accumulate_window (row col : Z) :
  accumulate cfg imgBLI imgISEF row col
  = for_each (window cfg row col) (accumulate_step imgBLI imgISEF) (Sums 0 0 0 0).
Proof.
  unfold accumulate, window. rewrite for_each_nested, for_each_fmap. done.
Qed.

(** What the accumulators hold after a successful pass over [l]. *)
Lemma accumulate_steps (l : list (Z * Z)) (acc0 acc : sums) :
  for_each l (accumulate_step imgBLI imgISEF) acc0 = Ok acc →
  sum_on acc = foldl Qplus (sum_on acc0)
                 ((λ p, value imgISEF p.1 p.2) <$> filter (λ p, is_on imgBLI p) l)
  ∧ num_on acc = num_on acc0 + Z.of_nat (length (filter (λ p, is_on imgBLI p) l))
  ∧ sum_off acc = foldl Qplus (sum_off acc0)
                 ((λ p, value imgISEF p.1 p.2) <$> filter (λ p, negb (is_on imgBLI p)) l)
  ∧ num_off acc = num_off acc0 + Z.of_nat (length (filter (λ p, negb (is_on imgBLI p)) l)).
Proof.
  revert acc0. induction l as [|p l IH]; intros acc0 Hrun; simpl in Hrun.
  - res_inv. simpl. split_and!; (done || lia).
  - apply bind_Ok in Hrun as (acc1 & Hstep & Hrun).
    unfold accumulate_step in Hstep.
    apply bind_Ok in Hstep as (b & Hb & Hstep).
    apply bind_Ok in Hstep as (x & Hx & Hstep).
    apply IH in Hrun as (H1 & H2 & H3 & H4).
    assert (is_on imgBLI p = Qltb 0 b) as Hon.
    { unfold is_on. by rewrite (value_Ok _ _ _ _ Hb). }
    rewrite !filter_cons, Hon.
    destruct (Qltb 0 b); injection Hstep as <-; simpl in *;
      rewrite ?(value_Ok _ _ _ _ Hx); split_and!; (done || lia).
Qed.

Lemma accumulate_total (l : list (Z * Z)) (acc0 : sums) :
  (∀ p, p ∈ l → is_Ok (get2 imgBLI p.1 p.2) ∧ is_Ok (get2 imgISEF p.1 p.2)) →
  is_Ok (for_each l (accumulate_step imgBLI imgISEF) acc0).
Proof.
  intros Hl.
  destruct (for_each_total (λ _, True) l (accumulate_step imgBLI imgISEF))
    with (s := acc0) as (acc & Hrun & _); [|done|by exists acc].
  intros p acc Hp _. destruct (Hl p Hp) as [[b Hb] [x Hx]].
  unfold accumulate_step. rewrite Hb, Hx. simpl.
  destruct (Qltb 0 b); eexists; done.
Qed.

(** A side with no samples has sum 0, so a positive sum has a sample. *)
Lemma positive_sum_counted (row col : Z) (acc : sums) :
  accumulate cfg imgBLI imgISEF row col = Ok acc →
  ((0 < sum_off acc)%Q → 1 ≤ num_off acc) ∧ ((0 < sum_on acc)%Q → 1 ≤ num_on acc).
Proof.
  rewrite accumulate_window. intros (H1 & H2 & H3 & H4)%accumulate_steps.
  simpl in *. split.
  - intros Hpos. destruct (filter (λ p, negb (is_on imgBLI p)) _); simpl in *; [|lia].
    rewrite H3 in Hpos. by apply Qlt_irrefl in Hpos.
  - intros Hpos. destruct (filter (λ p, is_on imgBLI p) _); simpl in *; [|lia].
    rewrite H1 in Hpos. by apply Qlt_irrefl in Hpos.
Qed.

Lemma checked_div_count (x : Q) (n : Z) :
  1 ≤ n → checked_div x (inject_Z n) = Ok (x / inject_Z n)%Q.
Proof.
  intros Hn. unfold checked_div.
  destruct (Qeq_bool (inject_Z n) 0) eqn:E; [|done].
  apply Qeq_bool_iff in E. unfold Qeq in E. simpl in E. lia.
Qed.

(** The guarded averages never divide by zero. *)
Lemma adaptiveGradient_accumulated (row col : Z) (acc : sums) :
  accumulate cfg imgBLI imgISEF row col = Ok acc →
  adaptiveGradient cfg imgBLI imgISEF row col
  = Ok ((if Qltb 0 (sum_off acc) then sum_off acc / inject_Z (num_off acc) else 0)
        - (if Qltb 0 (sum_on acc) then sum_on acc / inject_Z (num_on acc) else 0))%Q.
Proof.
  intros Hacc. unfold adaptiveGradient. rewrite Hacc. simpl.
  destruct (positive_sum_counted row col acc Hacc) as [Hoff Hon].
  destruct (Qltb 0 (sum_off acc)) eqn:Eoff.
  - rewrite (checked_div_count (sum_off acc)) by (by apply Hoff, Qltb_lt). simpl.
    destruct (Qltb 0 (sum_on acc)) eqn:Eon; [|done].
    by rewrite (checked_div_count (sum_on acc)) by (by apply Hon, Qltb_lt).
  - simpl. destruct (Qltb 0 (sum_on acc)) eqn:Eon; [|done].
    by rewrite (checked_div_count (sum_on acc)) by (by apply Hon, Qltb_lt).
Qed.

Lemma adaptiveGradient_spec (row col : Z) (v : Q) :
  adaptiveGradient cfg imgBLI imgISEF row col = Ok v →
  v = gradient_spec cfg imgBLI imgISEF row col.
Proof.
  intros Hrun. pose proof Hrun as Hrun'. unfold adaptiveGradient in Hrun'.
  apply bind_Ok in Hrun' as (acc & Hacc & _).
  rewrite (adaptiveGradient_accumulated row col acc Hacc) in Hrun.
  injection Hrun as <-.
  rewrite accumulate_window in Hacc.
  apply accumulate_steps in Hacc as (H1 & H2 & H3 & H4). simpl in *.
  unfold gradient_spec, side_avg, side_sum. by rewrite H1, H2, H3, H4.
Qed.
End Gradient.

(** C10.  In [adaptiveGradient], a strictly positive sum implies that the
    corresponding counter is at least 1, each division is evaluated only
    under the guard [sum > 0.0], hence with a non-zero divisor: the call
    never raises [ZeroDivisionError], and it returns whenever every pixel
    of the window can be read in both arrays. *)
Theorem adaptiveGradient_never_divides_by_zero
    (cfg : Config) (imgBLI imgISEF : grid) (row col : Z) :
  (∀ acc, accumulate cfg imgBLI imgISEF row col = Ok acc →
     ((0 < sum_off acc)%Q → 1 ≤ num_off acc)
     ∧ ((0 < sum_on acc)%Q → 1 ≤ num_on acc)
     ∧ adaptiveGradient cfg imgBLI imgISEF row col
       = Ok ((if Qltb 0 (sum_off acc) then sum_off acc / inject_Z (num_off acc) else 0)
             - (if Qltb 0 (sum_on acc) then sum_on acc / inject_Z (num_on acc) else 0))%Q)
  ∧ adaptiveGradient cfg imgBLI imgISEF row col ≠ Raise ZeroDivisionError
  ∧ ((∀ p, p ∈ window cfg row col →
        is_Ok (get2 imgBLI p.1 p.2) ∧ is_Ok (get2 imgISEF p.1 p.2)) →
     is_Ok (adaptiveGradient cfg imgBLI imgISEF row col)).
Proof.
  split_and!.
  - intros acc Hacc. destruct (positive_sum_counted cfg _ _ _ _ _ Hacc).
    split_and!; [done..|]. by apply adaptiveGradient_accumulated.
  - destruct (accumulate cfg imgBLI imgISEF row col) as [acc|e] eqn:Hacc.
    + by rewrite (adaptiveGradient_accumulated cfg _ _ _ _ acc Hacc).
    + unfold adaptiveGradient. rewrite Hacc. simpl. intros [= ->].
      rewrite accumulate_window in Hacc. revert Hacc.
      apply (for_each_never _ (λ _, True)); [|done..].
      intros p acc _ _. unfold accumulate_step.
      destruct (get2 imgBLI p.1 p.2) as [b|e] eqn:Hb; simpl.
      * destruct (get2 imgISEF p.1 p.2) as [x|e] eqn:Hx; simpl.
        -- by destruct (Qltb 0 b).
        -- rewrite get2_locate in Hx. by destruct (locate _ _ _); simplify_eq.
      * rewrite get2_locate in Hb. by destruct (locate _ _ _); simplify_eq.
  - intros Hwin.
    destruct (accumulate_total imgBLI imgISEF (window cfg row col) (Sums 0 0 0 0) Hwin)
      as [acc Hacc].
    rewrite <- accumulate_window in Hacc.
    rewrite (adaptiveGradient_accumulated cfg _ _ _ _ acc Hacc). apply is_Ok_Ok.
Qed.

(** ** The zero-crossing locator *)

Lemma get2_Raise (g : grid) (r c : Z) (e : exn) : get2 g r c = Raise e → e = IndexError.
Proof. rewrite get2_locate. destruct (locate _ _ _); by intros [=]. Qed.

(** Case analysis on every read and every equality test of the goal. *)
Ltac split_reads :=
  repeat first
    [ progress simpl
    | match goal with
      | |- Raise _ = Ok _ → _ => by intros [=]
      | |- Ok _ = Ok _ → _ => intros [= <-]
      | |- mret _ = Ok _ → _ => intros [= <-]
      | |- context [get2 ?g ?r ?c] => destruct (get2 g r c) eqn:?
      | |- context [Qeq_bool ?a ?b] => destruct (Qeq_bool a b) eqn:?
      end ].

Lemma isEdgeCandidate_spec (imgBLI imgISEF : grid) (row col : Z) (b : bool) :
  isEdgeCandidate imgBLI imgISEF row col = Ok b →
  b = candidate_spec imgBLI imgISEF row col.
Proof.
  unfold isEdgeCandidate, candidate_spec, patterns, fires, sign_test, value.
  simpl. rewrite ?Z.add_0_r. change (row + -1) with (row - 1).
  change (col + -1) with (col - 1).
  split_reads; done.
Qed.

Section Locator.
Context (cfg : Config).

Lemma locateZc_spec (imgISEF imgBLI result : grid) :
  rect imgISEF →
  locateZc cfg imgISEF imgBLI = Ok result →
  dims result = dims imgISEF
  ∧ ∀ row col, 0 ≤ row < Z.of_nat (length imgISEF) →
      0 ≤ col < Z.of_nat (length (hd [] imgISEF)) →
      cell result (at_ row col) = strength_spec cfg imgISEF imgBLI row col.
Proof.
  intros Hrect%rect_dims. unfold locateZc, strength_spec, shape.
  set (R := length imgISEF) in *. set (C := length (hd [] imgISEF)) in *.
  intros Hrun.
  eapply (scan_pointwise
    (λ row col old new, old = 0%Q →
       new = if isEdge cfg row col (Z.of_nat R) (Z.of_nat C) then 0%Q
             else if candidate_spec imgBLI imgISEF row col
                  then gradient_spec cfg imgBLI imgISEF row col else 0%Q)
    (replicate R C)) in Hrun as (Hd & HP & _).
  - split; [congruence|]. intros row col Hr Hc. apply HP; [done..|].
    apply cell_zeros_like.
  - intros row col g g' Hr Hc Hg Hbody. simpl in Hbody.
    destruct (isEdge cfg row col (Z.of_nat R) (Z.of_nat C)).
    { injection Hbody as <-. done. }
    apply bind_Ok in Hbody as (cand & Hcand & Hbody).
    apply bind_Ok in Hbody as (v & Hv & Hbody).
    rewrite (set2_at g R C) in Hbody by done. injection Hbody as <-.
    split_and!.
    + by rewrite dims_upd.
    + intros q Hq. by apply cell_upd_ne.
    + intros _. rewrite cell_upd_eq by (rewrite Hg; by apply valid_at).
      rewrite <- (isEdgeCandidate_spec _ _ _ _ _ Hcand).
      destruct cand; [|by injection Hv].
      by apply adaptiveGradient_spec.
  - by rewrite dims_zeros_like.
Qed.
End Locator.

(** ** The tracer: one call of [mark_connected] *)

Lemma visited_mark (cfg : Config) (v : Q) : Qeq_bool (initial_mark cfg v) 0 = false.
Proof. unfold initial_mark. by destruct (Qltb _ _). Qed.

Lemma visited_upd_eq (e : grid) (p : nat * nat) (v : Q) :
  valid (dims e) p → visited (upd e p v) p = negb (Qeq_bool v 0).
Proof. intros Hp. unfold visited. by rewrite cell_upd_eq. Qed.

Lemma bind_ext {A B : Type} (m : res A) (f g : A → res B) :
  (∀ a, f a = g a) → m ≫= f = m ≫= g.
Proof. intros H. destruct m; simpl; [apply H | done]. Qed.

Section Tracer.
Context (cfg : Config) (img : grid).

Lemma demote_nested (level nce : Z) (edges : grid) (row col : Z) :
  (if bool_decide (nce ≠ 0) && bool_decide (0 < level) then
     if bool_decide (0 < thinFactor cfg) then
       if bool_decide (level `mod` thinFactor cfg ≠ 0)
       then set2 edges row col 255%Q
       else mret edges
     else mret edges
   else mret edges)
  = if demote cfg level nce then set2 edges row col 255%Q else mret edges.
Proof. unfold demote. by repeat case_bool_decide. Qed.

Lemma mark_connected_S (d : nat) (row col level : Z) (edges : grid) :
  mark_connected cfg (S d) row col level img edges
  = e ← get2 edges row col;
    if negb (Qeq_bool e 0) then mret (edges, 0) else
    v ← get2 img row col;
    if Qeq_bool v 0 then mret (edges, 0) else
    edges1 ← set2 edges row col (initial_mark cfg v);
    st ← for_each neighbours (neighbour_step cfg d row col level img) (edges1, 0);
    edges' ← (if demote cfg level st.2 then set2 st.1 row col 255%Q else mret st.1);
    mret (edges', 1).
Proof.
  cbn [mark_connected].
  apply bind_ext. intros e. destruct (negb (Qeq_bool e 0)); [done|].
  apply bind_ext. intros v. destruct (Qeq_bool v 0); [done|].
  fold (initial_mark cfg v). apply bind_ext. intros edges1.
  rewrite (for_each_ext neighbours _ (neighbour_step cfg d row col level img));
    [|intros [dr dc] [t n] _; reflexivity].
  apply bind_ext. intros [eN nce]. by rewrite demote_nested.
Qed.

(** The two ways a call can return. *)
Lemma mark_connected_cases (d : nat) (row col level : Z) (e e' : grid) (r : Z) :
  dims e = dims img →
  mark_connected cfg (S d) row col level img e = Ok (e', r) →
  ∃ p, locate (dims e) row col = Some p
    ∧ ((r = 0 ∧ e' = e ∧ (visited e p = true ∨ nonzero img p = false))
       ∨ (r = 1 ∧ visited e p = false ∧ nonzero img p = true
          ∧ ∃ eN nce,
              for_each neighbours (neighbour_step cfg d row col level img)
                (upd e p (initial_mark cfg (cell img p)), 0) = Ok (eN, nce)
              ∧ (if demote cfg level nce then set2 eN row col 255%Q else Ok eN)
                = Ok e')).
Proof.
  intros Hd. rewrite mark_connected_S, !get2_locate, <- Hd.
  destruct (locate (dims e) row col) as [p|] eqn:Hp; simpl; [|done].
  intros Hrun. exists p. split; [done|]. unfold visited, nonzero.
  destruct (Qeq_bool (cell e p) 0); simpl in *.
  2: { injection Hrun as <- <-. left. auto. }
  destruct (Qeq_bool (cell img p) 0); simpl in *.
  { injection Hrun as <- <-. left. auto. }
  rewrite set2_locate, Hp in Hrun. simpl in Hrun.
  apply bind_Ok in Hrun as ([eN nce] & Hloop & Hrun). simpl in Hrun.
  apply bind_Ok in Hrun as (e'' & Hthin & Hrun). injection Hrun as <- <-.
  right. split_and!; [done..|]. by exists eN, nce.
Qed.
End Tracer.

Section Grows.
Context (cfg : Config) (img : grid).

Lemma grows_refl (e : grid) : grows cfg img e e.
Proof. split; [done|]. intros q. by left. Qed.

Lemma marked_value_visited (q : nat * nat) (v : Q) :
  marked_value cfg img q v → Qeq_bool v 0 = false.
Proof. intros [->|[_ ->]]; [apply visited_mark | done]. Qed.

Lemma grows_trans (e1 e2 e3 : grid) :
  grows cfg img e1 e2 → grows cfg img e2 e3 → grows cfg img e1 e3.
Proof.
  intros [Hd12 H12] [Hd23 H23]. split; [congruence|]. intros q.
  destruct (H12 q) as [Heq12|(Hv1 & Hval & Hnz & Hm)],
           (H23 q) as [Heq23|(Hv2 & Hval2 & Hnz2 & Hm2)].
  - left. congruence.
  - right. unfold visited in *. rewrite Heq12 in Hv2. rewrite <- Hd12. done.
  - right. rewrite Heq23. done.
  - apply marked_value_visited in Hm. unfold visited in Hv2.
    rewrite Hm in Hv2. done.
Qed.

Lemma grows_visited (e e' : grid) (q : nat * nat) :
  grows cfg img e e' → visited e q = true → visited e' q = true ∧ cell e' q = cell e q.
Proof.
  intros [_ H] Hv. destruct (H q) as [Heq|(Hv' & _)]; [|congruence].
  unfold visited in *. by rewrite Heq.
Qed.

Lemma grows_dims (e e' : grid) : grows cfg img e e' → dims e' = dims e.
Proof. by intros [H _]. Qed.

(** Writing a mark into an unvisited cell of non-zero strength. *)
Lemma grows_upd (e e' : grid) (p : nat * nat) (v : Q) :
  grows cfg img e e' → visited e p = false → valid (dims e) p →
  nonzero img p = true → marked_value cfg img p v →
  grows cfg img e (upd e' p v).
Proof.
  intros [Hd H] Hv Hval Hnz Hm. split; [by rewrite dims_upd|]. intros q.
  destruct (decide (p = q)) as [<-|Hne].
  - right. rewrite cell_upd_eq by (by rewrite Hd). done.
  - rewrite cell_upd_ne by done. apply H.
Qed.
End Grows.

Section Traversal.
Context (cfg : Config) (img : grid).

Lemma neighbours_grow (d : nat) (row col level : Z) :
  (∀ row' col' level' e e' r, dims e = dims img →
     mark_connected cfg d row' col' level' img e = Ok (e', r) →
     call_ok cfg img row' col' e e' r) →
  ∀ ns e eN nce, dims e = dims img →
    for_each ns (neighbour_step cfg d row col level img) (e, 0) = Ok (eN, nce) →
    grows cfg img e eN ∧ (nce = 0 ∨ nce = 1) ∧ (nce = 0 → eN = e).
Proof.
  intros IH ns e eN nce Hd Hrun.
  apply (for_each_inv
    (λ st, grows cfg img e st.1 ∧ (st.2 = 0 ∨ st.2 = 1) ∧ (st.2 = 0 → st.1 = e)))
    in Hrun; [done| |by auto using grows_refl].
  intros dd [e1 n1] [e2 n2] _ (Hg & Hn & Hz) Hstep. simpl in *.
  unfold neighbour_step in Hstep. simpl in Hstep.
  apply bind_Ok in Hstep as ([e2' r] & Hcall & Hret). injection Hret as <- <-.
  apply IH in Hcall as [Hg2 Hr]; [|by rewrite (grows_dims _ _ _ _ Hg)].
  split_and!.
  - by apply (grows_trans _ _ _ e1).
  - destruct Hn as [->| ->], Hr as [[-> _]|[-> _]]; auto.
  - destruct Hn as [->| ->], Hr as [[-> ->]|[-> _]]; simpl; auto; done.
Qed.

Lemma mark_connected_grows (d : nat) (row col level : Z) (e e' : grid) (r : Z) :
  dims e = dims img →
  mark_connected cfg d row col level img e = Ok (e', r) →
  call_ok cfg img row col e e' r.
Proof.
  revert row col level e e' r.
  induction d as [|d IH]; intros row col level e e' r Hd Hrun; [done|].
  apply mark_connected_cases in Hrun
    as (p & Hp & [(-> & -> & _)|(-> & Hv & Hnz & eN & nce & Hloop & Hthin)]); [| |done].
  { split; [apply grows_refl | by left]. }
  pose proof (locate_valid _ _ _ _ Hp) as Hval.
  set (e1 := upd e p (initial_mark cfg (cell img p))) in *.
  assert (grows cfg img e e1) as Hg1.
  { apply grows_upd; [apply grows_refl | done.. |]. by left. }
  apply (neighbours_grow d row col level IH) in Hloop as (HgN & _ & _);
    [|by rewrite (grows_dims _ _ _ _ Hg1)].
  assert (visited e1 p = true) as Hv1.
  { unfold e1. rewrite visited_upd_eq by done. by rewrite visited_mark. }
  destruct (grows_visited _ _ _ _ _ HgN Hv1) as [HvN HcN].
  pose proof (grows_trans _ _ _ _ _ Hg1 HgN) as Hg.
  split.
  - destruct (demote cfg level nce) eqn:Hdem.
    + rewrite set2_locate, (grows_dims _ _ _ _ Hg), Hp in Hthin.
      injection Hthin as <-. apply grows_upd; [done..|]. right. split; [|done].
      unfold demote in Hdem. repeat case_bool_decide; (done || lia).
    + by injection Hthin as <-.
  - right. split; [done|]. exists p. split_and!; [done..|].
    destruct (demote cfg level nce).
    + rewrite set2_locate, (grows_dims _ _ _ _ Hg), Hp in Hthin.
      injection Hthin as <-. rewrite visited_upd_eq; [done|].
      by rewrite (grows_dims _ _ _ _ Hg).
    + by injection Hthin as <-.
Qed.
End Traversal.

(** ** Shapes are preserved *)

Lemma set2_dims (g g' : grid) (r c : Z) (v : Q) :
  set2 g r c v = Ok g' → dims g' = dims g.
Proof.
  rewrite set2_locate. destruct (locate _ _ _); intros [= <-]. apply dims_upd.
Qed.

Lemma shape_of_dims (g h : grid) : dims g = dims h → shape g = shape h.
Proof.
  intros Hd. unfold shape.
  assert (length g = length h) as ->.
  { apply (f_equal length) in Hd. unfold dims in Hd.
    rewrite length_fmap in Hd. rewrite length_fmap in Hd. done. }
  f_equal. destruct g, h; try done. simpl in *. injection Hd as Hl _. by rewrite Hl.
Qed.

Lemma rect_of_dims (g h : grid) : dims g = dims h → rect h → rect g.
Proof.
  intros Hd Hh%rect_dims. rewrite <- Hd in Hh. by apply dims_rect in Hh.
Qed.

Lemma for_each_dims {A : Type} (xs : list A) (body : A → grid → res grid) :
  (∀ x g g', body x g = Ok g' → dims g' = dims g) →
  ∀ g g', for_each xs body g = Ok g' → dims g' = dims g.
Proof.
  intros Hbody g g' Hrun.
  apply (for_each_inv (λ h, dims h = dims g) xs body) with (s := g); [|done..].
  intros x h h' _ Hh Hb. rewrite <- Hh. by apply (Hbody x).
Qed.

(** Loop bodies that end in a write into the loop state. *)
Ltac dims_body :=
  let H := fresh "H" in
  intros ? ? ? H; res_inv; by apply set2_dims in H.

Lemma getISEF_dims (cfg : Config) (img result : grid) :
  getISEF cfg img = Ok result → dims result = dims img.
Proof.
  unfold getISEF. destruct (shape img) as [rows columns]. intros Hrun.
  apply bind_Ok in Hrun as (b1 & _ & Hrun).
  apply bind_Ok in Hrun as ([casual anti] & _ & Hrun).
  apply bind_Ok in Hrun as (casual1 & _ & Hrun).
  apply bind_Ok in Hrun as (anti1 & _ & Hrun).
  apply bind_Ok in Hrun as (fp1 & Hfp1 & Hrun).
  apply bind_Ok in Hrun as (fp2 & Hfp2 & Hrun).
  apply bind_Ok in Hrun as ([casual2 anti2] & _ & Hrun).
  apply bind_Ok in Hrun as (casual3 & _ & Hrun).
  apply bind_Ok in Hrun as (anti3 & _ & Hrun).
  apply bind_Ok in Hrun as (res1 & Hres1 & Hrun).
  apply for_each_dims in Hfp1; [|dims_body].
  apply for_each_dims in Hfp2; [|intros ?; apply for_each_dims; dims_body].
  apply for_each_dims in Hres1; [|dims_body].
  apply for_each_dims in Hrun; [|intros ?; apply for_each_dims; dims_body].
  rewrite Hrun, Hres1, Hfp2, Hfp1. apply dims_zeros_like.
Qed.

(** A scan that replaces every pixel by a function of its old value. *)
Lemma scan_map (f : Z → Z → Q → Q) (R C : nat) (body : Z → Z → grid → res grid) :
  (∀ row col g, 0 ≤ row < Z.of_nat R → 0 ≤ col < Z.of_nat C →
     dims g = replicate R C →
     ∃ g', body row col g = Ok g' ∧ dims g' = replicate R C
       ∧ (∀ q, q ≠ at_ row col → cell g' q = cell g q)
       ∧ cell g' (at_ row col) = f row col (cell g (at_ row col))) →
  ∀ g, dims g = replicate R C →
    ∃ g', for_each (range 0 (Z.of_nat R))
            (λ row, for_each (range 0 (Z.of_nat C)) (body row)) g = Ok g'
          ∧ dims g' = replicate R C
          ∧ ∀ row col, 0 ≤ row < Z.of_nat R → 0 ≤ col < Z.of_nat C →
              cell g' (at_ row col) = f row col (cell g (at_ row col)).
Proof.
  intros Hbody g Hd.
  destruct (scan_total (replicate R C) (Z.of_nat R) (Z.of_nat C) body) with (g := g)
    as (g' & Hrun & Hd'); [|done|].
  { intros row col h Hr Hc Hh.
    destruct (Hbody row col h Hr Hc Hh) as (h' & ? & ? & _). by exists h'. }
  exists g'. split_and!; [done..|].
  destruct (scan_pointwise (λ row col old new, new = f row col old) (replicate R C)
              (Z.of_nat R) (Z.of_nat C) body) with (g := g) (g' := g')
    as (_ & HP & _); [|done..].
  intros row col h h' Hr Hc Hh Hb.
  destruct (Hbody row col h Hr Hc Hh) as (h'' & Hb' & ? & ? & ?).
  rewrite Hb in Hb'. injection Hb' as <-. done.
Qed.

(** ** The loops of [threshold_edges] and [shenCastan] *)

Section Phases.
Context (cfg : Config).

Lemma threshold_edges_within_phases (depth : nat) (img : grid) :
  threshold_edges_within cfg depth img
  = edges ← trace_seeds cfg depth img (zeros_like img);
    clear_provisional img edges.
Proof.
  unfold threshold_edges_within, trace_seeds, clear_provisional.
  by destruct (shape img).
Qed.

Lemma shenCastan_phases (img : grid) :
  shenCastan cfg img
  = imgISEF ← getISEF cfg img;
    imgBLI ← getBLI img imgISEF;
    imgZC ← locateZc cfg imgISEF imgBLI;
    imgEdges ← threshold_edges cfg imgZC;
    normalise imgEdges.
Proof.
  unfold shenCastan, normalise. repeat (apply bind_ext; intros ?).
  by destruct (shape _).
Qed.

(** Tracing from the seeds only grows the set of marked cells. *)
Lemma trace_seeds_grows (depth : nat) (img e e' : grid) :
  dims e = dims img →
  trace_seeds cfg depth img e = Ok e' → grows cfg img e e'.
Proof.
  intros Hd. unfold trace_seeds. destruct (shape img) as [rows columns].
  intros Hrun.
  apply (for_each_inv (λ h, grows cfg img e h)) in Hrun;
    [done| |apply grows_refl].
  intros row h h' _ Hh Hrow.
  apply (for_each_inv (λ h, grows cfg img e h)) in Hrow; [done| |done].
  clear Hh Hrun. intros col k k' _ Hh Hbody.
  destruct (isEdge cfg row col rows columns); [by injection Hbody as <-|].
  apply bind_Ok in Hbody as (v & _ & Hbody).
  destruct (Qltb (high_thresh cfg) v); [|by injection Hbody as <-].
  apply bind_Ok in Hbody as ([k'' r] & Hcall & Hret). injection Hret as <-.
  apply mark_connected_grows in Hcall as [Hg _].
  - by apply (grows_trans _ _ _ k).
  - by rewrite (grows_dims _ _ _ _ Hh).
Qed.

Lemma clear_provisional_spec (img e : grid) :
  rect img → dims e = dims img →
  ∃ e', clear_provisional img e = Ok e' ∧ dims e' = dims img
    ∧ ∀ row col, 0 ≤ row < Z.of_nat (length img) →
        0 ≤ col < Z.of_nat (length (hd [] img)) →
        cell e' (at_ row col)
        = if Qeq_bool (cell e (at_ row col)) 255 then 0%Q else cell e (at_ row col).
Proof.
  intros Hrect%rect_dims Hd. unfold clear_provisional, shape.
  set (R := length img) in *. set (C := length (hd [] img)) in *.
  rewrite Hrect in *.
  apply (scan_map (λ _ _ v, if Qeq_bool v 255 then 0%Q else v)); [|done].
  intros row col g Hr Hc Hg. rewrite (get2_at g R C) by done. simpl.
  destruct (Qeq_bool (cell g (at_ row col)) 255).
  - rewrite (set2_at g R C) by done. eexists. split; [done|].
    split_and!; [by rewrite dims_upd| |].
    + intros q Hq. by apply cell_upd_ne.
    + apply cell_upd_eq. rewrite Hg. by apply valid_at.
  - by exists g.
Qed.

Lemma normalise_spec (e : grid) :
  rect e →
  ∃ e', normalise e = Ok e' ∧ dims e' = dims e
    ∧ ∀ row col, 0 ≤ row < Z.of_nat (length e) →
        0 ≤ col < Z.of_nat (length (hd [] e)) →
        cell e' (at_ row col)
        = (if Qltb 0 (cell e (at_ row col)) then 255 else 0)%Q.
Proof.
  intros Hrect%rect_dims. unfold normalise, shape.
  set (R := length e) in *. set (C := length (hd [] e)) in *.
  rewrite Hrect in *.
  apply (scan_map (λ _ _ v, if Qltb 0 v then 255 else 0)%Q); [|done].
  intros row col g Hr Hc Hg. rewrite (get2_at g R C) by done. simpl.
  rewrite (set2_at g R C) by done. eexists. split; [done|].
  split_and!; [by rewrite dims_upd| |].
  - intros q Hq. by apply cell_upd_ne.
  - apply cell_upd_eq. rewrite Hg. by apply valid_at.
Qed.
End Phases.

(** ** The border margin *)

(** C6.  Whenever [shenCastan] returns, its output has the shape of the
    input and every pixel of the border margin is 0 in it: the locator
    assigned it strength 0, the state left by all the traversals holds no
    mark there, clearing the provisional marks keeps it 0 and so does the
    normalisation.  (This holds for every [outline]; with [outline <= 0]
    the margin is empty.) *)
Theorem border_is_never_an_edge (cfg : Config) (img out : grid) :
  rect img →
  shenCastan cfg img = Ok out →
  dims out = dims img
  ∧ ∃ imgISEF imgBLI imgZC traced imgEdges,
      getISEF cfg img = Ok imgISEF
      ∧ getBLI img imgISEF = Ok imgBLI
      ∧ locateZc cfg imgISEF imgBLI = Ok imgZC
      ∧ trace_seeds cfg (depth_budget imgZC) imgZC (zeros_like imgZC) = Ok traced
      ∧ clear_provisional imgZC traced = Ok imgEdges
      ∧ normalise imgEdges = Ok out
      ∧ ∀ row col, 0 ≤ row < (shape img).1 → 0 ≤ col < (shape img).2 →
          isEdge cfg row col (shape img).1 (shape img).2 = true →
          get2 imgZC row col = Ok 0%Q ∧ get2 traced row col = Ok 0%Q
          ∧ get2 imgEdges row col = Ok 0%Q ∧ get2 out row col = Ok 0%Q.
Proof.
  intros Hrect. rewrite shenCastan_phases. intros Hrun.
  apply bind_Ok in Hrun as (imgISEF & HISEF & Hrun).
  apply bind_Ok in Hrun as (imgBLI & HBLI & Hrun).
  apply bind_Ok in Hrun as (imgZC & HZC & Hrun).
  apply bind_Ok in Hrun as (imgEdges & Hthr & Hnorm).
  unfold threshold_edges in Hthr. rewrite threshold_edges_within_phases in Hthr.
  apply bind_Ok in Hthr as (traced & Htrace & Hclear).
  pose proof (getISEF_dims _ _ _ HISEF) as HdI.
  pose proof (rect_of_dims _ _ HdI Hrect) as HrI.
  destruct (locateZc_spec cfg _ _ _ HrI HZC) as [HdZ HcellZ].
  assert (dims imgZC = dims img) as HdZ' by congruence.
  pose proof (rect_of_dims _ _ HdZ' Hrect) as HrZ.
  pose proof (trace_seeds_grows cfg _ _ _ _ (dims_zeros_like imgZC) Htrace) as Hg.
  pose proof (grows_dims _ _ _ _ Hg) as HdT. rewrite dims_zeros_like in HdT.
  destruct (clear_provisional_spec imgZC traced HrZ HdT) as (e' & He' & HdE & HcellE).
  rewrite Hclear in He'. injection He' as <-.
  assert (rect imgEdges) as HrE by (by apply (rect_of_dims _ imgZC)).
  destruct (normalise_spec imgEdges HrE) as (o' & Ho' & HdO & HcellO).
  rewrite Hnorm in Ho'. injection Ho' as <-.
  split; [congruence|].
  exists imgISEF, imgBLI, imgZC, traced, imgEdges. split_and!; [done..|].
  pose proof (rect_dims _ Hrect) as Hdi.
  pose proof (shape_of_dims _ _ HdI) as HsI.
  pose proof (shape_of_dims _ _ HdZ') as HsZ.
  pose proof (shape_of_dims imgEdges imgZC HdE) as HsE.
  unfold shape in *. simpl.
  set (R := length img) in *. set (C := length (hd [] img)) in *.
  injection HsI as HI1%Nat2Z.inj HI2%Nat2Z.inj.
  injection HsZ as HZ1%Nat2Z.inj HZ2%Nat2Z.inj.
  injection HsE as HE1%Nat2Z.inj HE2%Nat2Z.inj.
  rewrite HI1, HI2 in HcellZ. rewrite HZ1, HZ2 in HcellE.
  rewrite HE1, HZ1, HE2, HZ2 in HcellO.
  intros row col Hr Hc Hedge.
  assert (cell imgZC (at_ row col) = 0%Q) as HZ0.
  { rewrite HcellZ by done. unfold strength_spec, shape. rewrite HI1, HI2.
    fold R C. by rewrite Hedge. }
  assert (cell traced (at_ row col) = 0%Q) as HT0.
  { destruct Hg as [_ Hg]. destruct (Hg (at_ row col)) as [->|(_ & _ & Hnz & _)].
    - apply cell_zeros_like.
    - unfold nonzero in Hnz. by rewrite HZ0 in Hnz. }
  assert (cell imgEdges (at_ row col) = 0%Q) as HE0.
  { rewrite HcellE by done. by rewrite HT0. }
  rewrite (get2_at imgZC R C), (get2_at traced R C), (get2_at imgEdges R C),
    (get2_at out R C) by (done || congruence).
  rewrite HZ0, HT0, HE0, HcellO by done. by rewrite HE0.
Qed.

(** ** Termination of the traversal *)

Lemma filter_length_mono {A : Type} (P Q : A → Prop)
    `{∀ x, Decision (P x)} `{∀ x, Decision (Q x)} (l : list A) :
  (∀ x, x ∈ l → P x → Q x) →
  (length (filter P l) ≤ length (filter Q l))%nat.
Proof.
  induction l as [|x l IH]; intros HPQ; [done|].
  rewrite !filter_cons.
  assert (length (filter P l) ≤ length (filter Q l))%nat as IH'.
  { apply IH. intros y Hy. apply HPQ. by apply list_elem_of_further. }
  destruct (decide (P x)) as [HP|HP], (decide (Q x)) as [HQ|HQ]; simpl; try lia.
  destruct HQ. apply HPQ; [apply list_elem_of_here | done].
Qed.

Lemma filter_length_lt {A : Type} (P Q : A → Prop)
    `{∀ x, Decision (P x)} `{∀ x, Decision (Q x)} (l : list A) (a : A) :
  (∀ x, x ∈ l → P x → Q x) → a ∈ l → Q a → ¬ P a →
  (length (filter P l) < length (filter Q l))%nat.
Proof.
  induction l as [|x l IH]; intros HPQ Ha HQa HPa; [by apply elem_of_nil in Ha|].
  rewrite !filter_cons.
  assert (length (filter P l) ≤ length (filter Q l))%nat as Hle.
  { apply filter_length_mono. intros y Hy. apply HPQ. by apply list_elem_of_further. }
  apply elem_of_cons in Ha as [<-|Ha].
  - rewrite decide_False, decide_True by done. simpl. lia.
  - assert (length (filter P l) < length (filter Q l))%nat as IH'.
    { apply IH; [|done..]. intros y Hy. apply HPQ. by apply list_elem_of_further. }
    destruct (decide (P x)) as [HP|HP], (decide (Q x)) as [HQ|HQ]; simpl; try lia.
    destruct HQ. apply HPQ; [apply list_elem_of_here | done].
Qed.

(** Reduce the monad operations only, leaving loops folded. *)
Ltac mstep :=
  cbn [mbind res_bind negb fst snd]; unfold mret, res_ret; cbn [mbind res_bind].

Section Depth.
Context (cfg : Config) (img : grid).

Lemma unvisited_grows (e e' : grid) (l : list (nat * nat)) :
  grows cfg img e e' → (unvisited e' l ≤ unvisited e l)%nat.
Proof.
  intros Hg. apply filter_length_mono. intros q _ Hq.
  destruct (visited e q) eqn:Hv; [|done].
  apply (grows_visited _ _ _ _ _ Hg) in Hv as [Hv _]. by rewrite Hv in Hq.
Qed.

Lemma unvisited_mark (e e' : grid) (l : list (nat * nat)) (p : nat * nat) :
  grows cfg img e e' → p ∈ l → visited e p = false → visited e' p = true →
  (unvisited e' l < unvisited e l)%nat.
Proof.
  intros Hg Hp Hv Hv'. apply (filter_length_lt _ _ l p).
  - intros q _ Hq. destruct (visited e q) eqn:Hvq; [|done].
    apply (grows_visited _ _ _ _ _ Hg) in Hvq as [Hvq _]. by rewrite Hvq in Hq.
  - done.
  - rewrite Hv. exact I.
  - rewrite Hv'. simpl. tauto.
Qed.

Lemma unvisited_le (e : grid) (l : list (nat * nat)) : (unvisited e l ≤ length l)%nat.
Proof. apply length_filter. Qed.

Lemma set2_never_depth (g : grid) (r c : Z) (v : Q) :
  set2 g r c v ≠ Raise DepthExceeded.
Proof. rewrite set2_locate. by destruct (locate _ _ _). Qed.

(** The nesting of calls stays below the number of unvisited cells of any
    list [l] that covers the region connected to the pixel. *)
Lemma mark_connected_depth (l : list (nat * nat)) (d : nat)
    (row col level : Z) (e : grid) :
  dims e = dims img →
  (∀ q, connected img (row, col) q →
        ∃ c, locate (dims img) q.1 q.2 = Some c ∧ c ∈ l) →
  (unvisited e l < d)%nat →
  mark_connected cfg d row col level img e ≠ Raise DepthExceeded.
Proof.
  revert row col level e.
  induction d as [|d IH]; intros row col level e Hd Hl Hlt; [lia|].
  rewrite mark_connected_S, !get2_locate, <- Hd.
  destruct (locate (dims e) row col) as [p|] eqn:Hp; mstep; [|done].
  destruct (Qeq_bool (cell e p) 0) eqn:Hv; mstep; [|done].
  destruct (Qeq_bool (cell img p) 0) eqn:Hnz; mstep; [done|].
  rewrite set2_locate, Hp. mstep.
  set (e1 := upd e p (initial_mark cfg (cell img p))).
  pose proof (locate_valid _ _ _ _ Hp) as Hval.
  assert (strong img (row, col)) as Hstrong.
  { exists p. rewrite <- Hd. split; [done|]. unfold nonzero. by rewrite Hnz. }
  assert (p ∈ l) as Hpl.
  { destruct (Hl (row, col)) as (c & Hc & Hcl); [by apply connected_here|].
    simpl in Hc. rewrite <- Hd in Hc. congruence. }
  assert (grows cfg img e e1) as Hg1.
  { apply grows_upd; [apply grows_refl| |done| |by left].
    - unfold visited. by rewrite Hv.
    - unfold nonzero. by rewrite Hnz. }
  assert (unvisited e1 l < d)%nat as Hlt1.
  { assert (unvisited e1 l < unvisited e l)%nat; [|lia].
    apply (unvisited_mark e e1 l p); [done..| |].
    - unfold visited. by rewrite Hv.
    - unfold e1. rewrite visited_upd_eq by done. by rewrite visited_mark. }
  destruct (for_each neighbours (neighbour_step cfg d row col level img) (e1, 0))
    as [[eN nce]|ex] eqn:Hloop; mstep.
  - destruct (demote cfg level nce); mstep; [|done].
    pose proof (set2_never_depth eN row col 255%Q) as Hset.
    destruct (set2 eN row col 255%Q); mstep; [discriminate | congruence].
  - intros [= ->]. revert Hloop.
    apply (for_each_never _ (λ st, grows cfg img e1 st.1)); [| |apply grows_refl].
    + intros dd [e2 n2] Hdd Hg2. simpl in Hg2. unfold neighbour_step. simpl.
      destruct (mark_connected cfg d _ _ _ img e2) as [[e3 r]|ex] eqn:Hcall;
        simpl; [done|].
      intros [= ->]. revert Hcall. apply IH.
      * rewrite (grows_dims _ _ _ _ Hg2). unfold e1. by rewrite dims_upd.
      * intros q Hq. apply Hl. by apply (connected_step img (row, col) dd q).
      * pose proof (unvisited_grows e1 e2 l Hg2). lia.
    + intros dd [e2 n2] [e3 n3] _ Hg2 Hstep. simpl in *.
      unfold neighbour_step in Hstep. simpl in Hstep.
      apply bind_Ok in Hstep as ([e3' r] & Hcall & Hret). injection Hret as <- <-.
      apply mark_connected_grows in Hcall as [Hg3 _].
      * by apply (grows_trans _ _ _ e2).
      * rewrite (grows_dims _ _ _ _ Hg2). unfold e1. by rewrite dims_upd.
Qed.
End Depth.

Lemma length_pairs {A B : Type} (xs : list A) (ys : list B) :
  length (pairs xs ys) = (length xs * length ys)%nat.
Proof.
  unfold pairs. induction xs as [|x xs IH]; csimpl; [done|].
  by rewrite length_app, length_fmap, IH.
Qed.

Lemma length_all_cells (R C : nat) : length (all_cells R C) = (R * C)%nat.
Proof. unfold all_cells. by rewrite length_pairs, !length_seq. Qed.

Lemma elem_of_all_cells (R C : nat) (c : nat * nat) :
  c ∈ all_cells R C ↔ (c.1 < R)%nat ∧ (c.2 < C)%nat.
Proof. unfold all_cells. rewrite elem_of_pairs, !elem_of_seq. lia. Qed.

Lemma connected_strong (img : grid) (p q : Z * Z) :
  connected img p q → strong img q.
Proof. induction 1; done. Qed.

Lemma for_each_Raise {A S : Type} (I : S → Prop) (xs : list A)
    (body : A → S → res S) :
  (∀ x s s', x ∈ xs → I s → body x s = Ok s' → I s') →
  ∀ s ex, I s → for_each xs body s = Raise ex →
    ∃ x s', x ∈ xs ∧ I s' ∧ body x s' = Raise ex.
Proof.
  induction xs as [|x xs IH]; intros Hstep s ex HI Hrun; simpl in Hrun; [done|].
  destruct (body x s) as [s1|e1] eqn:Hb; simpl in Hrun.
  - destruct (IH) with (s := s1) (ex := ex) as (y & s' & Hy & HI' & Hb'); [| |done|].
    + intros y t t' Hy. apply Hstep. by apply list_elem_of_further.
    + apply (Hstep x s); [apply list_elem_of_here | done..].
    + exists y, s'. split_and!; [by apply list_elem_of_further | done..].
  - injection Hrun as ->. exists x, s. split_and!; [apply list_elem_of_here | done..].
Qed.

Section Budget.
Context (cfg : Config) (img : grid) (R C : nat).
Hypothesis Hdims : dims img = replicate R C.

Lemma budget_covers (d : nat) (row col level : Z) (e : grid) :
  dims e = dims img → (R * C < d)%nat →
  mark_connected cfg d row col level img e ≠ Raise DepthExceeded.
Proof.
  intros Hd Hlt. apply (mark_connected_depth cfg img (all_cells R C)); [done| |].
  - intros q (c & Hc & _)%connected_strong. exists c. split; [done|].
    apply locate_valid in Hc. rewrite Hdims in Hc.
    by apply elem_of_all_cells, valid_replicate.
  - pose proof (unvisited_le e (all_cells R C)) as Hle.
    rewrite length_all_cells in Hle. lia.
Qed.

Lemma depth_budget_dims : depth_budget img = S (R * C).
Proof.
  unfold depth_budget. f_equal.
  assert (length img = R) as ->.
  { apply (f_equal length) in Hdims. unfold dims in Hdims.
    rewrite length_fmap in Hdims. by rewrite length_replicate in Hdims. }
  destruct R as [|R']; [done|]. f_equal.
  destruct img as [|l0 g]; [done|]. simpl in *. by injection Hdims as ->.
Qed.

Lemma trace_seeds_pixels (depth : nat) (e : grid) :
  trace_seeds cfg depth img e
  = for_each (pixels (shape img).1 (shape img).2) (seed_step cfg depth img) e.
Proof.
  unfold trace_seeds, pixels, seed_step.
  destruct (shape img) as [rows columns]. by rewrite for_each_nested.
Qed.

Lemma seed_step_grows (depth : nat) (p : Z * Z) (e e' : grid) :
  dims e = dims img → seed_step cfg depth img p e = Ok e' → grows cfg img e e'.
Proof.
  intros Hd Hrun. unfold seed_step in Hrun.
  destruct (isEdge cfg _ _ _ _); [injection Hrun as <-; apply grows_refl|].
  apply bind_Ok in Hrun as (v & _ & Hrun).
  destruct (Qltb (high_thresh cfg) v); [|injection Hrun as <-; apply grows_refl].
  apply bind_Ok in Hrun as ([e'' r] & Hcall & Hret). injection Hret as <-.
  by apply mark_connected_grows in Hcall as [Hg _].
Qed.

Lemma seed_step_never_depth (p : Z * Z) (e : grid) :
  dims e = dims img →
  seed_step cfg (depth_budget img) img p e ≠ Raise DepthExceeded.
Proof.
  intros Hd. unfold seed_step.
  destruct (isEdge cfg _ _ _ _); [done|].
  destruct (get2 img p.1 p.2) as [v|ex] eqn:Hv; mstep.
  2: { apply get2_Raise in Hv as ->. done. }
  destruct (Qltb (high_thresh cfg) v); [|done].
  pose proof (budget_covers (depth_budget img) p.1 p.2 0 e Hd) as Hcall.
  rewrite depth_budget_dims in Hcall at 1.
  destruct (mark_connected cfg _ p.1 p.2 0 img e) as [[k' r]|ex']; mstep;
    [done|]. intros [= ->]. apply Hcall; [lia | done].
Qed.


End Budget.

Lemma neighbours_bound (d : Z * Z) :
  d ∈ neighbours → -1 ≤ d.1 ≤ 1 ∧ -1 ≤ d.2 ≤ 1 ∧ d ≠ (0, 0).
Proof.
  unfold neighbours. intros H.
  repeat (apply elem_of_cons in H as [->|H]; [simpl; split_and!; (lia || done)|]).
  by apply elem_of_nil in H.
Qed.

(** ** Traversals of a strength grid with a zero border *)

Section InRange.
Context (cfg : Config) (img : grid) (R C : nat).
Hypothesis Hdims : dims img = replicate R C.
Hypothesis Houtline : 1 ≤ outline cfg.
Hypothesis Hborder : zero_border cfg img.

Lemma strong_interior (row col : Z) :
  0 ≤ row < Z.of_nat R → 0 ≤ col < Z.of_nat C →
  nonzero img (at_ row col) = true →
  outline cfg ≤ row < Z.of_nat R - outline cfg
  ∧ outline cfg ≤ col < Z.of_nat C - outline cfg.
Proof.
  intros Hr Hc Hnz.
  assert (shape img = (Z.of_nat R, Z.of_nat C)) as Hs
    by (apply shape_dims; [done | lia]).
  specialize (Hborder row col). rewrite Hs in Hborder. simpl in Hborder.
  destruct (isEdge cfg row col (Z.of_nat R) (Z.of_nat C)) eqn:Hedge.
  - rewrite (get2_at img R C) in Hborder by done.
    specialize (Hborder Hr Hc eq_refl). injection Hborder as H0.
    unfold nonzero in Hnz. by rewrite H0 in Hnz.
  - unfold isEdge in Hedge. repeat (apply orb_false_elim in Hedge as [Hedge ?]).
    repeat case_bool_decide; (done || lia).
Qed.

(** With a zero border, a call at coordinates inside the array stays
    inside the array: the only way it can fail is by exhausting the depth
    budget. *)
Lemma mark_connected_in_range (d : nat) (row col level : Z) (e : grid) (ex : exn) :
  dims e = dims img → 0 ≤ row < Z.of_nat R → 0 ≤ col < Z.of_nat C →
  mark_connected cfg d row col level img e = Raise ex → ex = DepthExceeded.
Proof.
  revert row col level e.
  induction d as [|d IH]; intros row col level e Hd Hr Hc; [by intros [= <-]|].
  rewrite Hdims in Hd.
  rewrite mark_connected_S, (get2_at e R C), (get2_at img R C) by done. mstep.
  destruct (Qeq_bool (cell e (at_ row col)) 0) eqn:Hv; mstep; [|done].
  destruct (Qeq_bool (cell img (at_ row col)) 0) eqn:Hnz; mstep; [done|].
  rewrite (set2_at e R C) by done. mstep.
  destruct (strong_interior row col Hr Hc) as [Hir Hic].
  { unfold nonzero. by rewrite Hnz. }
  set (e1 := upd e (at_ row col) _).
  assert (dims e1 = replicate R C) as Hd1 by (by unfold e1; rewrite dims_upd).
  destruct (for_each neighbours (neighbour_step cfg d row col level img) (e1, 0))
    as [[eN nce]|ex'] eqn:Hloop; mstep.
  - assert (dims eN = replicate R C) as HdN.
    { change eN with (eN, nce).1. revert Hloop.
      apply (for_each_inv (λ st, dims st.1 = replicate R C));
        [|exact Hd1].
      intros dd [e2 n2] [e3 n3] _ H2 Hstep. simpl in *.
      unfold neighbour_step in Hstep. simpl in Hstep.
      apply bind_Ok in Hstep as ([e3' r] & Hcall & Hret). injection Hret as <- <-.
      apply mark_connected_grows in Hcall as [Hg _]; [|congruence].
      by rewrite (grows_dims _ _ _ _ Hg). }
    destruct (demote cfg level nce); mstep; [|done].
    by rewrite (set2_at eN R C) by done.
  - intros [= ->].
    apply (for_each_Raise (λ st, dims st.1 = replicate R C)) in Hloop
      as (dd & [e2 n2] & Hdd & H2 & Hstep); [| |exact Hd1].
    + simpl in H2. unfold neighbour_step in Hstep. simpl in Hstep.
      apply bind_Raise in Hstep as [Hcall|([e3 r] & _ & Hret)]; [|done].
      apply neighbours_bound in Hdd as (? & ? & _).
      apply IH in Hcall; [done | congruence | lia..].
    + intros dd' [e2 n2] [e3 n3] _ H2 Hstep. simpl in *.
      unfold neighbour_step in Hstep. simpl in Hstep.
      apply bind_Ok in Hstep as ([e3' r] & Hcall & Hret). injection Hret as <- <-.
      apply mark_connected_grows in Hcall as [Hg _]; [|congruence].
      by rewrite (grows_dims _ _ _ _ Hg).
Qed.

Lemma seed_step_total (p : Z * Z) (e : grid) :
  0 ≤ p.1 < Z.of_nat R → 0 ≤ p.2 < Z.of_nat C → dims e = dims img →
  ∃ e', seed_step cfg (depth_budget img) img p e = Ok e' ∧ dims e' = dims img.
Proof.
  intros Hr Hc Hd.
  pose proof (seed_step_never_depth cfg img R C Hdims p e Hd) as Hnever.
  unfold seed_step in *.
  destruct (isEdge cfg _ _ _ _); [by exists e|].
  rewrite (get2_at img R C) in * by done. revert Hnever. mstep.
  destruct (Qltb (high_thresh cfg) _); [|by exists e].
  destruct (mark_connected cfg _ p.1 p.2 0 img e) as [[e' r]|ex] eqn:Hcall; mstep.
  - intros _. exists e'. split; [done|].
    apply mark_connected_grows in Hcall as [Hg _]; [|done].
    by rewrite (grows_dims _ _ _ _ Hg).
  - apply mark_connected_in_range in Hcall as ->; done.
Qed.

Lemma threshold_edges_total : is_Ok (threshold_edges cfg img).
Proof.
  unfold threshold_edges. rewrite threshold_edges_within_phases, trace_seeds_pixels.
  destruct (for_each_total (λ h, dims h = dims img)
              (pixels (shape img).1 (shape img).2)
              (seed_step cfg (depth_budget img) img)) with (s := zeros_like img)
    as (traced & -> & HdT); [|apply dims_zeros_like|].
  - intros p h Hp Hh. apply seed_step_total; [| |done].
    all: apply elem_of_pixels in Hp; destruct R as [|R'].
    all: try (rewrite (shape_dims img (S R') C) in Hp by (done || lia); simpl in Hp; lia).
    all: destruct img; [simpl in Hp; lia | done].
  - mstep.
    destruct (clear_provisional_spec img traced) as (e' & -> & _);
      [by apply (dims_rect _ R C) | done | apply is_Ok_Ok].
Qed.
End InRange.

(** ** Traversals on a call stack of a given depth *)

Section Stack.
Context (cfg : Config) (img : grid) (R C : nat) (depth : nat).
Hypothesis Hdims : dims img = replicate R C.
Hypothesis Hdepth : (R * C < depth)%nat.



Hypothesis Houtline : 1 ≤ outline cfg.
Hypothesis Hborder : zero_border cfg img.


End Stack.

(** ** The number of calls that recurse *)

Lemma neighbour_step_pair (cfg : Config) (d : nat) (row col level : Z)
    (img : grid) (dd : Z * Z) (e : grid) (n : Z) :
  neighbour_step cfg d row col level img dd (e, n)
  = st ← mark_connected cfg d (row + dd.1) (col + dd.2) (level + 1) img e;
    Ok (st.1, Z.lor n st.2).
Proof.
  unfold neighbour_step. simpl. apply bind_ext. by intros [e' r].
Qed.

Section Calls.
Context (cfg : Config) (img : grid) (l : list (nat * nat)).
Hypothesis Hcover : ∀ c, valid (dims img) c → c ∈ l.



Lemma mark_connected_calls_erase (d : nat) (row col level : Z) (e e' : grid)
    (r : Z) (n : nat) :
  mark_connected_calls cfg d row col level img e = Ok (e', r, n) →
  mark_connected cfg d row col level img e = Ok (e', r).
Proof.
  revert row col level e e' r n.
  induction d as [|d IH]; intros row col level e e' r n Hrun; [done|].
  rewrite mark_connected_S. cbn [mark_connected_calls] in Hrun.
  apply bind_Ok in Hrun as (v & -> & Hrun). mstep.
  destruct (negb (Qeq_bool v 0)); [by injection Hrun as <- <- <-|].
  apply bind_Ok in Hrun as (w & -> & Hrun). mstep.
  destruct (Qeq_bool w 0); [by injection Hrun as <- <- <-|].
  apply bind_Ok in Hrun as (e1 & -> & Hrun). mstep.
  apply bind_Ok in Hrun as ([[eN nce] k] & Hloop & Hrun).
  assert (for_each neighbours (neighbour_step cfg d row col level img) (e1, 0)
          = Ok (eN, nce)) as ->.
  { revert Hloop. generalize neighbours, e1, 0, 0%nat.
    induction l0 as [|dd ns IHns]; intros e2 n2 k2 Hrun2; simpl in Hrun2.
    - by injection Hrun2 as <- <- <-.
    - apply bind_Ok in Hrun2 as ([[e3 n3] k3] & Hstep & Hrun2). simpl in Hstep.
      apply bind_Ok in Hstep as ([[e3' r3] k'] & Hcall & Hret).
      injection Hret as <- <- <-. apply IH in Hcall.
      cbn [for_each]. rewrite neighbour_step_pair, Hcall. mstep.
      by apply (IHns _ _ (k2 + k')%nat). }
  mstep. simpl in Hrun. unfold mret, res_ret in Hrun.
  apply bind_Ok in Hrun as (e'' & Hthin & Hrun). rewrite Hthin. mstep.
  by injection Hrun as <- <- <-.
Qed.
End Calls.




Lemma border_is_never_an_edge_witness :
  ∃ out, shenCastan step_config step_image = Ok out
    ∧ get2 out 0 2 = Ok 0%Q ∧ get2 out 1 2 = Ok 255%Q.
Proof.
  destruct (shenCastan step_config step_image) as [out|] eqn:Hrun;
    [|by vm_compute in Hrun].
  exists out. split; [done|].
  destruct (border_is_never_an_edge step_config step_image out)
    as (_ & isef & bli & zc & traced & edges & _ & _ & _ & _ & _ & _ & Hborder);
    [by repeat constructor | done |].
  split.
  - destruct (Hborder 0 2) as (_ & _ & _ & Hout); [unfold step_image; cbn; lia.. | done |].
    exact Hout.
  - vm_compute in Hrun. by injection Hrun as <-.
Defined.

Lemma adaptiveGradient_never_divides_by_zero_witness :
  adaptiveGradient step_config small_BLI small_ISEF 1 1 ≠ Raise ZeroDivisionError
  ∧ is_Ok (adaptiveGradient step_config small_BLI small_ISEF 1 1).
Proof.
  destruct (adaptiveGradient_never_divides_by_zero step_config small_BLI small_ISEF 1 1)
    as (_ & Hnever & Htotal).
  split; [exact Hnever|]. apply Htotal. intros p Hp.
  change (window step_config 1 1) with [(0, 0); (0, 1); (1, 0); (1, 1)] in Hp.
  repeat (apply elem_of_cons in Hp as [->|Hp]; [split; eexists; reflexivity|]).
  by apply elem_of_nil in Hp.
Defined.

(** ** Which constants the tracer reads *)

Lemma mark_connected_reads (cfg cfg' : Config) (d : nat) (row col level : Z)
    (img e : grid) :
  low_thresh cfg = low_thresh cfg' → thinFactor cfg = thinFactor cfg' →
  mark_connected cfg d row col level img e = mark_connected cfg' d row col level img e.
Proof.
  intros Hlow Hthin. revert row col level e.
  induction d as [|d IH]; intros row col level e; [done|].
  rewrite !mark_connected_S.
  apply bind_ext. intros v. destruct (negb (Qeq_bool v 0)); [done|].
  apply bind_ext. intros w. destruct (Qeq_bool w 0); [done|].
  unfold initial_mark. rewrite Hlow. apply bind_ext. intros e1.
  rewrite (for_each_ext neighbours _ (neighbour_step cfg' d row col level img)).
  - apply bind_ext. intros [eN nce]. unfold demote. by rewrite Hthin.
  - intros dd [e2 n2] _. unfold neighbour_step. simpl. by rewrite IH.
Qed.

(** [threshold_edges] reads [outline], [high_thresh], and through
    [mark_connected] the module-level [low_thresh] and [thinFactor];
    [do_hysteresis] only feeds the local that is never read. *)
Lemma threshold_edges_reads (cfg cfg' : Config) (img : grid) :
  outline cfg = outline cfg' → high_thresh cfg = high_thresh cfg' →
  low_thresh cfg = low_thresh cfg' → thinFactor cfg = thinFactor cfg' →
  threshold_edges cfg img = threshold_edges cfg' img.
Proof.
  intros Hout Hhigh Hlow Hthin. unfold threshold_edges.
  rewrite !threshold_edges_within_phases, !trace_seeds_pixels.
  rewrite (for_each_ext _ _ (seed_step cfg' (depth_budget img) img)); [done|].
  intros p e _. unfold seed_step, isEdge. rewrite Hout, Hhigh.
  destruct (_ || _); [done|]. apply bind_ext. intros v.
  destruct (Qltb _ _); [|done].
  by rewrite (mark_connected_reads cfg cfg').
Qed.

(** C3 (evaluated at a failing input).  With hysteresis disabled, a low
    threshold of 0 and a high threshold of 2, the weak neighbour (strength
    1) of the seed (strength 3) is confirmed as an edge; with both
    thresholds equal to 2 it is not.  Disabling hysteresis leaves the
    configured [low_thresh] in force: it gives the same result as enabling
    it. *)
Theorem hysteresis_disabled_keeps_low_thresh :
  threshold_edges (tracer_config 0 2 false 0) weak_neighbour
  = Ok [ [0; 0; 0; 0]; [0; 1; 1; 0]; [0; 0; 0; 0] ]%Q
  ∧ threshold_edges (tracer_config 2 2 false 0) weak_neighbour
    = Ok [ [0; 0; 0; 0]; [0; 1; 0; 0]; [0; 0; 0; 0] ]%Q
  ∧ ∀ low high thin img,
      threshold_edges (tracer_config low high false thin) img
      = threshold_edges (tracer_config low high true thin) img.
Proof.
  split_and!; [by vm_compute.. |].
  intros low high thin img. by apply threshold_edges_reads.
Qed.

(** ** Thinning *)

Lemma demote_true (cfg : Config) (level nce : Z) :
  demote cfg level nce = true
  ↔ nce ≠ 0 ∧ 0 < level ∧ 0 < thinFactor cfg ∧ level `mod` thinFactor cfg ≠ 0.
Proof.
  unfold demote. rewrite !andb_true_iff, !bool_decide_eq_true. tauto.
Qed.

(** The accumulated flag is non-zero exactly when a call returned 1. *)
Lemma lor_flags (rs : list Z) (n : Z) :
  Forall (λ r, r = 0 ∨ r = 1) rs → n = 0 ∨ n = 1 →
  (foldl Z.lor n rs = 0 ∨ foldl Z.lor n rs = 1)
  ∧ (foldl Z.lor n rs ≠ 0 ↔ n = 1 ∨ ∃ r, r ∈ rs ∧ r = 1).
Proof.
  intros Hrs. revert n. induction Hrs as [|r rs Hr _ IH]; intros n Hn; simpl.
  - split; [done|]. split; [lia|]. intros [->|(r & Hin & _)]; [done|].
    by apply elem_of_nil in Hin.
  - destruct (IH (Z.lor n r)) as [H01 Hiff].
    { destruct Hn as [->| ->], Hr as [->| ->]; auto. }
    split; [done|]. rewrite Hiff. split.
    + intros [Hlor|(r' & Hin & ->)].
      * destruct Hn as [->| ->]; [|by left]. right. exists r.
        split; [apply list_elem_of_here|]. by destruct Hr as [->| ->].
      * right. exists 1. split; [by apply list_elem_of_further | done].
    + intros [->|(r' & [->|Hin]%elem_of_cons & ->)].
      * left. by destruct Hr as [->| ->].
      * left. by destruct Hn as [->| ->].
      * right. by exists 1.
Qed.

Section Thinning.
Context (cfg : Config) (img : grid).

(** The loop over the neighbours is the sequence of the eight calls. *)
Lemma neighbour_loop_calls (d : nat) (row col level : Z) (ns : list (Z * Z))
    (e eN : grid) (n nce : Z) :
  dims e = dims img →
  for_each ns (neighbour_step cfg d row col level img) (e, n) = Ok (eN, nce) →
  ∃ rs, neighbour_calls cfg d row col level img ns e rs eN
        ∧ nce = foldl Z.lor n rs ∧ length rs = length ns
        ∧ Forall (λ r, r = 0 ∨ r = 1) rs.
Proof.
  revert e n. induction ns as [|dd ns IH]; intros e n Hd Hrun; simpl in Hrun.
  - injection Hrun as <- <-. exists []. split_and!; [constructor | done..].
  - apply bind_Ok in Hrun as ([e2 n2] & Hstep & Hrun).
    rewrite neighbour_step_pair in Hstep.
    apply bind_Ok in Hstep as ([e2' r] & Hcall & Hret). injection Hret as <- <-.
    pose proof (mark_connected_grows _ _ _ _ _ _ _ _ _ Hd Hcall) as [Hg Hr].
    apply IH in Hrun as (rs & Hcalls & -> & Hlen & Hrs);
      [|by rewrite (grows_dims _ _ _ _ Hg)].
    exists (r :: rs). split_and!.
    + by apply (calls_cons _ _ _ _ _ _ dd ns e e2').
    + done.
    + simpl. by rewrite Hlen.
    + constructor; [|done]. destruct Hr as [[-> _]|[-> _]]; auto.
Qed.

Lemma neighbour_calls_grow (d : nat) (row col level : Z) (ns : list (Z * Z))
    (e eN : grid) (rs : list Z) :
  dims e = dims img →
  neighbour_calls cfg d row col level img ns e rs eN → grows cfg img e eN.
Proof.
  intros Hd Hcalls. induction Hcalls as [e|dd ns e e1 e' r rs Hcall _ IH].
  - apply grows_refl.
  - apply mark_connected_grows in Hcall as [Hg _]; [|done].
    apply (grows_trans _ _ _ e1); [done|]. apply IH.
    by rewrite (grows_dims _ _ _ _ Hg).
Qed.
End Thinning.

(** C2, as the code has it.  Take a call of [mark_connected] at recursion
    depth [level] that got past the two guards (it returns 1).  After the
    initial mark of its pixel, the eight neighbour recursions run in order
    and each returns 0 ("no new territory") or 1; they leave the pixel's
    initial mark in place.  Then the pixel is re-marked 255 exactly when at
    least one of the eight recursions returned 1, and [level > 0], and
    [thinFactor > 0], and [level mod thinFactor != 0]; otherwise the state
    is left as the recursions left it.  With [thinFactor <= 0] no call
    ever changes a cell other than from unvisited to its initial mark. *)
Theorem thinning_rule (cfg : Config) (img : grid) :
  (∀ d row col level e e',
     dims e = dims img →
     mark_connected cfg (S d) row col level img e = Ok (e', 1) →
     ∃ p rs eN,
       locate (dims e) row col = Some p
       ∧ neighbour_calls cfg d row col level img neighbours
           (upd e p (initial_mark cfg (cell img p))) rs eN
       ∧ length rs = 8%nat
       ∧ Forall (λ r, r = 0 ∨ r = 1) rs
       ∧ cell eN p = initial_mark cfg (cell img p)
       ∧ ((((∃ r, r ∈ rs ∧ r = 1) ∧ 0 < level ∧ 0 < thinFactor cfg
            ∧ level `mod` thinFactor cfg ≠ 0)
           ∧ e' = upd eN p 255%Q)
          ∨ (¬ ((∃ r, r ∈ rs ∧ r = 1) ∧ 0 < level ∧ 0 < thinFactor cfg
                ∧ level `mod` thinFactor cfg ≠ 0)
             ∧ e' = eN)))
  ∧ (thinFactor cfg ≤ 0 →
     ∀ d row col level e e' r,
       dims e = dims img →
       mark_connected cfg d row col level img e = Ok (e', r) →
       ∀ q, cell e' q = cell e q
            ∨ (visited e q = false ∧ cell e' q = initial_mark cfg (cell img q))).
Proof.
  split.
  - intros d row col level e e' Hd Hrun.
    apply mark_connected_cases in Hrun
      as (p & Hp & [([=] & _)|(_ & Hv & Hnz & eN & nce & Hloop & Hthin)]); [|done].
    pose proof (locate_valid _ _ _ _ Hp) as Hval.
    set (e1 := upd e p (initial_mark cfg (cell img p))) in *.
    assert (dims e1 = dims img) as Hd1 by (by unfold e1; rewrite dims_upd).
    apply neighbour_loop_calls in Hloop as (rs & Hcalls & -> & Hlen & Hrs); [|done].
    pose proof (neighbour_calls_grow _ _ _ _ _ _ _ _ _ _ Hd1 Hcalls) as HgN.
    assert (visited e1 p = true) as Hv1.
    { unfold e1. rewrite visited_upd_eq by done. by rewrite visited_mark. }
    destruct (grows_visited _ _ _ _ _ HgN Hv1) as [_ HcN].
    destruct (lor_flags rs 0 Hrs) as [_ Hflag]; [by left|].
    exists p, rs, eN. split_and!; [done..| |].
    { rewrite HcN. unfold e1. by rewrite cell_upd_eq. }
    destruct (demote cfg level (foldl Z.lor 0 rs)) eqn:Hdem.
    + left. apply demote_true in Hdem as (Hnz' & ? & ? & ?).
      apply Hflag in Hnz' as [[=]|Hex]. split; [done|].
      rewrite set2_locate, (grows_dims _ _ _ _ HgN), Hd1, <- Hd, Hp in Hthin.
      by injection Hthin as <-.
    + right. split; [|by injection Hthin as <-].
      intros (Hex & ? & ? & ?).
      assert (demote cfg level (foldl Z.lor 0 rs) = true) as Hdem'; [|congruence].
      apply demote_true. split_and!; [|done..]. apply Hflag. by right.
  - intros Hthin d row col level e e' r Hd Hrun q.
    apply mark_connected_grows in Hrun as [[_ Hg] _]; [|done].
    destruct (Hg q) as [Heq|(Hv & _ & _ & [Hm|[Hpos _]])]; [by left | by right | lia].
Qed.

Lemma thinning_rule_witness :
  let e := [ [0; 0; 0; 0; 0]; [0; 1; 0; 0; 0]; [0; 0; 0; 0; 0] ]%Q in
  (∃ p rs eN,
     locate (dims e) 1 2 = Some p
     ∧ neighbour_calls (tracer_config 0 2 false 2) 7 1 2 1 chain neighbours
         (upd e p (initial_mark (tracer_config 0 2 false 2) (cell chain p))) rs eN
     ∧ length rs = 8%nat
     ∧ Forall (λ r, r = 0 ∨ r = 1) rs
     ∧ cell eN p = initial_mark (tracer_config 0 2 false 2) (cell chain p)
     ∧ ((((∃ r, r ∈ rs ∧ r = 1) ∧ 0 < 1 ∧ 0 < 2 ∧ 1 `mod` 2 ≠ 0)
         ∧ [ [0; 0; 0; 0; 0]; [0; 1; 255; 1; 0]; [0; 0; 0; 0; 0] ]%Q = upd eN p 255%Q)
        ∨ (¬ ((∃ r, r ∈ rs ∧ r = 1) ∧ 0 < 1 ∧ 0 < 2 ∧ 1 `mod` 2 ≠ 0)
           ∧ [ [0; 0; 0; 0; 0]; [0; 1; 255; 1; 0]; [0; 0; 0; 0; 0] ]%Q = eN)))
  ∧ (∀ q, cell [ [0; 0; 0; 0; 0]; [0; 1; 1; 1; 0]; [0; 0; 0; 0; 0] ]%Q q = cell e q
          ∨ (visited e q = false
             ∧ cell [ [0; 0; 0; 0; 0]; [0; 1; 1; 1; 0]; [0; 0; 0; 0; 0] ]%Q q
               = initial_mark (tracer_config 0 2 false 0) (cell chain q))).
Proof.
  intros e. split.
  - apply (proj1 (thinning_rule (tracer_config 0 2 false 2) chain) 7%nat 1 2 1 e);
      [reflexivity | by vm_compute].
  - apply (proj2 (thinning_rule (tracer_config 0 2 false 0) chain) ltac:(simpl; lia)
             8%nat 1 2 1 e _ 1); [reflexivity | by vm_compute].
Defined.

(** C2 as stated fails.  In [chain] with [thinFactor = 2], once the seed
    at (1, 2) is marked, the call at (1, 3) runs at level 1: all eight of
    its neighbour recursions return 0, [level > 0], [thinFactor > 0] and
    [level mod thinFactor != 0], yet the pixel is not re-marked: it keeps
    the value 1, and the whole run confirms it as an edge. *)
Lemma thinning_leaf_is_kept :
  let cfg := tracer_config 0 4 false 2 in
  let e := [ [0; 0; 0; 0; 0]; [0; 0; 1; 0; 0]; [0; 0; 0; 0; 0] ]%Q in
  let e1 := [ [0; 0; 0; 0; 0]; [0; 0; 1; 1; 0]; [0; 0; 0; 0; 0] ]%Q in
  set2 e 1 3 (initial_mark cfg 3) = Ok e1
  ∧ neighbour_calls cfg 7 1 3 1 chain neighbours e1 [0; 0; 0; 0; 0; 0; 0; 0] e1
  ∧ 0 < 1 ∧ 0 < thinFactor cfg ∧ 1 `mod` thinFactor cfg ≠ 0
  ∧ mark_connected cfg 8 1 3 1 chain e = Ok (e1, 1)
  ∧ get2 e1 1 3 = Ok 1%Q
  ∧ threshold_edges cfg chain
    = Ok [ [0; 0; 0; 0; 0]; [0; 1; 1; 1; 0]; [0; 0; 0; 0; 0] ]%Q.
Proof.
  intros cfg e e1. split_and!; try by vm_compute.
  unfold neighbours.
  repeat (eapply calls_cons; [by vm_compute|]). apply calls_nil.
Qed.

(** ** The smoothing filter at a concrete input *)

(** C1 (evaluated at a failing input).  On the 3 by 3 grid of ones with
    the notebook's smoothing factor 0.9, [getISEF] returns a grid whose row
    [rows - 2] is 0 throughout, while the two-pass filter of the
    specification is non-zero there, in either order of the passes; the
    two results differ in every cell. *)
Theorem getISEF_leaves_a_row_unfiltered :
  ∃ result, getISEF notebook_config ones3 = Ok result
    ∧ Forall (λ col, ∃ v, get2 result 1 col = Ok v ∧ (v == 0)%Q) [0; 1; 2]
    ∧ Forall (λ p,
        ¬ (cell result p == cell (isef_spec (9 # 10) ones3) p)%Q
        ∧ ¬ (cell result p == cell (isef_spec_columns_first (9 # 10) ones3) p)%Q)
        (all_cells 3 3)
    ∧ (cell (isef_spec (9 # 10) ones3) (1, 1)%nat == 196 # 9025)%Q.
Proof.
  destruct (getISEF notebook_config ones3) as [result|] eqn:Hrun;
    [|by vm_compute in Hrun].
  exists result. split; [done|]. vm_compute in Hrun. injection Hrun as <-.
  split_and!.
  - repeat constructor; (eexists; split; [reflexivity | done]).
  - unfold all_cells, pairs. simpl. repeat constructor; by vm_compute.
  - by vm_compute.
Qed.

(** ** The traversal as a flood fill *)

Lemma at'_inj (R C : nat) (p q : Z * Z) :
  in_range R C p → in_range R C q → at' p = at' q → p = q.
Proof.
  intros [??] [??] Heq. destruct p as [a b], q as [c d]. unfold at' in Heq.
  simpl in *. apply at_inj in Heq as [Ha Hb]; [by subst | lia..].
Qed.

Lemma connected_start (img : grid) (p q : Z * Z) : connected img p q → strong img p.
Proof. by destruct 1. Qed.

Section Flood.
Context (cfg : Config) (img : grid) (R C : nat).
Hypothesis Hdims : dims img = replicate R C.
Hypothesis Houtline : 1 ≤ outline cfg.
Hypothesis Hborder : zero_border cfg img.
Hypothesis Hthin : thinFactor cfg ≤ 0.

Lemma strong_at (q : Z * Z) :
  in_range R C q → (strong img q ↔ nonzero img (at' q) = true).
Proof.
  intros [Hr Hc]. unfold strong. rewrite Hdims, locate_replicate by done. split.
  - by intros (c & [= <-] & Hnz).
  - intros Hnz. by exists (at' q).
Qed.

Lemma neighbour_in_range (q d : Z * Z) :
  in_range R C q → nonzero img (at' q) = true → d ∈ neighbours →
  in_range R C (shift q d).
Proof.
  intros [Hr Hc] Hnz (? & ? & _)%neighbours_bound.
  destruct (strong_interior cfg img R C Hdims Hborder q.1 q.2 Hr Hc Hnz).
  unfold in_range, shift. simpl. lia.
Qed.

Lemma demote_off (level nce : Z) : demote cfg level nce = false.
Proof.
  unfold demote. rewrite (bool_decide_eq_false_2 (0 < thinFactor cfg)) by lia.
  by rewrite andb_false_r.
Qed.

Lemma closed_at_grows (e e' : grid) (q : Z * Z) :
  grows cfg img e e' → closed_at img R C e q → closed_at img R C e' q.
Proof.
  intros Hg Hcl d Hd Hin Hnz.
  by apply (grows_visited _ _ _ _ _ Hg), Hcl.
Qed.

(** A call visits its pixel if it is strong, and everything it newly
    visits is connected to its pixel and has all its strong neighbours
    visited when the call returns. *)
Lemma mark_connected_floods (d : nat) (row col level : Z) (e e' : grid) (r : Z) :
  dims e = dims img → in_range R C (row, col) →
  mark_connected cfg d row col level img e = Ok (e', r) →
  (nonzero img (at_ row col) = true → visited e' (at_ row col) = true)
  ∧ (∀ q, in_range R C q → visited e (at' q) = false → visited e' (at' q) = true →
          connected img (row, col) q ∧ closed_at img R C e' q).
Proof.
  revert row col level e e' r.
  induction d as [|d IH]; intros row col level e e' r Hd Hin Hrun; [done|].
  pose proof Hin as [Hr Hc]. simpl in Hr, Hc.
  apply mark_connected_cases in Hrun
    as (p & Hp & [(-> & -> & Hstop)|(-> & Hv & Hnz & eN & nce & Hloop & Hthin')]);
    [| |done].
  all: rewrite Hd, Hdims, locate_replicate in Hp by done; injection Hp as <-.
  { split; [|congruence]. intros Hnz. destruct Hstop; [done | congruence]. }
  rewrite demote_off in Hthin'. injection Hthin' as <-.
  set (p := (row, col)) in *.
  set (e1 := upd e (at_ row col) (initial_mark cfg (cell img (at_ row col)))) in *.
  assert (valid (dims e) (at_ row col)) as Hval.
  { rewrite Hd, Hdims. by apply valid_at. }
  assert (grows cfg img e e1) as Hg1.
  { apply grows_upd; [apply grows_refl | done.. |]. by left. }
  assert (visited e1 (at_ row col) = true) as Hv1.
  { unfold e1. rewrite visited_upd_eq by done. by rewrite visited_mark. }
  assert (dims e1 = dims img) as Hd1 by (by unfold e1; rewrite dims_upd).
  apply (for_each_prefix_inv (λ pre st,
    grows cfg img e1 st.1
    ∧ (∀ dd, dd ∈ pre → nonzero img (at' (shift p dd)) = true →
             visited st.1 (at' (shift p dd)) = true)
    ∧ (∀ q, in_range R C q → visited e1 (at' q) = false →
            visited st.1 (at' q) = true →
            (∃ dd, dd ∈ neighbours ∧ connected img (shift p dd) q)
            ∧ closed_at img R C st.1 q))) in Hloop.
  - destruct Hloop as (HgN & Hnb & Hnew). simpl in *.
    split; [intros _; by apply (grows_visited _ _ _ _ _ HgN)|].
    intros q Hq Hvq HvqN.
    destruct (decide (at' q = at_ row col)) as [Heq|Hne].
    + apply (at'_inj R C q p) in Heq as ->; [|done..]. split.
      * apply connected_here. by apply strong_at.
      * intros dd Hdd Hin' Hnz'. by apply Hnb.
    + destruct (Hnew q) as ((dd & Hdd & Hconn) & Hcl); [done| |done|].
      { unfold visited, e1. rewrite cell_upd_ne by done. exact Hvq. }
      split; [|done]. apply (connected_step img p dd q); [|done..].
      by apply strong_at.
  - intros pre dd [e2 n2] [e3 n3] Hpre (Hg2 & Hnb & Hnew) Hstep. simpl in *.
    assert (dd ∈ neighbours) as Hdd.
    { destruct Hpre as [k ->]. apply elem_of_app. left. apply elem_of_app. right.
      apply list_elem_of_here. }
    rewrite neighbour_step_pair in Hstep.
    apply bind_Ok in Hstep as ([e3' r3] & Hcall & Hret). injection Hret as <- <-.
    assert (dims e2 = dims img) as Hd2 by (by rewrite (grows_dims _ _ _ _ Hg2)).
    pose proof (mark_connected_grows _ _ _ _ _ _ _ _ _ Hd2 Hcall) as [Hg3 _].
    apply IH in Hcall as [Hvis Hfresh]; [|done|by apply (neighbour_in_range p)].
    split_and!.
    + by apply (grows_trans _ _ _ e2).
    + intros dd' [Hin'| ->%list_elem_of_singleton]%elem_of_app Hnz'.
      * by apply (grows_visited _ _ _ _ _ Hg3), Hnb.
      * by apply Hvis.
    + intros q Hq Hvq Hvq3.
      destruct (visited e2 (at' q)) eqn:Hvq2.
      * destruct (Hnew q Hq Hvq Hvq2) as [Hex Hcl]. split; [done|].
        by apply (closed_at_grows e2).
      * destruct (Hfresh q Hq Hvq2 Hvq3) as [Hconn Hcl]. split; [|done].
        by exists dd.
  - split_and!; [apply grows_refl | |].
    + intros dd Hdd. by apply elem_of_nil in Hdd.
    + intros q _ Hvq Hvq'. simpl in Hvq'. congruence.
Qed.

Hypothesis Hrows : (0 < R)%nat.

Lemma shape_img : shape img = (Z.of_nat R, Z.of_nat C).
Proof. by apply shape_dims. Qed.

(** The state after tracing from all the seeds. *)
Lemma trace_seeds_floods (depth : nat) (traced : grid) :
  trace_seeds cfg depth img (zeros_like img) = Ok traced →
  grows cfg img (zeros_like img) traced
  ∧ (∀ q, in_range R C q → visited traced (at' q) = true →
          closed_at img R C traced q ∧ ∃ s, is_seed cfg img R C s ∧ connected img s q)
  ∧ (∀ s, is_seed cfg img R C s → visited traced (at' s) = true).
Proof.
  rewrite trace_seeds_pixels, shape_img. simpl. intros Hrun.
  apply (for_each_prefix_inv (λ pre e,
    grows cfg img (zeros_like img) e
    ∧ (∀ q, in_range R C q → visited e (at' q) = true →
            closed_at img R C e q ∧ ∃ s, is_seed cfg img R C s ∧ connected img s q)
    ∧ (∀ s, s ∈ pre → is_seed cfg img R C s → visited e (at' s) = true))) in Hrun.
  - destruct Hrun as (Hg & Hcl & Hseeds). split_and!; [done..|].
    intros s Hs. apply Hseeds; [|done]. destruct Hs as [[??] _].
    apply elem_of_pixels. lia.
  - intros pre s e e' Hpre (Hg & Hcl & Hseeds) Hstep.
    assert (in_range R C s) as Hin.
    { assert (s ∈ pixels (Z.of_nat R) (Z.of_nat C)) as Hs.
      { destruct Hpre as [k ->]. apply elem_of_app. left. apply elem_of_app. right.
        apply list_elem_of_here. }
      by apply elem_of_pixels in Hs. }
    assert (dims e = dims img) as Hd.
    { by rewrite (grows_dims _ _ _ _ Hg), dims_zeros_like. }
    pose proof (seed_step_grows cfg img _ _ _ _ Hd Hstep) as Hg'.
    assert (∀ q, in_range R C q → visited e (at' q) = true →
                 closed_at img R C e' q
                 ∧ ∃ s, is_seed cfg img R C s ∧ connected img s q) as Hold.
    { intros q Hq Hvq. destruct (Hcl q Hq Hvq) as [Hc Hex]. split; [|done].
      by apply (closed_at_grows e). }
    unfold seed_step in Hstep. rewrite shape_img in Hstep. simpl in Hstep.
    destruct Hin as [Hr Hc].
    destruct (isEdge cfg s.1 s.2 (Z.of_nat R) (Z.of_nat C)) eqn:Hedge.
    { injection Hstep as <-. split_and!; [done..|].
      intros s' [Hs'| ->%list_elem_of_singleton]%elem_of_app Hseed.
      - by apply Hseeds.
      - destruct Hseed as (_ & Hedge' & _). congruence. }
    rewrite (get2_at img R C) in Hstep by done. simpl in Hstep.
    destruct (Qltb (high_thresh cfg) (cell img (at_ s.1 s.2))) eqn:Hhigh.
    2: { injection Hstep as <-. split_and!; [done..|].
         intros s' [Hs'| ->%list_elem_of_singleton]%elem_of_app Hseed.
         - by apply Hseeds.
         - destruct Hseed as (_ & _ & Hhigh' & _). unfold at' in Hhigh'. congruence. }
    apply bind_Ok in Hstep as ([e'' r] & Hcall & Hret). injection Hret as <-.
    apply mark_connected_floods in Hcall as [Hvis Hfresh]; [|done..].
    split_and!.
    + by apply (grows_trans _ _ _ e).
    + intros q Hq Hvq'. destruct (visited e (at' q)) eqn:Hvq; [by apply Hold|].
      destruct (Hfresh q Hq Hvq Hvq') as [Hconn Hclq]. split; [done|].
      exists s. split; [|by destruct s].
      split_and!; [done..|]. apply connected_start in Hconn.
      apply strong_at in Hconn; [by destruct s | done].
    + intros s' [Hs'| ->%list_elem_of_singleton]%elem_of_app Hseed.
      * by apply (grows_visited _ _ _ _ _ Hg'), Hseeds.
      * destruct Hseed as (_ & _ & _ & Hnz). by apply Hvis.
  - split_and!; [apply grows_refl | |].
    + intros q _ Hvq. unfold visited in Hvq. by rewrite cell_zeros_like in Hvq.
    + intros s Hs. by apply elem_of_nil in Hs.
Qed.

(** Closure under neighbours carries visits along connections. *)
Lemma closed_reaches (e : grid) (p q : Z * Z) :
  (∀ x, in_range R C x → visited e (at' x) = true → closed_at img R C e x) →
  connected img p q → in_range R C p → visited e (at' p) = true →
  in_range R C q ∧ visited e (at' q) = true.
Proof.
  intros Hcl Hconn. induction Hconn as [p Hp|p d q Hp Hd Hconn IH]; intros Hin Hv.
  - done.
  - assert (in_range R C (shift p d)) as Hin'.
    { apply neighbour_in_range; [done| |done]. by apply strong_at. }
    apply IH; [done|]. apply (Hcl p Hin Hv d Hd Hin').
    apply strong_at; [done|]. by apply connected_start in Hconn.
Qed.

Lemma traced_visited (depth : nat) (traced : grid) (q : Z * Z) :
  trace_seeds cfg depth img (zeros_like img) = Ok traced →
  in_range R C q →
  (visited traced (at' q) = true ↔ ∃ s, is_seed cfg img R C s ∧ connected img s q).
Proof.
  intros (Hg & Hcl & Hseeds)%trace_seeds_floods Hq. split.
  - intros Hv. by apply Hcl.
  - intros (s & Hs & Hconn).
    destruct (closed_reaches traced s q) as [_ Hv]; [|done| |by apply Hseeds|done].
    + intros x Hx Hvx. by apply Hcl.
    + by destruct Hs.
Qed.

Lemma traced_value (depth : nat) (traced : grid) (q : nat * nat) :
  trace_seeds cfg depth img (zeros_like img) = Ok traced →
  cell traced q
  = if visited traced q then initial_mark cfg (cell img q) else 0%Q.
Proof.
  intros ([_ Hg] & _)%trace_seeds_floods.
  destruct (Hg q) as [Heq|(_ & _ & _ & [Hm|[Hpos _]])]; [| |lia].
  - rewrite cell_zeros_like in Heq. unfold visited. by rewrite Heq.
  - unfold visited. by rewrite Hm, visited_mark.
Qed.
End Flood.

(** ** The confirmed edges, and how they vary with the high threshold *)

Section Output.
Context (cfg : Config) (img : grid) (R C : nat).
Hypothesis Hdims : dims img = replicate R C.
Hypothesis Houtline : 1 ≤ outline cfg.
Hypothesis Hborder : zero_border cfg img.
Hypothesis Hthin : thinFactor cfg ≤ 0.
Hypothesis Hrows : (0 < R)%nat.

(** Without thinning, the pixels handed out as edges are those stronger
    than [low_thresh] in the region of a seed. *)
Lemma tracer_output_spec :
  ∃ out, tracer_output cfg img = Ok out ∧ dims out = replicate R C
    ∧ ∀ q, in_range R C q →
        (edge_spec cfg img R C q ∧ cell out (at' q) = 255%Q)
        ∨ (¬ edge_spec cfg img R C q ∧ cell out (at' q) = 0%Q).
Proof.
  pose proof (dims_rect img R C Hdims) as Hrect.
  destruct (threshold_edges_total cfg img R C Hdims Houtline Hborder) as [edges Hthr].
  unfold tracer_output. rewrite Hthr. simpl.
  unfold threshold_edges in Hthr. rewrite threshold_edges_within_phases in Hthr.
  apply bind_Ok in Hthr as (traced & Htrace & Hclear).
  pose proof (trace_seeds_grows cfg _ _ _ _ (dims_zeros_like img) Htrace) as Hg.
  pose proof (grows_dims _ _ _ _ Hg) as HdT. rewrite dims_zeros_like in HdT.
  destruct (clear_provisional_spec img traced Hrect HdT) as (e' & He' & HdE & HcellE).
  rewrite Hclear in He'. injection He' as <-.
  assert (rect edges) as HrE by (by apply (rect_of_dims _ img)).
  destruct (normalise_spec edges HrE) as (out & Hout & HdO & HcellO).
  exists out. split_and!; [done | congruence |].
  pose proof (shape_of_dims edges img HdE) as Hs. unfold shape in Hs.
  injection Hs as Hs1%Nat2Z.inj Hs2%Nat2Z.inj.
  pose proof (shape_dims img R C Hdims Hrows) as Hs. unfold shape in Hs.
  injection Hs as Hs3%Nat2Z.inj Hs4%Nat2Z.inj.
  rewrite Hs1, Hs2, Hs3, Hs4 in HcellO. rewrite Hs3, Hs4 in HcellE.
  intros q [Hr Hc].
  pose proof (traced_visited cfg img R C Hdims Houtline Hborder Hthin Hrows
                _ traced q Htrace (conj Hr Hc)) as Hvis.
  pose proof (traced_value cfg img R C Hdims Houtline Hborder Hthin Hrows
                _ traced (at' q) Htrace) as Hval.
  unfold at' in *. rewrite HcellO, HcellE, Hval by done.
  unfold edge_spec, initial_mark, at'.
  destruct (visited traced (at_ q.1 q.2)) eqn:Hv.
  - destruct (Qltb (low_thresh cfg) (cell img (at_ q.1 q.2))) eqn:Hlow; simpl.
    + left. split; [|done]. split; [done|]. by apply Hvis.
    + right. split; [|done]. by intros [[=] _].
  - simpl. right. split; [|done]. intros [_ Hex]. apply Hvis in Hex. done.
Qed.
End Output.

Lemma filter_length_pointwise (f : Q → bool) (l l' : list Q) :
  length l = length l' →
  (∀ j x y, l !! j = Some x → l' !! j = Some y → f x = true → f y = true) →
  (length (filter (λ v, f v) l) ≤ length (filter (λ v, f v) l'))%nat.
Proof.
  revert l'. induction l as [|x l IH]; intros [|y l'] Hlen Hpt; simpl in *;
    try done.
  rewrite !filter_cons.
  assert (length (filter (λ v, f v) l) ≤ length (filter (λ v, f v) l'))%nat as Hle.
  { apply IH; [lia|]. intros j a b Ha Hb. by apply (Hpt (S j)). }
  specialize (Hpt 0%nat x y eq_refl eq_refl).
  destruct (f x); destruct (f y); simpl; lia.
Qed.

Lemma edge_count_mono (g h : grid) :
  dims g = dims h →
  (∀ p, Qeq_bool (cell g p) 255 = true → Qeq_bool (cell h p) 255 = true) →
  (edge_count g ≤ edge_count h)%nat.
Proof.
  unfold edge_count. revert h.
  induction g as [|l g IH]; intros [|l' h] Hd Hpt; simpl in *; try done.
  injection Hd as Hlen Hd. rewrite !filter_app, !length_app.
  assert (length (filter (λ v, Qeq_bool v 255) l)
          ≤ length (filter (λ v, Qeq_bool v 255) l'))%nat.
  { apply (filter_length_pointwise (λ v, Qeq_bool v 255)); [done|].
    intros j x y Hx Hy. specialize (Hpt (0%nat, j)). unfold cell in Hpt.
    simpl in Hpt. by rewrite Hx, Hy in Hpt. }
  assert (length (filter (λ v, Qeq_bool v 255) (concat g))
          ≤ length (filter (λ v, Qeq_bool v 255) (concat h)))%nat.
  { apply IH; [done|]. intros [i j]. apply (Hpt (S i, j)). }
  lia.
Qed.

Lemma seed_with_high (cfg : Config) (img : grid) (R C : nat) (high1 high2 : Q)
    (s : Z * Z) :
  (high1 <= high2)%Q →
  is_seed (with_high high2 cfg) img R C s → is_seed (with_high high1 cfg) img R C s.
Proof.
  intros Hle (Hin & Hedge & Hhigh & Hnz). split_and!; [done..| |done].
  simpl in *. apply Qltb_lt. apply Qltb_lt in Hhigh.
  by apply (Qle_lt_trans _ high2).
Qed.

(** With [thinFactor <= 1] the re-mark is never reached:
    [level % 1 != 0] is false at every level. *)
Lemma demote_small (cfg : Config) (level nce : Z) :
  thinFactor cfg ≤ 1 → demote cfg level nce = false.
Proof.
  intros Hthin. unfold demote. rewrite !andb_false_iff, !bool_decide_eq_false.
  destruct (decide (thinFactor cfg = 1)) as [->|]; [|lia].
  rewrite Z.mod_1_r. right. lia.
Qed.

Lemma mark_connected_small_thin (cfg cfg' : Config) (d : nat) (row col level : Z)
    (img e : grid) :
  low_thresh cfg = low_thresh cfg' → thinFactor cfg ≤ 1 → thinFactor cfg' ≤ 1 →
  mark_connected cfg d row col level img e = mark_connected cfg' d row col level img e.
Proof.
  intros Hlow Hthin Hthin'. revert row col level e.
  induction d as [|d IH]; intros row col level e; [done|].
  rewrite !mark_connected_S.
  apply bind_ext. intros v. destruct (negb (Qeq_bool v 0)); [done|].
  apply bind_ext. intros w. destruct (Qeq_bool w 0); [done|].
  unfold initial_mark. rewrite Hlow. apply bind_ext. intros e1.
  rewrite (for_each_ext neighbours _ (neighbour_step cfg' d row col level img)).
  - apply bind_ext. intros [eN nce]. by rewrite !demote_small.
  - intros dd [e2 n2] _. unfold neighbour_step. simpl. by rewrite IH.
Qed.

Lemma threshold_edges_small_thin (cfg cfg' : Config) (img : grid) :
  outline cfg = outline cfg' → high_thresh cfg = high_thresh cfg' →
  low_thresh cfg = low_thresh cfg' → thinFactor cfg ≤ 1 → thinFactor cfg' ≤ 1 →
  threshold_edges cfg img = threshold_edges cfg' img.
Proof.
  intros Hout Hhigh Hlow Hthin Hthin'. unfold threshold_edges.
  rewrite !threshold_edges_within_phases, !trace_seeds_pixels.
  rewrite (for_each_ext _ _ (seed_step cfg' (depth_budget img) img)); [done|].
  intros p e _. unfold seed_step, isEdge. rewrite Hout, Hhigh.
  destruct (_ || _); [done|]. apply bind_ext. intros v.
  destruct (Qltb _ _); [|done].
  by rewrite (mark_connected_small_thin cfg cfg').
Qed.

(** The monotonicity in [high_thresh], for a run without thinning. *)
Lemma raising_high_thresh_without_thinning (cfg : Config) (img : grid)
    (high1 high2 : Q) :
  rect img → 1 ≤ outline cfg → zero_border cfg img → thinFactor cfg ≤ 0 →
  (high1 <= high2)%Q →
  ∃ out1 out2,
    tracer_output (with_high high1 cfg) img = Ok out1
    ∧ tracer_output (with_high high2 cfg) img = Ok out2
    ∧ (∀ row col v, get2 out2 row col = Ok v → (v == 255)%Q →
         ∃ v', get2 out1 row col = Ok v' ∧ (v' == 255)%Q)
    ∧ (edge_count out2 ≤ edge_count out1)%nat.
Proof.
  intros Hrect%rect_dims Hout Hborder Hthin Hle.
  set (R := length img) in *. set (C := length (hd [] img)) in *.
  destruct (decide (R = 0)%nat) as [HR|HR].
  { assert (img = []) as -> by (apply length_zero_iff_nil; exact HR).
    exists [], []. split_and!; [reflexivity | reflexivity | | reflexivity].
    intros row col v Hget. unfold get2, getitem in Hget. simpl in Hget.
    destruct (py_index 0 row) eqn:E; [apply py_index_lt in E; lia | done]. }
  destruct (tracer_output_spec (with_high high1 cfg) img R C)
    as (out1 & Hout1 & Hd1 & Hspec1); [done..|lia|].
  destruct (tracer_output_spec (with_high high2 cfg) img R C)
    as (out2 & Hout2 & Hd2 & Hspec2); [done..|lia|].
  assert (∀ q, in_range R C q →
            Qeq_bool (cell out2 (at' q)) 255 = true →
            cell out1 (at' q) = 255%Q) as Hsub.
  { intros q Hq H255.
    destruct (Hspec2 q Hq) as [[[Hlow (s & Hs & Hconn)] _]|[_ H0]];
      [|by rewrite H0 in H255].
    destruct (Hspec1 q Hq) as [[_ H1]|[Hno _]]; [done|].
    destruct Hno. split; [done|]. exists s. split; [|done].
    by apply (seed_with_high cfg img R C high1 high2). }
  exists out1, out2. split_and!; [done..| |].
  - intros row col v (p & Hp & <-)%get2_Ok H255.
    pose proof (locate_valid _ _ _ _ Hp) as Hval. rewrite Hd2 in Hval.
    apply valid_is_at in Hval as (r & c & -> & Hr & Hc).
    exists (cell out1 (at_ r c)). split.
    + apply get2_Ok. exists (at_ r c). split; [congruence | done].
    + change (at_ r c) with (at' (r, c)) in *.
      rewrite (Hsub (r, c)); [done | done |]. by apply Qeq_bool_iff.
  - apply edge_count_mono; [congruence|]. intros p H255.
    destruct (decide ((p.1 < R)%nat ∧ (p.2 < C)%nat)) as [Hval|Hinv].
    + apply valid_replicate, valid_is_at in Hval as (r & c & -> & Hr & Hc).
      change (at_ r c) with (at' (r, c)) in *. by rewrite (Hsub (r, c)).
    + rewrite cell_invalid in H255; [done|].
      rewrite Hd2. by intros ?%valid_replicate.
Qed.

(** C7, as the code has it.  Take a rectangular strength grid that is 0 on
    the border margin, with [outline >= 1], and a thinning factor that
    thins nothing ([thinFactor <= 1]: the re-mark needs [thinFactor > 0] and
    [level mod thinFactor != 0]).  For all thresholds [high1 <= high2], all
    other configuration values held fixed, the tracer returns with both,
    every pixel that is a confirmed edge (255) in the output for [high2] is
    one in the output for [high1], and so the number of confirmed-edge
    pixels for [high2] is at most the number for [high1]. *)
Theorem raising_high_thresh_removes_edges (cfg : Config) (img : grid)
    (high1 high2 : Q) :
  rect img → 1 ≤ outline cfg → zero_border cfg img → thinFactor cfg ≤ 1 →
  (high1 <= high2)%Q →
  ∃ out1 out2,
    tracer_output (with_high high1 cfg) img = Ok out1
    ∧ tracer_output (with_high high2 cfg) img = Ok out2
    ∧ (∀ row col v, get2 out2 row col = Ok v → (v == 255)%Q →
         ∃ v', get2 out1 row col = Ok v' ∧ (v' == 255)%Q)
    ∧ (edge_count out2 ≤ edge_count out1)%nat.
Proof.
  intros Hrect Hout Hborder Hthin Hle.
  assert (∀ high, tracer_output (with_high high cfg) img
                  = tracer_output (with_high high (with_thin 0 cfg)) img) as Hoff.
  { intros high. unfold tracer_output.
    rewrite (threshold_edges_small_thin (with_high high cfg)
               (with_high high (with_thin 0 cfg))); simpl; (done || lia). }
  rewrite !Hoff.
  apply (raising_high_thresh_without_thinning (with_thin 0 cfg) img high1 high2);
    simpl; (done || lia).
Qed.

Lemma raising_high_thresh_removes_edges_witness :
  ∃ out1 out2,
    tracer_output (with_high 2 (tracer_config 0 2 true 1)) chain = Ok out1
    ∧ tracer_output (with_high 4 (tracer_config 0 2 true 1)) chain = Ok out2
    ∧ (edge_count out2 ≤ edge_count out1)%nat.
Proof.
  destruct (raising_high_thresh_removes_edges (tracer_config 0 2 true 1) chain 2 4)
    as (out1 & out2 & H1 & H2 & _ & Hcount).
  - by repeat constructor.
  - simpl. lia.
  - intros row col Hr Hc. simpl in Hr, Hc.
    assert (row = 0 ∨ row = 1 ∨ row = 2) as Hrow by lia.
    assert (col = 0 ∨ col = 1 ∨ col = 2 ∨ col = 3 ∨ col = 4) as Hcol by lia.
    destruct Hrow as [->|[->| ->]]; destruct Hcol as [->|[->|[->|[->| ->]]]];
      vm_compute; intros H; (reflexivity || discriminate H).
  - simpl. lia.
  - by vm_compute.
  - by exists out1, out2.
Defined.

(** C7 as stated fails.  With hysteresis enabled, [low_thresh = 0] and
    [thinFactor = 2] on [chain], raising [high_thresh] from 2 to 4 moves the
    seed from the left end of the chain to its middle: the traversal from
    the left end demotes the middle pixel (level 1), the traversal from the
    middle demotes nothing, and the number of confirmed-edge pixels goes
    from 2 to 3. *)
Lemma raising_high_thresh_adds_edges :
  (2 <= 4)%Q
  ∧ tracer_output (with_high 2 (tracer_config 0 2 true 2)) chain
    = Ok [ [0; 0; 0; 0; 0]; [0; 255; 0; 255; 0]; [0; 0; 0; 0; 0] ]%Q
  ∧ tracer_output (with_high 4 (tracer_config 0 2 true 2)) chain
    = Ok [ [0; 0; 0; 0; 0]; [0; 255; 255; 255; 0]; [0; 0; 0; 0; 0] ]%Q
  ∧ edge_count [ [0; 0; 0; 0; 0]; [0; 255; 0; 255; 0]; [0; 0; 0; 0; 0] ]%Q = 2%nat
  ∧ edge_count [ [0; 0; 0; 0; 0]; [0; 255; 255; 255; 0]; [0; 0; 0; 0; 0] ]%Q = 3%nat.
Proof. split_and!; by vm_compute. Qed.

(** ** A grid without candidates *)

Lemma threshold_edges_zero (cfg : Config) (img : grid) :
  rect img → 1 ≤ outline cfg → (∀ p, cell img p = 0%Q) →
  threshold_edges cfg img = Ok (zeros_like img).
Proof.
  intros Hrect Hout Hzero. pose proof (rect_dims img Hrect) as Hdims.
  set (R := length img) in *. set (C := length (hd [] img)) in *.
  destruct (decide (R = 0)%nat) as [HR|HR].
  { assert (img = []) as -> by (apply nil_length_inv; exact HR). reflexivity. }
  assert (zero_border cfg img) as Hborder.
  { intros row col Hr Hc _. rewrite (shape_dims img R C) in Hr, Hc by (done || lia).
    by rewrite (get2_at img R C), Hzero. }
  destruct (threshold_edges_total cfg img R C Hdims Hout Hborder) as [edges Hthr].
  rewrite Hthr. f_equal.
  unfold threshold_edges in Hthr. rewrite threshold_edges_within_phases in Hthr.
  apply bind_Ok in Hthr as (traced & Htrace & Hclear).
  pose proof (trace_seeds_grows cfg _ _ _ _ (dims_zeros_like img) Htrace) as Hg.
  pose proof (grows_dims _ _ _ _ Hg) as HdT. rewrite dims_zeros_like in HdT.
  destruct (clear_provisional_spec img traced Hrect HdT) as (e' & He' & HdE & HcellE).
  rewrite Hclear in He'. injection He' as <-.
  apply grid_eq; [by rewrite dims_zeros_like|].
  intros p Hp. rewrite HdE, Hdims in Hp.
  apply valid_is_at in Hp as (r & c & -> & Hr & Hc).
  rewrite HcellE, cell_zeros_like by done.
  destruct Hg as [_ Hg]. destruct (Hg (at_ r c)) as [Heq|(_ & _ & Hnz & _)].
  - rewrite Heq, cell_zeros_like. done.
  - unfold nonzero in Hnz. by rewrite Hzero in Hnz.
Qed.

(** ** Loops over an array of a known shape *)

Lemma elem_of_range_down (a b k : Z) : k ∈ range_down a b ↔ b < k ≤ a.
Proof. unfold range_down. rewrite elem_of_reverse, elem_of_seqZ. lia. Qed.

Lemma cell_upd_either (g : grid) (p q : nat * nat) (v : Q) :
  cell (upd g p v) q = v ∨ cell (upd g p v) q = cell g q.
Proof.
  destruct (decide (p = q)) as [<-|Hne]; [|right; by apply cell_upd_ne].
  unfold cell, upd. rewrite list_lookup_alter_eq.
  destruct (g !! p.1) as [line|]; simpl; [|by right].
  destruct (decide (p.2 < length line)%nat) as [Hlt|Hge].
  - left. by rewrite list_lookup_insert_eq.
  - right. by rewrite list_insert_ge by lia.
Qed.

(** Reads and writes inside an [R] by [C] array succeed. *)
Ltac run_body R C :=
  repeat first
    [ rewrite (get2_at _ R C) by (first [done | lia])
    | rewrite (set2_at _ R C) by (first [done | lia])
    | progress mstep ].

(** Run the loop at the head of the goal under the invariant [I]. *)
Tactic Notation "head_loop" constr(I) "as_pat" simple_intropattern(pat) :=
  match goal with
  | |- ∃ _, (for_each ?xs ?body ?s0 ≫= _) = _ ∧ _ =>
      destruct (for_each_total I xs body) with (s := s0) as pat
  end.

(** ** A grid without zero crossings *)

Lemma dims_replicate (R C : nat) (v : Q) :
  dims (replicate R (replicate C v)) = replicate R C.
Proof. unfold dims. by rewrite fmap_replicate, length_replicate. Qed.

Lemma cell_replicate (R C : nat) (v : Q) (p : nat * nat) :
  valid (replicate R C) p → cell (replicate R (replicate C v)) p = v.
Proof.
  intros [Hr Hc]%valid_replicate. unfold cell.
  rewrite lookup_replicate_2 by done. simpl. by rewrite lookup_replicate_2.
Qed.

(** An [R] by [C] array that holds [v] everywhere. *)
Lemma flat_eq (g : grid) (R C : nat) (v : Q) :
  dims g = replicate R C → (∀ p, valid (replicate R C) p → cell g p = v) →
  g = replicate R (replicate C v).
Proof.
  intros Hd Hcell. apply grid_eq; [by rewrite dims_replicate|].
  intros p Hp. rewrite Hd in Hp. by rewrite Hcell, cell_replicate.
Qed.

Lemma zeros_like_replicate (g : grid) (R C : nat) :
  dims g = replicate R C → zeros_like g = replicate R (replicate C 0%Q).
Proof.
  intros Hd. apply flat_eq; [by rewrite dims_zeros_like|].
  intros p _. apply cell_zeros_like.
Qed.

Lemma normalise_zeros (R C : nat) :
  normalise (replicate R (replicate C 0%Q)) = Ok (replicate R (replicate C 0%Q)).
Proof.
  set (zeros := replicate R (replicate C 0%Q)).
  pose proof (dims_replicate R C 0) as Hd. fold zeros in Hd.
  destruct (normalise_spec zeros (dims_rect zeros R C Hd)) as (e & -> & Hde & Hcell).
  f_equal. apply flat_eq; [congruence|].
  intros p Hp. pose proof (rect_dims zeros (dims_rect zeros R C Hd)) as Hrd.
  rewrite Hd in Hrd. 
  apply valid_is_at in Hp as (r & c & -> & Hr & Hc).
  assert (length zeros = R) as HlR by (unfold zeros; apply length_replicate).
  destruct (decide (R = 0)%nat) as [->|HR]; [lia|].
  assert (length (hd [] zeros) = C) as HlC.
  { unfold zeros. destruct R; [done|]. simpl. apply length_replicate. }
  rewrite Hcell by (rewrite ?HlR, ?HlC; done).
  unfold zeros. rewrite cell_replicate by (by apply valid_at). done.
Qed.

(** C8.  On the 10 by 10 grid in which every pixel is 100, with
    [outline = 2] and the notebook's other constants ([s_factor = 0.9],
    [window_size = 6], both thresholds 2, no hysteresis, no thinning),
    [shenCastan] returns the all-zero grid: the locator finds no candidate,
    so the strength grid is 0, no traversal is started and the
    normalisation leaves zeros. *)
Theorem uniform_grid_has_no_edges :
  shenCastan (with_outline 2 notebook_config) (replicate 10 (replicate 10 100%Q))
  = Ok (replicate 10 (replicate 10 0%Q)).
Proof.
  set (cfg := with_outline 2 notebook_config).
  set (img := replicate 10 (replicate 10 100%Q)).
  assert ((imgISEF ← getISEF cfg img; imgBLI ← getBLI img imgISEF;
           locateZc cfg imgISEF imgBLI) = Ok (zeros_like img)) as Hzc
    by (by vm_compute).
  rewrite shenCastan_phases. revert Hzc.
  destruct (getISEF cfg img) as [imgISEF|]; mstep; [|done].
  destruct (getBLI img imgISEF) as [imgBLI|]; mstep; [|done].
  intros ->. mstep.
  rewrite threshold_edges_zero;
    [|by repeat constructor | by vm_compute | apply cell_zeros_like].
  mstep. apply (normalise_zeros 10 10).
Qed.

(** * Further properties of the smoothing filter *)

Lemma cells_satisfy_upd (R C : nat) (P : Q → Prop) (g : grid) (p : nat * nat) (v : Q) :
  cells_satisfy R C P g → P v → cells_satisfy R C P (upd g p v).
Proof.
  intros [Hd Hg] Hv. split; [by rewrite dims_upd|].
  intros q. destruct (cell_upd_either g p q v) as [-> | ->]; [done | apply Hg].
Qed.

Lemma cells_satisfy_zeros (R C : nat) (P : Q → Prop) (g : grid) :
  dims g = replicate R C → P 0%Q → cells_satisfy R C P (zeros_like g).
Proof.
  intros Hd HP. split; [by rewrite dims_zeros_like|].
  intros p. by rewrite cell_zeros_like.
Qed.

(** The loops of [getISEF] under three predicates: [P] on the samples of
    the image, of the intermediate grid and of the result, [PA] and [PB] on
    the causal and the anti-causal components. *)
Section SmoothingInvariant.
Context (cfg : Config) (img : grid) (R C : nat) (b1 : Q) (P PA PB : Q → Prop).
Hypothesis Hdims : dims img = replicate R C.
Hypothesis HR : (0 < R)%nat.
Hypothesis HC : (0 < C)%nat.
Hypothesis Hb1 : checked_div (1 - s_factor cfg) (1 + s_factor cfg) = Ok b1.
Hypothesis HP0 : P 0%Q.
Hypothesis HA0 : PA 0%Q.
Hypothesis HB0 : PB 0%Q.
Hypothesis Himg : ∀ p, P (cell img p).
Hypothesis Hcs : ∀ x, P x → PA (b1 * x)%Q.
Hypothesis Hct : ∀ x y, P x → PA y → PA (b1 * x + s_factor cfg * y)%Q.
Hypothesis Has : ∀ x, P x → PB (s_factor cfg * b1 * x)%Q.
Hypothesis Hat : ∀ x y, P x → PB y → PB (s_factor cfg * b1 * x + s_factor cfg * y)%Q.
Hypothesis Hlast : ∀ a, PA a → P a.
Hypothesis Hsum : ∀ a b, PA a → PB b → P (a + b)%Q.

Lemma getISEF_cells :
  ∃ result, getISEF cfg img = Ok result ∧ cells_satisfy R C P result.
Proof.
  unfold getISEF. rewrite (shape_dims img R C) by done. rewrite Hb1.
  mstep.
  head_loop (λ st, cells_satisfy R C PA st.1 ∧ cells_satisfy R C PB st.2)
    as_pat ([casual0 anti0] & -> & Hc0 & Ha0).
  { intros col [c a] Hcol%elem_of_range [[Hdc Hbc] [Hda Hba]]. simpl in *.
    run_body R C. eexists. split; [reflexivity|]. simpl.
    split; apply cells_satisfy_upd; (done || auto). }
  { split; by apply cells_satisfy_zeros. }
  mstep. simpl in Hc0, Ha0.
  head_loop (cells_satisfy R C PA) as_pat (casual1 & -> & Hc1); [|done|].
  { intros row g Hrow%elem_of_range Hg. apply for_each_total; [|done].
    intros col h Hcol%elem_of_range [Hdh Hbh].
    run_body R C. eexists. split; [reflexivity|].
    apply cells_satisfy_upd; [done|]. apply Hct; [apply Himg | apply Hbh]. }
  mstep.
  head_loop (cells_satisfy R C PB) as_pat (anti1 & -> & Ha1); [|done|].
  { intros row g Hrow%elem_of_range_down Hg. apply for_each_total; [|done].
    intros col h Hcol%elem_of_range [Hdh Hbh].
    run_body R C. eexists. split; [reflexivity|].
    apply cells_satisfy_upd; [done|]. apply Hat; [apply Himg | apply Hbh]. }
  mstep. destruct Hc1 as [Hdc1 Hbc1]. destruct Ha1 as [Hda1 Hba1].
  head_loop (cells_satisfy R C P) as_pat (fp1 & -> & Hfp1);
    [|by apply cells_satisfy_zeros|].
  { intros col h Hcol%elem_of_range [Hdh Hbh].
    run_body R C. eexists. split; [reflexivity|].
    apply cells_satisfy_upd; [done|]. apply Hlast, Hbc1. }
  mstep.
  head_loop (cells_satisfy R C P) as_pat (fp & -> & [Hdfp Hbfp]); [|done|].
  { intros row g Hrow%elem_of_range Hg. apply for_each_total; [|done].
    intros col h Hcol%elem_of_range [Hdh Hbh].
    run_body R C. eexists. split; [reflexivity|].
    apply cells_satisfy_upd; [done|]. apply Hsum; [apply Hbc1 | apply Hba1]. }
  mstep.
  head_loop (λ st, cells_satisfy R C PA st.1 ∧ cells_satisfy R C PB st.2)
    as_pat ([casual2 anti2] & -> & Hc2 & Ha2); [|done|].
  { intros row [c a] Hrow%elem_of_range [[Hdc Hbc] [Hda Hba]]. simpl in *.
    run_body R C. eexists. split; [reflexivity|]. simpl.
    split; apply cells_satisfy_upd; (done || auto). }
  mstep. simpl in Hc2, Ha2.
  head_loop (cells_satisfy R C PA) as_pat (casual3 & -> & [Hdc3 Hbc3]); [|done|].
  { intros col g Hcol%elem_of_range Hg. apply for_each_total; [|done].
    intros row h Hrow%elem_of_range [Hdh Hbh].
    run_body R C. eexists. split; [reflexivity|].
    apply cells_satisfy_upd; [done|]. apply Hct; [apply Hbfp | apply Hbh]. }
  mstep.
  head_loop (cells_satisfy R C PB) as_pat (anti3 & -> & [Hda3 Hba3]); [|done|].
  { intros col g Hcol%elem_of_range_down Hg. apply for_each_total; [|done].
    intros row h Hrow%elem_of_range [Hdh Hbh].
    run_body R C. eexists. split; [reflexivity|].
    apply cells_satisfy_upd; [done|]. apply Hat; [apply Hbfp | apply Hbh]. }
  mstep.
  head_loop (cells_satisfy R C P) as_pat (res1 & -> & Hres1); [|done|].
  { intros row h Hrow%elem_of_range [Hdh Hbh].
    run_body R C. eexists. split; [reflexivity|].
    apply cells_satisfy_upd; [done|]. apply Hlast, Hbc3. }
  mstep.
  apply for_each_total; [|done].
  intros row g Hrow%elem_of_range Hg. apply for_each_total; [|done].
  intros col h Hcol%elem_of_range [Hdh Hbh].
  run_body R C. eexists. split; [reflexivity|].
  apply cells_satisfy_upd; [done|]. apply Hsum; [apply Hbc3 | apply Hba3].
Qed.
End SmoothingInvariant.

(** ** Reads and cells *)

(** Every value read from a grid is one of its entries. *)
Lemma reads_Forall (P : Q → Prop) (g : grid) :
  Forall (Forall P) g → ∀ row col v, get2 g row col = Ok v → P v.
Proof.
  intros Hall row col v (p & Hp & <-)%get2_Ok. apply locate_valid in Hp.
  destruct Hp as (n & Hn & Hlt). unfold dims in Hn.
  rewrite list_lookup_fmap in Hn. unfold cell.
  destruct (g !! p.1) as [line|] eqn:Hline; [|done]. simpl in *.
  injection Hn as <-. destruct (lookup_lt_is_Some_2 line p.2 Hlt) as [x Hx].
  rewrite Hx. simpl. rewrite Forall_lookup in Hall.
  specialize (Hall _ _ Hline). rewrite Forall_lookup in Hall. by apply (Hall p.2).
Qed.

(** [getISEF] returns on every non-empty rectangular image, unless the
    smoothing factor is [-1]. *)
Lemma getISEF_total (cfg : Config) (img : grid) (R C : nat) :
  dims img = replicate R C → (0 < R)%nat → (0 < C)%nat →
  ¬ (s_factor cfg == -1)%Q →
  ∃ result, getISEF cfg img = Ok result ∧ dims result = replicate R C.
Proof.
  intros Hdims HR HC Hs.
  destruct (checked_div (1 - s_factor cfg) (1 + s_factor cfg)) as [b1|] eqn:Hb1.
  2: { unfold checked_div in Hb1.
       destruct (Qeq_bool (1 + s_factor cfg) 0) eqn:E; [|done].
       apply Qeq_bool_iff in E. destruct Hs. lra. }
  destruct (getISEF_cells cfg img R C b1 (λ _, True) (λ _, True) (λ _, True))
    as (result & Hrun & Hd & _); try done.
  by exists result.
Qed.

(** X1.  On a non-empty rectangular image [getISEF] returns a grid of the
    same shape, for every smoothing factor but [-1]; at [s_factor = -1] the
    division that computes [b1] raises [ZeroDivisionError] before any
    sample is read. *)
Theorem getISEF_returns (cfg : Config) (img : grid) (R C : nat) :
  dims img = replicate R C → (0 < R)%nat → (0 < C)%nat →
  ((s_factor cfg == -1)%Q → getISEF cfg img = Raise ZeroDivisionError)
  ∧ (¬ (s_factor cfg == -1)%Q →
     ∃ result, getISEF cfg img = Ok result ∧ dims result = dims img).
Proof.
  intros Hdims HR HC. split.
  - intros Hs. unfold getISEF, checked_div. destruct (shape img) as [rows columns].
    assert (Qeq_bool (1 + s_factor cfg) 0 = true) as ->; [|done].
    apply Qeq_bool_iff. lra.
  - intros Hs.
    destruct (getISEF_total cfg img R C Hdims HR HC Hs) as (result & Hrun & Hd).
    exists result. split; [done | congruence].
Qed.

Lemma getISEF_returns_witness :
  ∃ result, getISEF notebook_config ones3 = Ok result ∧ dims result = dims ones3.
Proof.
  destruct (getISEF_returns notebook_config ones3 3 3) as [_ Hret];
    [reflexivity | lia | lia |].
  apply Hret. by vm_compute.
Defined.

(** ** The row that the first pass skips *)

(** Totality with an invariant that may mention the elements already
    processed. *)
Lemma for_each_prefix_total {A S : Type} (I : list A → S → Prop) (xs : list A)
    (body : A → S → res S) :
  (∀ pre x s, pre ++ [x] `prefix_of` xs → I pre s →
     ∃ s', body x s = Ok s' ∧ I (pre ++ [x]) s') →
  ∀ s, I [] s → ∃ s', for_each xs body s = Ok s' ∧ I xs s'.
Proof.
  induction xs as [|x xs IH] using rev_ind; intros Hbody s Hs.
  - by exists s.
  - destruct (IH) with (s := s) as (s1 & Hrun & Hs1); [|done|].
    { intros pre y t Hpre. apply Hbody. etrans; [done|]. by apply prefix_app_r. }
    destruct (Hbody xs x s1) as (s2 & Hrun2 & Hs2); [done..|].
    exists s2. split; [|done]. rewrite for_each_app, Hrun. simpl. by rewrite Hrun2.
Qed.

Lemma prefix_of_seqZ (pre : list Z) (x a n : Z) :
  pre ++ [x] `prefix_of` seqZ a n → a ≤ x < a + n ∧ ∀ k, k ∈ pre ↔ a ≤ k < x.
Proof.
  intros [post Heq].
  assert (seqZ a n !! length pre = Some x) as Hx.
  { rewrite Heq, <- app_assoc, lookup_app_r by lia. by rewrite Nat.sub_diag. }
  apply lookup_seqZ in Hx as [-> Hn]. split; [lia|]. intros k.
  rewrite list_elem_of_lookup. split.
  - intros [i Hi]. pose proof (lookup_lt_Some _ _ _ Hi) as Hlt.
    assert (seqZ a n !! i = Some k) as Hk.
    { by rewrite Heq, <- app_assoc, lookup_app_l. }
    apply lookup_seqZ in Hk as [-> _]. lia.
  - intros Hk. exists (Z.to_nat (k - a)).
    assert (seqZ a n !! Z.to_nat (k - a) = Some k) as Hl.
    { apply lookup_seqZ. lia. }
    rewrite Heq, <- app_assoc, lookup_app_l in Hl by lia. done.
Qed.

Lemma prefix_of_range (pre : list Z) (x a b : Z) :
  pre ++ [x] `prefix_of` range a b → a ≤ x < b ∧ ∀ k, k ∈ pre ↔ a ≤ k < x.
Proof. intros H%prefix_of_seqZ. destruct H as [? ?]. split; [lia | done]. Qed.

Lemma prefix_of_range_down (pre : list Z) (x a b : Z) :
  pre ++ [x] `prefix_of` range_down a b → b < x ≤ a ∧ ∀ k, k ∈ pre ↔ x < k ≤ a.
Proof.
  unfold range_down. intros [post Heq].
  apply (f_equal reverse) in Heq. rewrite reverse_involutive in Heq.
  rewrite !reverse_app, reverse_singleton in Heq.
  set (m := length (reverse post)).
  assert (seqZ (b + 1) (a - b) !! m = Some x) as Hx.
  { rewrite Heq, lookup_app_r by (unfold m; lia).
    fold m. by rewrite Nat.sub_diag. }
  apply lookup_seqZ in Hx as [-> Hm].
  assert (Z.to_nat (a - b) = (m + 1 + length pre)%nat) as Hlen.
  { rewrite <- (length_seqZ (b + 1) (a - b)), Heq, !length_app. fold m.
    rewrite length_reverse. simpl. lia. }
  split; [lia|]. intros k. rewrite <- elem_of_reverse, list_elem_of_lookup. split.
  - intros [j Hj]. pose proof (lookup_lt_Some _ _ _ Hj) as Hlt.
    rewrite length_reverse in Hlt.
    assert (seqZ (b + 1) (a - b) !! (m + 1 + j)%nat = Some k) as Hk.
    { rewrite Heq, lookup_app_r by (fold m; lia). fold m.
      replace (m + 1 + j - m)%nat with (S j) by lia. done. }
    apply lookup_seqZ in Hk as [-> _]. lia.
  - intros Hk. exists (Z.to_nat (k - (b + 1 + Z.of_nat m) - 1)).
    set (j := Z.to_nat (k - (b + 1 + Z.of_nat m) - 1)).
    assert (seqZ (b + 1) (a - b) !! (m + 1 + j)%nat = Some k) as Hl.
    { apply lookup_seqZ. unfold j. lia. }
    rewrite Heq, lookup_app_r in Hl by (fold m; lia). fold m in Hl.
    replace (m + 1 + j - m)%nat with (S j) in Hl by lia. done.
Qed.

(** Run the loop at the head of the goal under an invariant [I] of the
    iterations made so far. *)
Tactic Notation "head_prefix_loop" constr(I) "as_pat" simple_intropattern(pat) :=
  match goal with
  | |- ∃ _, (for_each ?xs ?body ?s0 ≫= _) = _ ∧ _ =>
      destruct (for_each_prefix_total I xs body) with (s := s0) as pat
  end.

Lemma upd_keeps_zero (g : grid) (R C : nat) (row col r c : Z) (v : Q) :
  dims g = replicate R C → 0 ≤ row < Z.of_nat R → 0 ≤ col < Z.of_nat C →
  0 ≤ r → 0 ≤ c →
  (row = r → col = c → v == 0)%Q →
  (¬ (row = r ∧ col = c) → cell g (at_ r c) == 0)%Q →
  (cell (upd g (at_ row col) v) (at_ r c) == 0)%Q.
Proof.
  intros Hd Hrow Hcol Hr Hc Hv Hold.
  rewrite cell_upd by (rewrite Hd; by apply valid_at).
  case_decide as Heq.
  - apply at_inj in Heq as [-> ->]; [by apply Hv | lia..].
  - apply Hold. intros [-> ->]. done.
Qed.

Lemma zero_in_row_upd (g : grid) (R C : nat) (row col r : Z) (sel : Z → Prop) (v : Q) :
  dims g = replicate R C → 0 ≤ row < Z.of_nat R → 0 ≤ col < Z.of_nat C → 0 ≤ r →
  zero_in_row r sel g → (row = r → v == 0)%Q →
  zero_in_row r sel (upd g (at_ row col) v).
Proof.
  intros Hd Hrow Hcol Hr Hg Hv c Hc Hsel.
  apply (upd_keeps_zero g R C); [done..| |].
  - intros Heq _. by apply Hv.
  - intros _. by apply Hg.
Qed.

Lemma elem_of_snoc_ne (pre : list Z) (x y : Z) : y ∈ pre ++ [x] → x ≠ y → y ∈ pre.
Proof. intros [?| ->%list_elem_of_singleton]%elem_of_app ?; done. Qed.

Lemma zero_step (a b x y : Q) : (x == 0 → y == 0 → a * x + b * y == 0)%Q.
Proof. intros -> ->. ring. Qed.

Lemma zero_seed (a x : Q) : (x == 0 → a * x == 0)%Q.
Proof. intros ->. ring. Qed.

Lemma zero_sum (x y : Q) : (x == 0 → y == 0 → x + y == 0)%Q.
Proof. intros -> ->. ring. Qed.

Section SkippedRow.
Context (cfg : Config) (img : grid) (R C : nat) (b1 : Q).
Hypothesis Hdims : dims img = replicate R C.
Hypothesis HR : (2 ≤ R)%nat.
Hypothesis HC : (0 < C)%nat.
Hypothesis Hb1 : checked_div (1 - s_factor cfg) (1 + s_factor cfg) = Ok b1.

Lemma getISEF_row_zero :
  ∃ result, getISEF cfg img = Ok result
    ∧ dims result = replicate R C
    ∧ zero_in_row (Z.of_nat R - 2) (λ _, True) result.
Proof.
  unfold getISEF. rewrite (shape_dims img R C) by (done || lia). rewrite Hb1.
  mstep.
  set (r0 := Z.of_nat R - 2).
  set (shaped := λ g : grid, dims g = replicate R C).
  assert (shaped (zeros_like img)) as Hz by (unfold shaped; by rewrite dims_zeros_like).
  (* the first pass *)
  head_loop (λ st : grid * grid, shaped st.1 ∧ shaped st.2)
    as_pat ([casual0 anti0] & -> & Hc0 & Ha0); [|done|].
  { intros col [c a] Hcol%elem_of_range [Hdc Hda]. simpl in *. unfold shaped in *.
    run_body R C. eexists. split; [reflexivity|]. simpl. by rewrite !dims_upd. }
  mstep. simpl in Hc0, Ha0.
  head_loop shaped as_pat (casual1 & -> & Hc1); [|done|].
  { intros row g Hrow%elem_of_range Hg. apply for_each_total; [|done].
    intros col h Hcol%elem_of_range Hdh. unfold shaped in *.
    run_body R C. eexists. split; [reflexivity|]. by rewrite dims_upd. }
  mstep.
  head_loop shaped as_pat (anti1 & -> & Ha1); [|done|].
  { intros row g Hrow%elem_of_range_down Hg. apply for_each_total; [|done].
    intros col h Hcol%elem_of_range Hdh. unfold shaped in *.
    run_body R C. eexists. split; [reflexivity|]. by rewrite dims_upd. }
  mstep. unfold shaped in Hc1, Ha1.
  head_loop (λ g, dims g = replicate R C ∧ zero_in_row r0 (λ _, True) g)
    as_pat (fp1 & -> & Hfp1).
  { intros col h Hcol%elem_of_range [Hdh Hzh].
    run_body R C. eexists. split; [reflexivity|]. split; [by rewrite dims_upd|].
    apply (zero_in_row_upd h R C); [done | lia | lia | lia | done | lia]. }
  { split; [done|]. intros c _ _. by rewrite cell_zeros_like. }
  mstep.
  head_loop (λ g, dims g = replicate R C ∧ zero_in_row r0 (λ _, True) g)
    as_pat (fp & -> & [Hdfp Hzfp]); [|done|].
  { intros row g Hrow%elem_of_range Hg. apply for_each_total; [|done].
    intros col h Hcol%elem_of_range [Hdh Hzh].
    run_body R C. eexists. split; [reflexivity|]. split; [by rewrite dims_upd|].
    apply (zero_in_row_upd h R C); [done | lia | lia | lia | done | lia]. }
  mstep.
  assert (0 ≤ r0 < Z.of_nat R) as Hr0 by (unfold r0; lia).
  (* the second pass: boundaries *)
  head_prefix_loop (λ (pre : list Z) (st : grid * grid),
      dims st.1 = replicate R C ∧ dims st.2 = replicate R C
      ∧ (r0 ∈ pre → (cell st.1 (at_ r0 0) == 0)%Q
                    ∧ (cell st.2 (at_ r0 (Z.of_nat C - 1)) == 0)%Q))
    as_pat ([casual2 anti2] & -> & Hdc2 & Hda2 & Hz2).
  { intros pre row [c a] [Hrow _]%prefix_of_range (Hdc & Hda & Hold). simpl in *.
    run_body R C. eexists. split; [reflexivity|]. simpl.
    rewrite !dims_upd. split_and!; [done..|].
    intros Hin. split.
    - apply (upd_keeps_zero c R C); [done | lia..| |].
      + intros -> _. apply zero_seed, Hzfp; [lia | done].
      + intros Hne. apply Hold, (elem_of_snoc_ne pre row); [done | lia].
    - apply (upd_keeps_zero a R C); [done | lia..| |].
      + intros -> _. apply zero_seed, Hzfp; [lia | done].
      + intros Hne. apply Hold, (elem_of_snoc_ne pre row); [done | lia]. }
  { simpl. split_and!; [done..|]. set_solver. }
  mstep. simpl in Hdc2, Hda2, Hz2.
  destruct Hz2 as [Hzc2 Hza2]; [apply elem_of_range; lia|].
  (* the causal component *)
  head_prefix_loop (λ (pre : list Z) (g : grid),
      dims g = replicate R C ∧ zero_in_row r0 (λ c, c = 0 ∨ c ∈ pre) g)
    as_pat (casual3 & -> & Hdc3 & Hzc3).
  { intros pre col g [Hcol Hpre]%prefix_of_range [Hdg Hzg].
    destruct (for_each_prefix_total (λ (rows : list Z) (h : grid),
        dims h = replicate R C ∧ zero_in_row r0 (λ c, c = 0 ∨ c ∈ pre) h
        ∧ (r0 ∈ rows → (cell h (at_ r0 col) == 0)%Q)) (range 0 (Z.of_nat R))
        (λ row casual,
           x ← get2 fp row col; p ← get2 casual row (col - 1);
           set2 casual row col (b1 * x + s_factor cfg * p)%Q)) with (s := g)
      as (g' & Hrun & Hdg' & Hzg' & Hnew).
    - intros rows row h [Hrow _]%prefix_of_range (Hdh & Hzh & Hcur).
      run_body R C. eexists. split; [reflexivity|]. rewrite dims_upd.
      assert (row = r0 → (b1 * cell fp (at_ row col)
                + s_factor cfg * cell h (at_ row (col - 1)) == 0)%Q) as Hval.
      { intros ->. apply zero_step; [apply Hzfp; [lia | done]|].
        apply Hzh; [lia|]. destruct (decide (col = 1)) as [->|]; [by left|].
        right. apply Hpre. lia. }
      split_and!; [done| |].
      + by apply (zero_in_row_upd h R C); [done | lia..| done |].
      + intros Hin. apply (upd_keeps_zero h R C); [done | lia..| |].
        * intros Heq _. by apply Hval.
        * intros Hne. apply Hcur, (elem_of_snoc_ne rows row); [done | lia].
    - split_and!; [done..|]. set_solver.
    - exists g'. split; [exact Hrun|]. split; [done|].
      intros c Hc [->|[Hin| ->%list_elem_of_singleton]%elem_of_app].
      + apply Hzg'; [done | by left].
      + apply Hzg'; [done | by right].
      + apply Hnew, elem_of_range. lia. }
  { split; [done|]. intros c Hc [->|Hin]; [done | set_solver]. }
  mstep.
  (* the anti-causal component *)
  head_prefix_loop (λ (pre : list Z) (g : grid),
      dims g = replicate R C ∧ zero_in_row r0 (λ c, c = Z.of_nat C - 1 ∨ c ∈ pre) g)
    as_pat (anti3 & -> & Hda3 & Hza3).
  { intros pre col g [Hcol Hpre]%prefix_of_range_down [Hdg Hzg].
    destruct (for_each_prefix_total (λ (rows : list Z) (h : grid),
        dims h = replicate R C
        ∧ zero_in_row r0 (λ c, c = Z.of_nat C - 1 ∨ c ∈ pre) h
        ∧ (r0 ∈ rows → (cell h (at_ r0 col) == 0)%Q)) (range 0 (Z.of_nat R))
        (λ row anti_casual,
           x ← get2 fp row col; n ← get2 anti_casual row (col + 1);
           set2 anti_casual row col
             (s_factor cfg * b1 * x + s_factor cfg * n)%Q)) with (s := g)
      as (g' & Hrun & Hdg' & Hzg' & Hnew).
    - intros rows row h [Hrow _]%prefix_of_range (Hdh & Hzh & Hcur).
      run_body R C. eexists. split; [reflexivity|]. rewrite dims_upd.
      assert (row = r0 → (s_factor cfg * b1 * cell fp (at_ row col)
                + s_factor cfg * cell h (at_ row (col + 1)) == 0)%Q) as Hval.
      { intros ->. apply zero_step; [apply Hzfp; [lia | done]|].
        apply Hzh; [lia|].
        destruct (decide (col = Z.of_nat C - 2)) as [->|]; [left; lia|].
        right. apply Hpre. lia. }
      split_and!; [done| |].
      + by apply (zero_in_row_upd h R C); [done | lia..| done |].
      + intros Hin. apply (upd_keeps_zero h R C); [done | lia..| |].
        * intros Heq _. by apply Hval.
        * intros Hne. apply Hcur, (elem_of_snoc_ne rows row); [done | lia].
    - split_and!; [done..|]. set_solver.
    - exists g'. split; [exact Hrun|]. split; [done|].
      intros c Hc [->|[Hin| ->%list_elem_of_singleton]%elem_of_app].
      + apply Hzg'; [done | by left].
      + apply Hzg'; [done | by right].
      + apply Hnew, elem_of_range. lia. }
  { split; [done|]. intros c Hc [->|Hin]; [done | set_solver]. }
  mstep.
  assert (∀ c, 0 ≤ c < Z.of_nat C → (cell casual3 (at_ r0 c) == 0)%Q) as Hcz.
  { intros c Hc. apply Hzc3; [lia|].
    destruct (decide (c = 0)) as [->|]; [by left|]. right. apply elem_of_range. lia. }
  assert (∀ c, 0 ≤ c < Z.of_nat C → (cell anti3 (at_ r0 c) == 0)%Q) as Haz.
  { intros c Hc. apply Hza3; [lia|].
    destruct (decide (c = Z.of_nat C - 1)) as [->|]; [by left|].
    right. apply elem_of_range_down. lia. }
  (* the result *)
  head_loop (λ g, dims g = replicate R C ∧ zero_in_row r0 (λ _, True) g)
    as_pat (res1 & -> & Hres1); [|done|].
  { intros row h Hrow%elem_of_range [Hdh Hzh].
    run_body R C. eexists. split; [reflexivity|]. split; [by rewrite dims_upd|].
    apply (zero_in_row_upd h R C); [done | lia | lia | lia | done |].
    intros ->. apply Hcz. lia. }
  mstep.
  destruct (for_each_total (λ g, dims g = replicate R C ∧ zero_in_row r0 (λ _, True) g)
    (range 0 (Z.of_nat R))
    (λ row, for_each (range 0 (Z.of_nat C - 1)) (λ col result,
       a ← get2 casual3 row col; b ← get2 anti3 row (col + 1);
       set2 result row col (a + b)%Q))) with (s := res1)
    as (result & Hrun & Hd & Hz'); [|done|].
  { intros row g Hrow%elem_of_range Hg. apply for_each_total; [|done].
    intros col h Hcol%elem_of_range [Hdh Hzh].
    run_body R C. eexists. split; [reflexivity|]. split; [by rewrite dims_upd|].
    apply (zero_in_row_upd h R C); [done | lia | lia | lia | done |].
    intros ->. apply zero_sum; [apply Hcz | apply Haz]; lia. }
  by exists result.
Qed.
End SkippedRow.

(** X3.  Whatever the image, row [rows - 2] of the grid that [getISEF]
    returns is 0 in every column: the first pass stores its sums for the
    rows [0 .. rows - 3] and copies the last row, so row [rows - 2] of the
    intermediate grid keeps the zeros it was created with, and the second
    pass, which filters each row on its own, maps that row to zeros. *)
Theorem getISEF_zeroes_a_row (cfg : Config) (img result : grid) (R C : nat) :
  dims img = replicate R C → (2 ≤ R)%nat → (0 < C)%nat →
  getISEF cfg img = Ok result →
  ∀ col, 0 ≤ col < Z.of_nat C →
    ∃ v, get2 result (Z.of_nat R - 2) col = Ok v ∧ (v == 0)%Q.
Proof.
  intros Hdims HR HC Hrun col Hcol.
  destruct (checked_div (1 - s_factor cfg) (1 + s_factor cfg)) as [b1|] eqn:Hb1.
  2: { unfold getISEF in Hrun. destruct (shape img). by rewrite Hb1 in Hrun. }
  destruct (getISEF_row_zero cfg img R C b1 Hdims HR HC Hb1) as (r & Hr & Hd & Hz).
  rewrite Hrun in Hr. injection Hr as <-.
  exists (cell result (at_ (Z.of_nat R - 2) col)). split.
  - apply (get2_at result R C); [done | lia | lia].
  - apply Hz; [lia | done].
Qed.

Lemma getISEF_zeroes_a_row_witness :
  ∃ result, getISEF notebook_config small_ISEF = Ok result
    ∧ ∀ col, 0 ≤ col < 3 → ∃ v, get2 result 1 col = Ok v ∧ (v == 0)%Q.
Proof.
  eexists. split; [vm_compute; reflexivity|].
  apply (getISEF_zeroes_a_row notebook_config small_ISEF _ 3 3);
    [reflexivity | lia | lia | vm_compute; reflexivity].
Defined.


(** * When the pipeline returns *)

Lemma isEdge_false (cfg : Config) (row col rows columns : Z) :
  isEdge cfg row col rows columns = false ↔
  outline cfg ≤ row < rows - outline cfg ∧ outline cfg ≤ col < columns - outline cfg.
Proof.
  unfold isEdge. rewrite !orb_false_iff, !bool_decide_eq_false. lia.
Qed.

Lemma elem_of_window (cfg : Config) (row col : Z) (p : Z * Z) :
  p ∈ window cfg row col ↔
  row + window_start cfg ≤ p.1 < row + window_end cfg
  ∧ col + window_start cfg ≤ p.2 < col + window_end cfg.
Proof.
  unfold window. rewrite list_elem_of_fmap. split.
  - intros ([i j] & -> & Hin). apply elem_of_pairs in Hin.
    rewrite !elem_of_range in Hin. simpl in *. lia.
  - intros [H1 H2]. exists (p.1 - row, p.2 - col). split.
    + destruct p. simpl. f_equal; lia.
    + apply elem_of_pairs. rewrite !elem_of_range. simpl. lia.
Qed.

Lemma window_bounds (cfg : Config) :
  window_size cfg ÷ 2 ≤ outline cfg → 0 ≤ outline cfg →
  window_start cfg < window_end cfg →
  - outline cfg ≤ window_start cfg ∧ window_end cfg ≤ outline cfg.
Proof.
  unfold window_start, window_end. intros Hw Ho Hne.
  rewrite Z.quot_opp_l in * by lia. lia.
Qed.

Section Returns.
Context (cfg : Config) (imgISEF imgBLI : grid) (R C : nat).
Hypothesis HdI : dims imgISEF = replicate R C.
Hypothesis HdB : dims imgBLI = replicate R C.

Lemma isEdgeCandidate_total (row col : Z) :
  1 ≤ row < Z.of_nat R - 1 → 1 ≤ col < Z.of_nat C - 1 →
  is_Ok (isEdgeCandidate imgBLI imgISEF row col).
Proof.
  intros Hrow Hcol. unfold isEdgeCandidate.
  run_body R C.
  repeat first
    [ apply is_Ok_Ok
    | progress run_body R C
    | match goal with
      | |- context [Qeq_bool ?a ?b] => destruct (Qeq_bool a b)
      end ].
Qed.

Lemma adaptiveGradient_total (row col : Z) :
  window_size cfg ÷ 2 ≤ outline cfg → 0 ≤ outline cfg →
  outline cfg ≤ row < Z.of_nat R - outline cfg →
  outline cfg ≤ col < Z.of_nat C - outline cfg →
  is_Ok (adaptiveGradient cfg imgBLI imgISEF row col).
Proof.
  intros Hw Ho Hrow Hcol.
  destruct (accumulate_total imgBLI imgISEF (window cfg row col) (Sums 0 0 0 0))
    as [acc Hacc].
  { intros p [Hp1 Hp2]%elem_of_window.
    destruct (window_bounds cfg Hw Ho) as [Hs He]; [lia|].
    rewrite (get2_at imgBLI R C), (get2_at imgISEF R C) by (done || lia).
    split; apply is_Ok_Ok. }
  rewrite <- accumulate_window in Hacc.
  rewrite (adaptiveGradient_accumulated cfg _ _ _ _ acc Hacc). apply is_Ok_Ok.
Qed.
End Returns.

Lemma locateZc_total (cfg : Config) (imgISEF imgBLI : grid) :
  rect imgISEF → dims imgBLI = dims imgISEF →
  1 ≤ outline cfg → window_size cfg ÷ 2 ≤ outline cfg →
  ∃ result, locateZc cfg imgISEF imgBLI = Ok result ∧ dims result = dims imgISEF.
Proof.
  intros Hrect%rect_dims HdB Hout Hw. unfold locateZc, shape.
  set (R := length imgISEF) in *. set (C := length (hd [] imgISEF)) in *.
  rewrite Hrect in *.
  apply scan_total; [|by rewrite dims_zeros_like].
  intros row col g Hrow Hcol Hg.
  destruct (isEdge cfg row col (Z.of_nat R) (Z.of_nat C)) eqn:Hedge.
  { by exists g. }
  apply isEdge_false in Hedge as [Hr Hc].
  destruct (isEdgeCandidate_total imgISEF imgBLI R C Hrect HdB row col) as [cand ->];
    [lia | lia |].
  mstep. destruct cand.
  - destruct (adaptiveGradient_total cfg imgISEF imgBLI R C Hrect HdB row col)
      as [v ->]; [done | lia | done | done |].
    mstep. rewrite (set2_at g R C) by done. eexists. split; [done|].
    by rewrite dims_upd.
  - mstep. rewrite (set2_at g R C) by done. eexists. split; [done|].
    by rewrite dims_upd.
Qed.

(** ** The locator over the pixels of the image *)












(** X4.  [locateZc] reads only inside the arrays, and so returns, when the
    border margin is at least one pixel wide and at least as wide as half
    the window ([int (window_size / 2) <= outline]): the neighbours that
    [isEdgeCandidate] compares and the window of [adaptiveGradient] then
    stay inside the image at every pixel outside the margin. *)
Theorem locateZc_returns (cfg : Config) (imgISEF imgBLI : grid) :
  rect imgISEF → dims imgBLI = dims imgISEF →
  1 ≤ outline cfg → window_size cfg ÷ 2 ≤ outline cfg →
  ∃ result, locateZc cfg imgISEF imgBLI = Ok result ∧ dims result = dims imgISEF.
Proof. apply locateZc_total. Qed.

Lemma locateZc_returns_witness :
  ∃ result, locateZc step_config small_ISEF small_BLI = Ok result
    ∧ dims result = dims small_ISEF.
Proof.
  apply (locateZc_returns step_config small_ISEF small_BLI);
    [by repeat constructor | reflexivity | by vm_compute | by vm_compute].
Defined.

(** What [normalise] writes is 0 or 255. *)
Lemma normalise_binary (e out : grid) :
  rect e → normalise e = Ok out →
  dims out = dims e ∧ ∀ row col v, get2 out row col = Ok v → v = 0%Q ∨ v = 255%Q.
Proof.
  intros Hrect Hrun.
  destruct (normalise_spec e Hrect) as (out' & Hrun' & Hd & Hcell).
  rewrite Hrun in Hrun'. injection Hrun' as <-. split; [done|].
  intros row col v (p & Hp & <-)%get2_Ok. apply locate_valid in Hp.
  rewrite Hd, (rect_dims e Hrect) in Hp.
  apply valid_is_at in Hp as (r & c & -> & Hr & Hc).
  rewrite Hcell by done. destruct (Qltb 0 _); [by right | by left].
Qed.

(** The strength grid that [locateZc] returns is 0 on the border margin. *)
Lemma locateZc_zero_border (cfg : Config) (imgISEF imgBLI imgZC : grid) :
  rect imgISEF → locateZc cfg imgISEF imgBLI = Ok imgZC → zero_border cfg imgZC.
Proof.
  intros Hrect Hrun.
  destruct (locateZc_spec cfg imgISEF imgBLI imgZC Hrect Hrun) as [Hd Hcell].
  pose proof (rect_dims _ Hrect) as HdI.
  set (R := length imgISEF) in *. set (C := length (hd [] imgISEF)) in *.
  rewrite HdI in Hd. intros row col Hr Hc Hedge.
  assert (shape imgZC = shape imgISEF) as Hs by (apply shape_of_dims; congruence).
  rewrite Hs in Hr, Hc, Hedge. unfold shape in Hr, Hc, Hedge. simpl in Hr, Hc, Hedge.
  fold R C in Hr, Hc, Hedge.
  rewrite (get2_at imgZC R C), Hcell by done.
  unfold strength_spec, shape. fold R C. by rewrite Hedge.
Qed.

Section Driver.
Context (cfg : Config) (img : grid) (R C : nat).
Hypothesis Hdims : dims img = replicate R C.
Hypothesis HR : (0 < R)%nat.
Hypothesis HC : (0 < C)%nat.
Hypothesis Hs : ¬ (s_factor cfg == -1)%Q.
Hypothesis Hout : 1 ≤ outline cfg.

(** Once the locator has returned, so does the rest of the pipeline. *)
Lemma shenCastan_continues (imgISEF imgBLI imgZC : grid) :
  getISEF cfg img = Ok imgISEF → getBLI img imgISEF = Ok imgBLI →
  locateZc cfg imgISEF imgBLI = Ok imgZC →
  ∃ imgEdges out,
    threshold_edges cfg imgZC = Ok imgEdges ∧ normalise imgEdges = Ok out
    ∧ shenCastan cfg img = Ok out ∧ dims out = dims img
    ∧ ∀ row col v, get2 out row col = Ok v → v = 0%Q ∨ v = 255%Q.
Proof.
  intros HISEF HBLI HZC.
  pose proof (getISEF_dims cfg img imgISEF HISEF) as HdI. rewrite Hdims in HdI.
  pose proof (dims_rect imgISEF R C HdI) as HrI.
  destruct (locateZc_spec cfg imgISEF imgBLI imgZC HrI HZC) as [HdZ _].
  rewrite HdI in HdZ.
  pose proof (locateZc_zero_border cfg imgISEF imgBLI imgZC HrI HZC) as Hborder.
  destruct (threshold_edges_total cfg imgZC R C HdZ Hout Hborder) as [imgEdges Hthr].
  assert (dims imgEdges = replicate R C) as HdE.
  { unfold threshold_edges in Hthr. rewrite threshold_edges_within_phases in Hthr.
    apply bind_Ok in Hthr as (traced & Htrace & Hclear).
    pose proof (trace_seeds_grows cfg _ _ _ _ (dims_zeros_like imgZC) Htrace) as Hg.
    apply grows_dims in Hg. rewrite dims_zeros_like in Hg.
    destruct (clear_provisional_spec imgZC traced (dims_rect _ R C HdZ) Hg)
      as (e' & He' & HdE & _).
    rewrite Hclear in He'. injection He' as <-. congruence. }
  pose proof (dims_rect imgEdges R C HdE) as HrE.
  destruct (normalise_spec imgEdges HrE) as (out & Hnorm & _).
  destruct (normalise_binary imgEdges out HrE Hnorm) as [HdO Hbin].
  exists imgEdges, out. split_and!; [done | done | | congruence | done].
  rewrite shenCastan_phases, HISEF. mstep. rewrite HBLI. mstep.
  rewrite HZC. mstep. rewrite Hthr. mstep. done.
Qed.

Lemma shenCastan_total :
  window_size cfg ÷ 2 ≤ outline cfg →
  ∃ out, shenCastan cfg img = Ok out ∧ dims out = dims img
    ∧ ∀ row col v, get2 out row col = Ok v → v = 0%Q ∨ v = 255%Q.
Proof.
  intros Hw.
  destruct (getISEF_total cfg img R C Hdims HR HC Hs) as (imgISEF & HISEF & HdI).
  destruct (getBLI_spec img imgISEF) as (imgBLI & HBLI & HdB & _);
    [by apply (dims_rect img R C) | congruence |].
  destruct (locateZc_total cfg imgISEF imgBLI) as (imgZC & HZC & _);
    [by apply (dims_rect imgISEF R C) | congruence | done | done |].
  destruct (shenCastan_continues imgISEF imgBLI imgZC HISEF HBLI HZC)
    as (imgEdges & out & _ & _ & Hrun & Hd & Hbin).
  by exists out.
Qed.
End Driver.

(** X5.  [shenCastan] returns on every non-empty rectangular image when
    the smoothing factor is not [-1] and the border margin is at least one
    pixel wide and at least as wide as half the window: no read or write
    leaves the arrays, no division is by zero, and the traversals stay
    within their depth budget.  Its output has the shape of the image and
    every pixel of it is exactly 0 or exactly 255. *)
Theorem shenCastan_returns (cfg : Config) (img : grid) (R C : nat) :
  dims img = replicate R C → (0 < R)%nat → (0 < C)%nat →
  ¬ (s_factor cfg == -1)%Q →
  1 ≤ outline cfg → window_size cfg ÷ 2 ≤ outline cfg →
  ∃ out, shenCastan cfg img = Ok out ∧ dims out = dims img
    ∧ ∀ row col v, get2 out row col = Ok v → v = 0%Q ∨ v = 255%Q.
Proof. intros. by apply (shenCastan_total cfg img R C). Qed.

Lemma shenCastan_returns_witness :
  ∃ out, shenCastan step_config step_image = Ok out ∧ dims out = dims step_image
    ∧ ∀ row col v, get2 out row col = Ok v → v = 0%Q ∨ v = 255%Q.
Proof.
  apply (shenCastan_returns step_config step_image 6 6);
    [reflexivity | lia | lia | by vm_compute | by vm_compute | by vm_compute].
Defined.

(** * Images on which nothing is detected *)

(** A strength grid without candidates gives an empty edge grid. *)
Lemma no_candidates_no_edges (cfg : Config) (img imgISEF imgBLI : grid) (R C : nat) :
  dims img = replicate R C → 1 ≤ outline cfg →
  getISEF cfg img = Ok imgISEF → getBLI img imgISEF = Ok imgBLI →
  locateZc cfg imgISEF imgBLI = Ok (zeros_like imgISEF) →
  shenCastan cfg img = Ok (replicate R (replicate C 0%Q)).
Proof.
  intros Hdims Hout HISEF HBLI HZC.
  pose proof (getISEF_dims cfg img imgISEF HISEF) as HdI. rewrite Hdims in HdI.
  rewrite shenCastan_phases, HISEF. mstep. rewrite HBLI. mstep. rewrite HZC. mstep.
  rewrite threshold_edges_zero;
    [|apply (dims_rect _ R C); by rewrite dims_zeros_like|done|apply cell_zeros_like].
  mstep.
  rewrite (zeros_like_replicate _ R C) by (by rewrite !dims_zeros_like).
  apply normalise_zeros.
Qed.

(** When every pixel lies in the border margin, [locateZc] reads nothing
    and leaves its result as it was created. *)
Lemma locateZc_all_border (cfg : Config) (imgISEF imgBLI : grid) :
  (∀ row col, 0 ≤ row < (shape imgISEF).1 → 0 ≤ col < (shape imgISEF).2 →
     isEdge cfg row col (shape imgISEF).1 (shape imgISEF).2 = true) →
  locateZc cfg imgISEF imgBLI = Ok (zeros_like imgISEF).
Proof.
  intros Hedge. unfold locateZc. destruct (shape imgISEF) as [rows columns].
  simpl in Hedge.
  destruct (for_each_total (λ g, g = zeros_like imgISEF) (range 0 rows)
    (λ row, for_each (range 0 columns) (λ col result,
       if isEdge cfg row col rows columns then mret result
       else cand ← isEdgeCandidate imgBLI imgISEF row col;
            v ← (if cand : bool then adaptiveGradient cfg imgBLI imgISEF row col
                 else mret 0%Q);
            set2 result row col v))) with (s := zeros_like imgISEF)
    as (g & Hrun & ->); [|done|done].
  intros row g Hrow%elem_of_range ->. apply for_each_total; [|done].
  intros col g Hcol%elem_of_range ->. rewrite Hedge by lia. by eexists.
Qed.

(** X6.  An image that is at most twice the border margin high, or at
    most twice the border margin wide, consists of border pixels only:
    [shenCastan] returns the all-zero grid for it, whatever its content
    (with the notebook's [outline = 25], every image of up to 50 rows or
    up to 50 columns). *)
Theorem small_image_has_no_edges (cfg : Config) (img : grid) (R C : nat) :
  dims img = replicate R C → (0 < R)%nat → (0 < C)%nat →
  ¬ (s_factor cfg == -1)%Q →
  Z.of_nat R ≤ 2 * outline cfg ∨ Z.of_nat C ≤ 2 * outline cfg →
  shenCastan cfg img = Ok (replicate R (replicate C 0%Q)).
Proof.
  intros Hdims HR HC Hs Hsmall.
  destruct (getISEF_total cfg img R C Hdims HR HC Hs) as (imgISEF & HISEF & HdI).
  destruct (getBLI_spec img imgISEF) as (imgBLI & HBLI & HdB & _);
    [by apply (dims_rect img R C) | congruence |].
  apply (no_candidates_no_edges cfg img imgISEF imgBLI); [done | lia | done..|].
  apply locateZc_all_border. rewrite (shape_dims imgISEF R C) by done. simpl.
  intros row col Hrow Hcol. unfold isEdge.
  rewrite !orb_true_iff, !bool_decide_eq_true. lia.
Qed.

Lemma small_image_has_no_edges_witness :
  shenCastan notebook_config small_ISEF = Ok (replicate 3 (replicate 3 0%Q)).
Proof.
  apply (small_image_has_no_edges notebook_config small_ISEF 3 3);
    [reflexivity | lia | lia | by vm_compute | left; by vm_compute].
Defined.

(** With [window_size <= 1] the window of [adaptiveGradient] is empty
    ([int (-window_size/2) >= int (window_size/2)]): both sums stay 0 and
    the gradient is 0. *)
Lemma adaptiveGradient_empty_window (cfg : Config) (imgBLI imgISEF : grid)
    (row col : Z) :
  window_size cfg ≤ 1 → adaptiveGradient cfg imgBLI imgISEF row col = Ok 0%Q.
Proof.
  intros Hw. unfold adaptiveGradient, accumulate, range.
  assert (window_end cfg - window_start cfg ≤ 0) as Hempty.
  { unfold window_start, window_end. rewrite Z.quot_opp_l by lia.
    assert (window_size cfg ÷ 2 ≤ 1 ÷ 2) by (apply Z.quot_le_mono; lia).
    change (1 ÷ 2) with 0 in *. lia. }
  rewrite (seqZ_nil _ _ Hempty). reflexivity.
Qed.

Lemma locateZc_empty_window (cfg : Config) (imgISEF imgBLI : grid) :
  rect imgISEF → dims imgBLI = dims imgISEF → 1 ≤ outline cfg →
  window_size cfg ≤ 1 →
  locateZc cfg imgISEF imgBLI = Ok (zeros_like imgISEF).
Proof.
  intros Hrect%rect_dims Hd Hout Hw. unfold locateZc, shape.
  set (R := length imgISEF) in *. set (C := length (hd [] imgISEF)) in *.
  rewrite Hrect in Hd.
  destruct (scan_map (λ row col old,
      if isEdge cfg row col (Z.of_nat R) (Z.of_nat C) then old else 0%Q) R C
      (λ row col result,
        if isEdge cfg row col (Z.of_nat R) (Z.of_nat C) then mret result
        else
          cand ← isEdgeCandidate imgBLI imgISEF row col;
          v ← (if cand : bool then adaptiveGradient cfg imgBLI imgISEF row col
               else mret 0%Q);
          set2 result row col v)) with (g := zeros_like imgISEF)
    as (g' & Hrun & Hd' & Hcell).
  - intros row col g Hr Hc Hg.
    destruct (isEdge cfg row col (Z.of_nat R) (Z.of_nat C)) eqn:Hedge.
    { by exists g. }
    apply isEdge_false in Hedge as [Hrow Hcol].
    destruct (isEdgeCandidate_total imgISEF imgBLI R C Hrect Hd row col) as [cand ->];
      [lia | lia |].
    mstep. rewrite adaptiveGradient_empty_window by done.
    assert ((if cand then Ok 0%Q else Ok 0%Q) = Ok 0%Q) as -> by (by destruct cand).
    mstep. rewrite (set2_at g R C) by done.
    eexists. split; [reflexivity|]. split_and!.
    + by rewrite dims_upd.
    + intros q Hq. by apply cell_upd_ne.
    + apply cell_upd_eq. rewrite Hg. by apply valid_at.
  - by rewrite dims_zeros_like.
  - rewrite Hrun. f_equal. apply grid_eq; [by rewrite Hd', dims_zeros_like|].
    intros p Hp. rewrite Hd' in Hp.
    apply valid_is_at in Hp as (r & c & -> & Hr & Hc).
    rewrite Hcell, !cell_zeros_like by done.
    by destruct (isEdge cfg r c _ _).
Qed.

(** X7.  With [window_size <= 1] nothing is detected: the window over
    which [adaptiveGradient] averages is then empty, every candidate gets
    strength 0, and [shenCastan] returns the all-zero grid for every
    image. *)
Theorem narrow_window_finds_no_edges (cfg : Config) (img : grid) (R C : nat) :
  dims img = replicate R C → (0 < R)%nat → (0 < C)%nat →
  ¬ (s_factor cfg == -1)%Q → 1 ≤ outline cfg → window_size cfg ≤ 1 →
  shenCastan cfg img = Ok (replicate R (replicate C 0%Q)).
Proof.
  intros Hdims HR HC Hs Hout Hw.
  destruct (getISEF_total cfg img R C Hdims HR HC Hs) as (imgISEF & HISEF & HdI).
  destruct (getBLI_spec img imgISEF) as (imgBLI & HBLI & HdB & _);
    [by apply (dims_rect img R C) | congruence |].
  apply (no_candidates_no_edges cfg img imgISEF imgBLI); [done..|].
  apply locateZc_empty_window; [by apply (dims_rect _ R C) | congruence | done..].
Qed.

Lemma narrow_window_finds_no_edges_witness :
  shenCastan {| s_factor := 1 # 2; window_size := 1; outline := 1;
                low_thresh := - 50; high_thresh := - 36;
                do_hysteresis := false; thinFactor := 0 |} step_image
  = Ok (replicate 6 (replicate 6 0%Q)).
Proof.
  apply narrow_window_finds_no_edges;
    [reflexivity | lia | lia | by vm_compute | by vm_compute | by vm_compute].
Defined.

(** * What the tracer hands out *)

(** X9.  Whenever [threshold_edges] returns, its result has the shape of
    the strength grid and holds only 0 and 1 (every provisional 255 has
    been cleared); a pixel that holds 1 has a non-zero strength above the
    module-level [low_thresh].  This holds with and without thinning. *)
Theorem threshold_edges_marks (cfg : Config) (img edges : grid) :
  rect img → threshold_edges cfg img = Ok edges →
  dims edges = dims img
  ∧ ∀ row col e, get2 edges row col = Ok e →
      e = 0%Q
      ∨ (e = 1%Q ∧ ∃ v, get2 img row col = Ok v
                    ∧ (low_thresh cfg < v)%Q ∧ ¬ (v == 0)%Q).
Proof.
  intros Hrect Hthr. pose proof (rect_dims img Hrect) as Hdims.
  unfold threshold_edges in Hthr. rewrite threshold_edges_within_phases in Hthr.
  apply bind_Ok in Hthr as (traced & Htrace & Hclear).
  pose proof (trace_seeds_grows cfg _ _ _ _ (dims_zeros_like img) Htrace) as Hg.
  pose proof (grows_dims _ _ _ _ Hg) as HdT. rewrite dims_zeros_like in HdT.
  destruct (clear_provisional_spec img traced Hrect HdT) as (e' & He' & HdE & HcellE).
  rewrite Hclear in He'. injection He' as <-. split; [done|].
  intros row col e (p & Hp & <-)%get2_Ok. rewrite HdE in Hp.
  pose proof (locate_valid _ _ _ _ Hp) as Hval. rewrite Hdims in Hval.
  apply valid_is_at in Hval as (r & c & Heq & Hr & Hc).
  rewrite Heq, HcellE, <- Heq by done.
  destruct Hg as [_ Hg]. destruct (Hg p) as [Hsame|(_ & _ & Hnz & Hmark)].
  - left. rewrite Hsame, cell_zeros_like. done.
  - assert (get2 img row col = Ok (cell img p)) as Hread.
    { apply get2_Ok. by exists p. }
    destruct Hmark as [->|[_ ->]]; [|by left]. unfold initial_mark.
    destruct (Qltb (low_thresh cfg) (cell img p)) eqn:Hlow; [|by left].
    right. split; [done|]. exists (cell img p). split_and!; [done| |].
    + by apply Qltb_lt.
    + unfold nonzero in Hnz. apply negb_true_iff in Hnz. by apply Qeq_bool_neq.
Qed.

Lemma threshold_edges_marks_witness :
  ∃ edges, threshold_edges (tracer_config 0 2 false 2) chain = Ok edges
    ∧ dims edges = dims chain
    ∧ ∀ row col e, get2 edges row col = Ok e →
        e = 0%Q
        ∨ (e = 1%Q ∧ ∃ v, get2 chain row col = Ok v ∧ (0 < v)%Q ∧ ¬ (v == 0)%Q).
Proof.
  eexists. split; [vm_compute; reflexivity|].
  apply (threshold_edges_marks (tracer_config 0 2 false 2) chain);
    [by repeat constructor | vm_compute; reflexivity].
Defined.

(** A loop none of whose iterations changes the state. *)
Lemma for_each_idle {A S : Type} (xs : list A) (body : A → S → res S) (s : S) :
  (∀ x, x ∈ xs → body x s = Ok s) → for_each xs body s = Ok s.
Proof.
  intros Hidle. induction xs as [|x xs IH]; [done|]. simpl.
  rewrite Hidle by left. simpl. apply IH. intros y Hy. apply Hidle. by right.
Qed.

(** Without a seed no traversal is started. *)
Lemma threshold_edges_without_seeds (cfg : Config) (img : grid) :
  rect img →
  (∀ row col v, get2 img row col = Ok v →
     isEdge cfg row col (shape img).1 (shape img).2 = false →
     (v <= high_thresh cfg)%Q) →
  threshold_edges cfg img = Ok (zeros_like img).
Proof.
  intros Hrect%rect_dims Hweak.
  unfold threshold_edges. rewrite threshold_edges_within_phases.
  unfold trace_seeds, clear_provisional, shape in *.
  set (R := length img) in *. set (C := length (hd [] img)) in *. simpl in Hweak.
  rewrite for_each_idle.
  2: { intros row Hrow%elem_of_range. apply for_each_idle.
       intros col Hcol%elem_of_range.
       destruct (isEdge cfg row col (Z.of_nat R) (Z.of_nat C)) eqn:Hedge; [done|].
       rewrite (get2_at img R C) by (done || lia). mstep.
       assert (Qltb (high_thresh cfg) (cell img (at_ row col)) = false) as ->; [|done].
       apply Qltb_ge. apply (Hweak row col); [|done].
       apply (get2_at img R C); [done | lia | lia]. }
  mstep. apply for_each_idle.
  intros row Hrow%elem_of_range. apply for_each_idle.
  intros col Hcol%elem_of_range.
  rewrite (get2_at _ R C) by (rewrite ?dims_zeros_like; done || lia).
  by rewrite cell_zeros_like.
Qed.

(** X10.  If no pixel outside the border margin is stronger than
    [high_thresh], no traversal is started and [threshold_edges] returns
    the all-zero grid, whatever the border margin, [low_thresh] and the
    thinning factor. *)
Theorem no_seed_no_edge (cfg : Config) (img : grid) :
  rect img →
  (∀ row col v, get2 img row col = Ok v →
     isEdge cfg row col (shape img).1 (shape img).2 = false →
     (v <= high_thresh cfg)%Q) →
  threshold_edges cfg img = Ok (zeros_like img).
Proof. apply threshold_edges_without_seeds. Qed.

Lemma no_seed_no_edge_witness :
  threshold_edges (tracer_config 0 5 false 2) chain = Ok (zeros_like chain).
Proof.
  apply (no_seed_no_edge (tracer_config 0 5 false 2) chain); [by repeat constructor|].
  intros row col v Hread _. revert v Hread.
  apply (reads_Forall (λ v, v <= 5)%Q). repeat constructor; by vm_compute.
Defined.

(** X11.  The tracer is a flood fill.  With thinning off
    ([thinFactor <= 0]), on a strength grid that is 0 on the border margin
    (with [outline >= 1]), the tracer returns, and the pixels it confirms
    (255 in the normalised output) are exactly those that are stronger than
    [low_thresh] and linked to a seed by a chain of 8-neighbours of
    non-zero strength, a seed being a pixel outside the margin that is
    stronger than [high_thresh]; every other pixel is 0. *)
Theorem tracer_floods_from_seeds (cfg : Config) (img : grid) (R C : nat) :
  dims img = replicate R C → (0 < R)%nat →
  1 ≤ outline cfg → zero_border cfg img → thinFactor cfg ≤ 0 →
  ∃ out, tracer_output cfg img = Ok out ∧ dims out = dims img
    ∧ ∀ row col, 0 ≤ row < Z.of_nat R → 0 ≤ col < Z.of_nat C →
        (edge_spec cfg img R C (row, col) ∧ get2 out row col = Ok 255%Q)
        ∨ (¬ edge_spec cfg img R C (row, col) ∧ get2 out row col = Ok 0%Q).
Proof.
  intros Hdims HR Hout Hborder Hthin.
  destruct (tracer_output_spec cfg img R C Hdims Hout Hborder Hthin HR)
    as (out & Hrun & Hd & Hspec).
  exists out. split_and!; [done | congruence |].
  intros row col Hrow Hcol. rewrite (get2_at out R C) by done.
  destruct (Hspec (row, col)) as [[Hedge Hv]|[Hno Hv]]; [done|..];
    change (at' (row, col)) with (at_ row col) in Hv; rewrite Hv; [by left | by right].
Qed.

Lemma tracer_floods_from_seeds_witness :
  ∃ out, tracer_output (tracer_config 0 4 false 0) chain = Ok out
    ∧ dims out = dims chain
    ∧ ∀ row col, 0 ≤ row < 3 → 0 ≤ col < 5 →
        (edge_spec (tracer_config 0 4 false 0) chain 3 5 (row, col)
         ∧ get2 out row col = Ok 255%Q)
        ∨ (¬ edge_spec (tracer_config 0 4 false 0) chain 3 5 (row, col)
           ∧ get2 out row col = Ok 0%Q).
Proof.
  apply (tracer_floods_from_seeds (tracer_config 0 4 false 0) chain 3 5);
    [reflexivity | lia | simpl; lia | | simpl; lia].
  intros row col Hr Hc. simpl in Hr, Hc.
  assert (row = 0 ∨ row = 1 ∨ row = 2) as Hrow by lia.
  assert (col = 0 ∨ col = 1 ∨ col = 2 ∨ col = 3 ∨ col = 4) as Hcol by lia.
  destruct Hrow as [->|[->| ->]]; destruct Hcol as [->|[->|[->|[->| ->]]]];
    vm_compute; intros H; (reflexivity || discriminate H).
Defined.

(** X12.  With thinning off, raising the module-level [low_thresh] never
    adds an edge: for [low1 <= low2], all else held fixed, on a strength
    grid that is 0 on the border margin (with [outline >= 1]), every pixel
    confirmed under [low2] is confirmed under [low1], and there are at most
    as many. *)
Theorem raising_low_thresh_removes_edges (cfg : Config) (img : grid) (low1 low2 : Q) :
  rect img → 1 ≤ outline cfg → zero_border cfg img → thinFactor cfg ≤ 0 →
  (low1 <= low2)%Q →
  ∃ out1 out2,
    tracer_output (with_low low1 cfg) img = Ok out1
    ∧ tracer_output (with_low low2 cfg) img = Ok out2
    ∧ (∀ row col v, get2 out2 row col = Ok v → (v == 255)%Q →
         ∃ v', get2 out1 row col = Ok v' ∧ (v' == 255)%Q)
    ∧ (edge_count out2 ≤ edge_count out1)%nat.
Proof.
  intros Hrect%rect_dims Hout Hborder Hthin Hle.
  set (R := length img) in *. set (C := length (hd [] img)) in *.
  destruct (decide (R = 0)%nat) as [HR|HR].
  { assert (img = []) as -> by (apply length_zero_iff_nil; exact HR).
    exists [], []. split_and!; [reflexivity | reflexivity | | reflexivity].
    intros row col v Hget. unfold get2, getitem in Hget. simpl in Hget.
    destruct (py_index 0 row) eqn:E; [apply py_index_lt in E; lia | done]. }
  destruct (tracer_output_spec (with_low low1 cfg) img R C)
    as (out1 & Hout1 & Hd1 & Hspec1); [done..|lia|].
  destruct (tracer_output_spec (with_low low2 cfg) img R C)
    as (out2 & Hout2 & Hd2 & Hspec2); [done..|lia|].
  assert (∀ q, in_range R C q →
            Qeq_bool (cell out2 (at' q)) 255 = true →
            cell out1 (at' q) = 255%Q) as Hsub.
  { intros q Hq H255.
    destruct (Hspec2 q Hq) as [[[Hlow (s & Hs & Hconn)] _]|[_ H0]];
      [|by rewrite H0 in H255].
    destruct (Hspec1 q Hq) as [[_ H1]|[Hno _]]; [done|].
    destruct Hno. split; [|by exists s].
    simpl in *. apply Qltb_lt. apply Qltb_lt in Hlow.
    by apply (Qle_lt_trans _ low2). }
  exists out1, out2. split_and!; [done..| |].
  - intros row col v (p & Hp & <-)%get2_Ok H255.
    pose proof (locate_valid _ _ _ _ Hp) as Hval. rewrite Hd2 in Hval.
    apply valid_is_at in Hval as (r & c & -> & Hr & Hc).
    exists (cell out1 (at_ r c)). split.
    + apply get2_Ok. exists (at_ r c). split; [congruence | done].
    + change (at_ r c) with (at' (r, c)) in *.
      rewrite (Hsub (r, c)); [done | done |]. by apply Qeq_bool_iff.
  - apply edge_count_mono; [congruence|]. intros p H255.
    destruct (decide ((p.1 < R)%nat ∧ (p.2 < C)%nat)) as [Hval|Hinv].
    + apply valid_replicate, valid_is_at in Hval as (r & c & -> & Hr & Hc).
      change (at_ r c) with (at' (r, c)) in *. by rewrite (Hsub (r, c)).
    + rewrite cell_invalid in H255; [done|].
      rewrite Hd2. by intros ?%valid_replicate.
Qed.

Lemma raising_low_thresh_removes_edges_witness :
  ∃ out1 out2,
    tracer_output (with_low 0 (tracer_config 0 4 false 0)) chain = Ok out1
    ∧ tracer_output (with_low 3 (tracer_config 0 4 false 0)) chain = Ok out2
    ∧ (edge_count out2 ≤ edge_count out1)%nat.
Proof.
  destruct (raising_low_thresh_removes_edges (tracer_config 0 4 false 0) chain 0 3)
    as (out1 & out2 & H1 & H2 & _ & Hcount).
  - by repeat constructor.
  - simpl. lia.
  - intros row col Hr Hc. simpl in Hr, Hc.
    assert (row = 0 ∨ row = 1 ∨ row = 2) as Hrow by lia.
    assert (col = 0 ∨ col = 1 ∨ col = 2 ∨ col = 3 ∨ col = 4) as Hcol by lia.
    destruct Hrow as [->|[->| ->]]; destruct Hcol as [->|[->|[->|[->| ->]]]];
      vm_compute; intros H; (reflexivity || discriminate H).
  - simpl. lia.
  - by vm_compute.
  - by exists out1, out2.
Defined.

(** ** Without a border margin *)

Lemma get2_past_the_end (g : grid) (R C : nat) (row : Z) :
  dims g = replicate R C → 0 ≤ row < Z.of_nat R →
  get2 g row (Z.of_nat C) = Raise IndexError.
Proof.
  intros Hd Hrow. rewrite get2_locate, Hd. unfold locate.
  rewrite length_replicate, py_index_nonneg by done. simpl.
  rewrite lookup_replicate_2 by lia. simpl.
  assert (py_index C (Z.of_nat C) = None) as -> by (apply py_index_None; lia).
  done.
Qed.

(** A traversal that enters row 0 at column [col] walks to the right as
    long as the strength is non-zero, and off the array at the end of the
    row. *)
Lemma mark_connected_walks_off (cfg : Config) (img : grid) (R C : nat) (n : nat) :
  dims img = replicate R C → (0 < R)%nat →
  ∀ (d : nat) (col level : Z) (e : grid),
    dims e = replicate R C → 0 ≤ col → Z.of_nat C - col = Z.of_nat n →
    (n < d)%nat → (0 < n)%nat →
    (∀ c, col ≤ c < Z.of_nat C →
       nonzero img (at_ 0 c) = true ∧ visited e (at_ 0 c) = false) →
    mark_connected cfg d 0 col level img e = Raise IndexError.
Proof.
  intros Hdims HR. induction n as [|n IH]; intros d col level e He Hcol Hn Hd Hpos Hrow.
  { lia. }
  destruct d as [|d]; [lia|]. rewrite mark_connected_S.
  destruct (Hrow col) as [Hnz Hvis]; [lia|].
  rewrite (get2_at e R C), (get2_at img R C) by (done || lia). mstep.
  unfold visited in Hvis. rewrite Hvis. unfold nonzero in Hnz.
  apply negb_true_iff in Hnz. rewrite Hnz. mstep.
  rewrite (set2_at e R C) by (done || lia). mstep.
  assert (neighbour_step cfg d 0 col level img (0, 1)
            (upd e (at_ 0 col) (initial_mark cfg (cell img (at_ 0 col))), 0)
          = Raise IndexError) as Hstep.
  { unfold neighbour_step. simpl. change (0 + 0) with 0.
    destruct (decide (n = 0)%nat) as [->|Hn0].
    - destruct d as [|d]; [lia|]. rewrite mark_connected_S.
      replace (col + 1) with (Z.of_nat C) by lia.
      rewrite (get2_past_the_end (upd e _ _) R C) by (rewrite ?dims_upd; done || lia).
      done.
    - rewrite IH; [done | by rewrite dims_upd | lia | lia | lia | lia |].
      intros c Hc. destruct (Hrow c) as [Hnz' Hvis']; [lia|]. split; [done|].
      unfold visited in *. rewrite cell_upd_ne; [done|].
      intros Heq. apply at_inj in Heq; lia. }
  unfold neighbours. simpl for_each.
  unfold mbind at 2. unfold res_bind at 1.
  rewrite Hstep. done.
Qed.

Lemma pixels_head (rows columns : Z) :
  0 < rows → 0 < columns → ∃ rest, pixels rows columns = (0, 0) :: rest.
Proof.
  intros Hr Hc. unfold pixels, pairs, range.
  rewrite (seqZ_cons 0 (rows - 0)) by lia.
  rewrite (seqZ_cons 0 (columns - 0)) by lia. csimpl. by eexists.
Qed.

(** X13.  The tracer relies on the border margin to stay inside the
    arrays.  With [outline <= 0], if the first pixel is a seed and row 0
    has non-zero strength throughout, the first traversal walks along
    row 0 (the first neighbour visited is the one to the right) and
    reads [edges[0][columns]]: [threshold_edges] raises [IndexError]. *)
Theorem tracer_needs_a_margin (cfg : Config) (img : grid) (R C : nat) :
  dims img = replicate R C → (0 < R)%nat → (0 < C)%nat →
  outline cfg ≤ 0 →
  (∃ v, get2 img 0 0 = Ok v ∧ (high_thresh cfg < v)%Q) →
  (∀ col, 0 ≤ col < Z.of_nat C → ∃ v, get2 img 0 col = Ok v ∧ ¬ (v == 0)%Q) →
  threshold_edges cfg img = Raise IndexError.
Proof.
  intros Hdims HR HC Hout (v0 & Hv0 & Hhigh) Hrow.
  unfold threshold_edges. rewrite threshold_edges_within_phases, trace_seeds_pixels.
  assert (C < depth_budget img)%nat as Hdepth.
  { unfold depth_budget.
    pose proof (shape_dims img R C Hdims HR) as Hs. unfold shape in Hs.
    injection Hs as ->%Nat2Z.inj ->%Nat2Z.inj. nia. }
  set (d := depth_budget img) in *.
  rewrite (shape_dims img R C) by done. cbn [fst snd].
  destruct (pixels_head (Z.of_nat R) (Z.of_nat C)) as [rest ->]; [lia..|].
  cbn [for_each].
  assert (seed_step cfg d img (0, 0) (zeros_like img) = Raise IndexError) as ->;
    [|done].
  unfold seed_step. rewrite (shape_dims img R C) by done. cbn [fst snd].
  assert (isEdge cfg 0 0 (Z.of_nat R) (Z.of_nat C) = false) as ->.
  { apply isEdge_false. lia. }
  rewrite Hv0. mstep. apply Qltb_lt in Hhigh. rewrite Hhigh.
  rewrite (mark_connected_walks_off cfg img R C C); [done..| | lia | lia | | lia |].
  - by rewrite dims_zeros_like.
  - done.
  - intros c Hc. destruct (Hrow c) as (v & Hv & Hnz); [lia|].
    rewrite (get2_at img R C) in Hv by (done || lia). injection Hv as <-.
    unfold nonzero, visited. rewrite cell_zeros_like. split; [|done].
    apply negb_true_iff. destruct (Qeq_bool _ 0) eqn:E; [|done].
    by apply Qeq_bool_iff in E.
Qed.

Lemma tracer_needs_a_margin_witness :
  threshold_edges (with_outline 0 (tracer_config 0 2 false 0)) [ [3; 1]; [0; 0] ]%Q
  = Raise IndexError.
Proof.
  apply (tracer_needs_a_margin _ _ 2 2); [reflexivity | lia | lia | simpl; lia | |].
  - exists 3%Q. split; [reflexivity | by vm_compute].
  - intros col Hcol. assert (col = 0 ∨ col = 1) as [-> | ->] by lia.
    + exists 3%Q. split; [reflexivity | by vm_compute].
    + exists 1%Q. split; [reflexivity | by vm_compute].
Defined.

(** * The thinning factor *)

(** X14.  A thinning factor of 1 thins nothing: the re-mark to 255 is
    guarded by [level % thinFactor != 0], which is false for
    [thinFactor = 1] at every level, so [threshold_edges] and [shenCastan]
    give the same result for every [thinFactor <= 1] as for
    [thinFactor = 0]. *)
Theorem thinFactor_one_thins_nothing (cfg : Config) (img : grid) (thin : Z) :
  thin ≤ 1 →
  threshold_edges (with_thin thin cfg) img = threshold_edges (with_thin 0 cfg) img
  ∧ shenCastan (with_thin thin cfg) img = shenCastan (with_thin 0 cfg) img.
Proof.
  intros Hthin.
  assert (∀ g, threshold_edges (with_thin thin cfg) g
               = threshold_edges (with_thin 0 cfg) g) as Hthr.
  { intros g. apply threshold_edges_small_thin; simpl; (done || lia). }
  split; [apply Hthr|].
  rewrite !shenCastan_phases.
  change (getISEF (with_thin thin cfg) img) with (getISEF (with_thin 0 cfg) img).
  apply bind_ext. intros imgISEF. apply bind_ext. intros imgBLI.
  change (locateZc (with_thin thin cfg) imgISEF imgBLI)
    with (locateZc (with_thin 0 cfg) imgISEF imgBLI).
  apply bind_ext. intros imgZC. by rewrite Hthr.
Qed.

Lemma thinFactor_one_thins_nothing_witness :
  threshold_edges (with_thin 1 (tracer_config 0 2 false 2)) chain
  = threshold_edges (with_thin 0 (tracer_config 0 2 false 2)) chain
  ∧ shenCastan (with_thin 1 step_config) step_image
    = shenCastan (with_thin 0 step_config) step_image.
Proof.
  split.
  - apply (thinFactor_one_thins_nothing (tracer_config 0 2 false 2) chain 1). lia.
  - apply (thinFactor_one_thins_nothing step_config step_image 1). lia.
Defined.

(** ** Thinning only removes edges *)

Lemma thinned_refl (e : grid) : thinned e e.
Proof. split; [done|]. intros q. by left. Qed.

Lemma thinned_visited (e0 et : grid) (q : nat * nat) :
  thinned e0 et → visited et q = visited e0 q.
Proof.
  intros [_ H]. destruct (H q) as [Heq|[Hv Heq]]; unfold visited in *.
  - by rewrite Heq.
  - by rewrite Heq, Hv.
Qed.

Lemma thinned_upd (e0 et : grid) (p : nat * nat) (v : Q) :
  thinned e0 et → valid (dims e0) p → thinned (upd e0 p v) (upd et p v).
Proof.
  intros [Hd H] Hp. split; [by rewrite !dims_upd|]. intros q.
  destruct (decide (p = q)) as [<-|Hne].
  - left. rewrite !cell_upd_eq; [done | done | by rewrite Hd].
  - unfold visited. rewrite !cell_upd_ne by done. apply H.
Qed.

Lemma thinned_demote (e0 et : grid) (p : nat * nat) :
  thinned e0 et → valid (dims e0) p → visited e0 p = true →
  thinned e0 (upd et p 255%Q).
Proof.
  intros [Hd H] Hp Hv. split; [by rewrite dims_upd|]. intros q.
  destruct (decide (p = q)) as [<-|Hne].
  - right. split; [done|]. apply cell_upd_eq. by rewrite Hd.
  - rewrite cell_upd_ne by done. apply H.
Qed.

Section Thinned.
Context (cfg0 cfgt : Config) (img : grid).
Hypothesis Hlow : low_thresh cfgt = low_thresh cfg0.
Hypothesis Hoff : thinFactor cfg0 ≤ 1.

Lemma neighbours_thinned (d : nat) (row col level : Z) :
  (∀ row' col' level' e0 et et' r,
     dims e0 = dims img → thinned e0 et →
     mark_connected cfgt d row' col' level' img et = Ok (et', r) →
     ∃ e0', mark_connected cfg0 d row' col' level' img e0 = Ok (e0', r)
            ∧ thinned e0' et') →
  ∀ ns e0 et n etN nce,
    dims e0 = dims img → thinned e0 et →
    for_each ns (neighbour_step cfgt d row col level img) (et, n) = Ok (etN, nce) →
    ∃ e0N, for_each ns (neighbour_step cfg0 d row col level img) (e0, n)
           = Ok (e0N, nce)
           ∧ thinned e0N etN ∧ dims e0N = dims img.
Proof.
  intros IH ns. induction ns as [|dd ns IHns]; intros e0 et n etN nce Hd Hrel Hrun.
  - injection Hrun as <- <-. by exists e0.
  - simpl in Hrun. apply bind_Ok in Hrun as ([et1 n1] & Hstep & Hrun).
    unfold neighbour_step in Hstep. simpl in Hstep.
    apply bind_Ok in Hstep as ([et1' r] & Hcall & Hret). injection Hret as <- <-.
    destruct (IH _ _ _ e0 et et1' r Hd Hrel Hcall) as (e01 & Hcall0 & Hrel1).
    assert (dims e01 = dims img) as Hd1.
    { apply mark_connected_grows in Hcall0 as [Hg _]; [|done].
      by rewrite (grows_dims _ _ _ _ Hg). }
    destruct (IHns e01 et1' (Z.lor n r) etN nce Hd1 Hrel1 Hrun)
      as (e0N & Hrun0 & HrelN & HdN).
    exists e0N. split; [|done]. cbn [for_each].
    assert (neighbour_step cfg0 d row col level img dd (e0, n)
            = Ok (e01, Z.lor n r)) as ->; [|done].
    unfold neighbour_step. cbn [fst snd]. by rewrite Hcall0.
Qed.

(** A call in the run with thinning is matched by the same call in the
    run without: it returns the same value and leaves related states. *)
Lemma mark_connected_thinned (d : nat) (row col level : Z) (e0 et et' : grid) (r : Z) :
  dims e0 = dims img → thinned e0 et →
  mark_connected cfgt d row col level img et = Ok (et', r) →
  ∃ e0', mark_connected cfg0 d row col level img e0 = Ok (e0', r) ∧ thinned e0' et'.
Proof.
  revert row col level e0 et et' r.
  induction d as [|d IH]; intros row col level e0 et et' r Hd0 Hrel Hrun; [done|].
  pose proof Hrel as [Hdt _]. 
  assert (dims et = dims img) as Hdt' by congruence.
  apply mark_connected_cases in Hrun
    as (p & Hp & [(-> & -> & Hstop)|(-> & Hv & Hnz & etN & nce & Hloop & Hthin)]);
    [| |done].
  - exists e0. split; [|done].
    rewrite mark_connected_S, !get2_locate, Hd0, <- Hdt', Hp. mstep.
    rewrite (thinned_visited e0 et p Hrel) in Hstop.
    unfold visited, nonzero in Hstop.
    destruct (Qeq_bool (cell e0 p) 0); simpl in *; [|done].
    destruct Hstop as [?|Hz]; [done|]. apply negb_false_iff in Hz. by rewrite Hz.
  - rewrite Hdt in Hp. pose proof (locate_valid _ _ _ _ Hp) as Hval.
    set (mark := initial_mark cfgt (cell img p)) in *.
    assert (initial_mark cfg0 (cell img p) = mark) as Hmark.
    { unfold mark, initial_mark. by rewrite Hlow. }
    pose proof (thinned_upd e0 et p mark Hrel Hval) as Hrel1.
    destruct (neighbours_thinned d row col level IH neighbours
                (upd e0 p mark) (upd et p mark) 0 etN nce)
      as (e0N & Hloop0 & HrelN & HdN); [by rewrite dims_upd | done | done |].
    exists e0N. split.
    + rewrite mark_connected_S, !get2_locate, Hd0, <- Hdt', Hdt, Hp. mstep.
      rewrite (thinned_visited e0 et p Hrel) in Hv. unfold visited, nonzero in *.
      apply negb_false_iff in Hv. apply negb_true_iff in Hnz. rewrite Hv, Hnz.
      mstep. rewrite set2_locate, Hp. mstep. rewrite Hmark, Hloop0. mstep.
      by rewrite demote_small.
    + assert (visited e0N p = true) as HvN.
      { rewrite <- (thinned_visited e0N etN p HrelN).
        apply (neighbours_grow cfgt img d row col level) in Hloop as (HgN & _ & _).
        - apply (grows_visited cfgt img _ _ _ HgN).
          rewrite visited_upd_eq by (by rewrite Hdt). apply negb_true_iff.
          apply visited_mark.
        - intros row' col' level' e e' r' He Hcall.
          by apply (mark_connected_grows cfgt img d row' col' level').
        - by rewrite dims_upd. }
      destruct (demote cfgt level nce).
      * rewrite set2_locate in Hthin.
        destruct HrelN as [HdtN HN]. rewrite HdtN, HdN, <- Hd0, Hp in Hthin.
        injection Hthin as <-.
        apply thinned_demote; [done | by rewrite HdN, <- Hd0 | done].
      * by injection Hthin as <-.
Qed.
End Thinned.

Lemma trace_seeds_thinned (cfg0 cfgt : Config) (img : grid) (depth : nat)
    (traced : grid) :
  low_thresh cfgt = low_thresh cfg0 → high_thresh cfgt = high_thresh cfg0 →
  outline cfgt = outline cfg0 → thinFactor cfg0 ≤ 1 →
  trace_seeds cfgt depth img (zeros_like img) = Ok traced →
  ∃ traced0, trace_seeds cfg0 depth img (zeros_like img) = Ok traced0
    ∧ thinned traced0 traced.
Proof.
  intros Hlow Hhigh Hout Hoff. rewrite !trace_seeds_pixels.
  generalize (pixels (shape img).1 (shape img).2). intros ps.
  assert (∀ e0 et, dims e0 = dims img → thinned e0 et →
            for_each ps (seed_step cfgt depth img) et = Ok traced →
            ∃ traced0, for_each ps (seed_step cfg0 depth img) e0 = Ok traced0
              ∧ thinned traced0 traced) as Hloop.
  { induction ps as [|p ps IH]; intros e0 et Hd Hrel Hrun.
    - injection Hrun as <-. by exists e0.
    - simpl in Hrun. apply bind_Ok in Hrun as (et1 & Hstep & Hrun).
      assert (∃ e01, seed_step cfg0 depth img p e0 = Ok e01
                ∧ thinned e01 et1 ∧ dims e01 = dims img) as (e01 & Hstep0 & Hrel1 & Hd1).
      { unfold seed_step, isEdge in *. rewrite Hout, Hhigh in Hstep.
        destruct (_ || _).
        { injection Hstep as <-. by exists e0. }
        apply bind_Ok in Hstep as (v & Hv & Hstep). rewrite Hv. mstep.
        destruct (Qltb (high_thresh cfg0) v).
        2: { injection Hstep as <-. by exists e0. }
        apply bind_Ok in Hstep as ([et1' r] & Hcall & Hret). injection Hret as <-.
        destruct (mark_connected_thinned cfg0 cfgt img Hlow Hoff depth
                    p.1 p.2 0 e0 et et1' r Hd Hrel Hcall) as (e01 & Hcall0 & Hrel1).
        exists e01. rewrite Hcall0. split_and!; [done..|].
        apply mark_connected_grows in Hcall0 as [Hg _]; [|done].
        by rewrite (grows_dims _ _ _ _ Hg). }
      destruct (IH e01 et1 Hd1 Hrel1 Hrun) as (traced0 & Hrun0 & Hrel0).
      exists traced0. split; [|done]. simpl. by rewrite Hstep0. }
  apply Hloop; [apply dims_zeros_like | apply thinned_refl].
Qed.

(** X15.  Thinning only removes edges: whenever [threshold_edges] returns
    under some thinning factor, it also returns with thinning off
    ([thinFactor = 0], all else unchanged), and every pixel it marks 1 with
    thinning is marked 1 without.  (The traversals visit the same pixels in
    the same order in both runs; thinning only turns confirmed marks into
    provisional ones.) *)
Theorem thinning_only_removes_edges (cfg : Config) (img edges : grid) :
  rect img → threshold_edges cfg img = Ok edges →
  ∃ edges0, threshold_edges (with_thin 0 cfg) img = Ok edges0
    ∧ ∀ row col, get2 edges row col = Ok 1%Q → get2 edges0 row col = Ok 1%Q.
Proof.
  intros Hrect Hthr. pose proof (rect_dims img Hrect) as Hdims.
  unfold threshold_edges in *. rewrite threshold_edges_within_phases in *.
  apply bind_Ok in Hthr as (traced & Htrace & Hclear).
  destruct (trace_seeds_thinned (with_thin 0 cfg) cfg img (depth_budget img) traced)
    as (traced0 & Htrace0 & Hrel); [done | done | done | simpl; lia | done |].
  rewrite Htrace0. mstep.
  pose proof (trace_seeds_grows _ _ _ _ _ (dims_zeros_like img) Htrace) as Hg.
  apply grows_dims in Hg. rewrite dims_zeros_like in Hg.
  pose proof (trace_seeds_grows _ _ _ _ _ (dims_zeros_like img) Htrace0) as Hg0.
  apply grows_dims in Hg0. rewrite dims_zeros_like in Hg0.
  destruct (clear_provisional_spec img traced Hrect Hg) as (e & He & Hde & Hcell).
  rewrite Hclear in He. injection He as <-.
  destruct (clear_provisional_spec img traced0 Hrect Hg0) as (edges0 & -> & Hd0 & Hcell0).
  exists edges0. split; [done|].
  intros row col (p & Hp & Hone)%get2_Ok. apply get2_Ok. exists p.
  split; [congruence|]. rewrite Hde in Hp.
  pose proof (locate_valid _ _ _ _ Hp) as Hval. rewrite Hdims in Hval.
  apply valid_is_at in Hval as (r & c & -> & Hr & Hc).
  rewrite Hcell in Hone by done. rewrite Hcell0 by done.
  destruct (Qeq_bool (cell traced (at_ r c)) 255) eqn:E; [done|].
  destruct Hrel as [_ Hrel]. destruct (Hrel (at_ r c)) as [Heq|[_ Heq]].
  - by rewrite <- Heq, E.
  - by rewrite Heq in E.
Qed.

Lemma thinning_only_removes_edges_witness :
  ∃ edges edges0,
    threshold_edges (tracer_config 0 2 false 2) chain = Ok edges
    ∧ threshold_edges (with_thin 0 (tracer_config 0 2 false 2)) chain = Ok edges0
    ∧ ∀ row col, get2 edges row col = Ok 1%Q → get2 edges0 row col = Ok 1%Q.
Proof.
  eexists.
  destruct (thinning_only_removes_edges (tracer_config 0 2 false 2) chain)
    with (edges := [ [0; 0; 0; 0; 0]; [0; 1; 0; 1; 0]; [0; 0; 0; 0; 0] ]%Q)
    as (edges0 & H0 & Hsub); [by repeat constructor | by vm_compute |].
  exists edges0. split; [by vm_compute | done].
Defined.

(** * Candidates *)

Lemma Qltb_differ (x y : Q) :
  Qltb 0 (x - y) = true ∨ Qltb (x - y) 0 = true → ¬ (x == y)%Q.
Proof. intros [H%Qltb_lt|H%Qltb_lt] Heq; rewrite Heq in H; lra. Qed.

(** X16.  A pixel that [isEdgeCandidate] accepts lies on a zero crossing:
    the binary Laplacian image is 1 at the pixel and 0 at one of its four
    direct neighbours, and the smoothed image differs across the pixel
    along the rows or along the columns. *)
Theorem candidates_lie_on_zero_crossings (imgBLI imgISEF : grid) (row col : Z) :
  isEdgeCandidate imgBLI imgISEF row col = Ok true →
  (∃ b, get2 imgBLI row col = Ok b ∧ (b == 1)%Q)
  ∧ (∃ p b, p ∈ [(row + 1, col); (row, col + 1); (row - 1, col); (row, col - 1)]
       ∧ get2 imgBLI p.1 p.2 = Ok b ∧ (b == 0)%Q)
  ∧ ((∃ x y, get2 imgISEF (row + 1) col = Ok x ∧ get2 imgISEF (row - 1) col = Ok y
        ∧ ¬ (x == y)%Q)
     ∨ (∃ x y, get2 imgISEF row (col + 1) = Ok x ∧ get2 imgISEF row (col - 1) = Ok y
          ∧ ¬ (x == y)%Q)).
Proof.
  unfold isEdgeCandidate.
  destruct (get2 imgBLI row col) as [b|] eqn:Hb; [|mstep; done]. mstep.
  destruct (Qeq_bool b 1) eqn:Hb1.
  2: { mstep. done. }
  apply Qeq_bool_iff in Hb1.
  set (around := [(row + 1, col); (row, col + 1); (row - 1, col); (row, col - 1)]).
  assert (∀ p bb, p ∈ around → get2 imgBLI p.1 p.2 = Ok bb → Qeq_bool bb 0 = true →
            ∃ p b, p ∈ around ∧ get2 imgBLI p.1 p.2 = Ok b ∧ (b == 0)%Q) as Hoff.
  { intros p bb Hp Hbb Hz. exists p, bb. split_and!; [done..|]. by apply Qeq_bool_iff. }
  assert (∀ x y, get2 imgISEF (row + 1) col = Ok x → get2 imgISEF (row - 1) col = Ok y →
            Qltb 0 (x - y) = true ∨ Qltb (x - y) 0 = true →
            ∃ x y, get2 imgISEF (row + 1) col = Ok x
              ∧ get2 imgISEF (row - 1) col = Ok y ∧ ¬ (x == y)%Q) as Hrows.
  { intros x y Hx Hy Hs%Qltb_differ. by exists x, y. }
  assert (∀ x y, get2 imgISEF row (col + 1) = Ok x → get2 imgISEF row (col - 1) = Ok y →
            Qltb 0 (x - y) = true ∨ Qltb (x - y) 0 = true →
            ∃ x y, get2 imgISEF row (col + 1) = Ok x
              ∧ get2 imgISEF row (col - 1) = Ok y ∧ ¬ (x == y)%Q) as Hcols.
  { intros x y Hx Hy Hs%Qltb_differ. by exists x, y. }
  destruct (get2 imgBLI (row + 1) col) as [b1|] eqn:H1; [|mstep; done]. mstep.
  destruct (Qeq_bool b1 0) eqn:Z1.
  { destruct (get2 imgISEF (row + 1) col) as [x|] eqn:Hx; [|mstep; done]. mstep.
    destruct (get2 imgISEF (row - 1) col) as [y|] eqn:Hy; [|mstep; done]. mstep.
    intros [= Hs]. split_and!; [by exists b | | left; apply (Hrows x y); auto].
    apply (Hoff (row + 1, col) b1); [unfold around; repeat constructor | done..]. }
  mstep.
  destruct (get2 imgBLI row (col + 1)) as [b2|] eqn:H2; [|mstep; done]. mstep.
  destruct (Qeq_bool b2 0) eqn:Z2.
  { destruct (get2 imgISEF row (col + 1)) as [x|] eqn:Hx; [|mstep; done]. mstep.
    destruct (get2 imgISEF row (col - 1)) as [y|] eqn:Hy; [|mstep; done]. mstep.
    intros [= Hs]. split_and!; [by exists b | | right; apply (Hcols x y); auto].
    apply (Hoff (row, col + 1) b2); [unfold around; repeat constructor | done..]. }
  mstep.
  destruct (get2 imgBLI (row - 1) col) as [b3|] eqn:H3; [|mstep; done]. mstep.
  destruct (Qeq_bool b3 0) eqn:Z3.
  { destruct (get2 imgISEF (row + 1) col) as [x|] eqn:Hx; [|mstep; done]. mstep.
    destruct (get2 imgISEF (row - 1) col) as [y|] eqn:Hy; [|mstep; done]. mstep.
    intros [= Hs]. split_and!; [by exists b | | left; apply (Hrows x y); auto].
    apply (Hoff (row - 1, col) b3); [unfold around; repeat constructor | done..]. }
  mstep.
  destruct (get2 imgBLI row (col - 1)) as [b4|] eqn:H4; [|mstep; done]. mstep.
  destruct (Qeq_bool b4 0) eqn:Z4; [|done].
  destruct (get2 imgISEF row (col + 1)) as [x|] eqn:Hx; [|mstep; done]. mstep.
  destruct (get2 imgISEF row (col - 1)) as [y|] eqn:Hy; [|mstep; done]. mstep.
  intros [= Hs]. split_and!; [by exists b | | right; apply (Hcols x y); auto].
  apply (Hoff (row, col - 1) b4); [unfold around; repeat constructor | done..].
Qed.

Lemma candidates_lie_on_zero_crossings_witness :
  (∃ b, get2 small_BLI 1 1 = Ok b ∧ (b == 1)%Q)
  ∧ (∃ p b, p ∈ [(1 + 1, 1); (1, 1 + 1); (1 - 1, 1); (1, 1 - 1)]
       ∧ get2 small_BLI p.1 p.2 = Ok b ∧ (b == 0)%Q)
  ∧ ((∃ x y, get2 small_ISEF (1 + 1) 1 = Ok x ∧ get2 small_ISEF (1 - 1) 1 = Ok y
        ∧ ¬ (x == y)%Q)
     ∨ (∃ x y, get2 small_ISEF 1 (1 + 1) = Ok x ∧ get2 small_ISEF 1 (1 - 1) = Ok y
          ∧ ¬ (x == y)%Q)).
Proof.
  apply (candidates_lie_on_zero_crossings small_BLI small_ISEF 1 1). by vm_compute.
Defined.

